(** * A streaming JSON reader and its mirrored writer (json.hpp, main.cpp)

    Shallow embedding of [json::basic_reader<char>],
    [json::basic_writer<char>] and the program that runs one into the
    other.  Member functions become computations in a
    small state-and-exception monad: a C++ exception leaves the object in
    the state it had when the [throw] was executed, so a raised computation
    still returns the state.  Characters are 8-bit ([ascii]); the character
    classification functions of <cctype> are taken in the "C" locale.
    [std::size_t] is taken as a 64-bit unsigned integer. *)

From Stdlib Require Import ZArith List Ascii String Bool Lia DecimalString.
Import ListNotations.
Open Scope Z_scope.

(** ** Characters and strings *)

Definition string_type := list ascii.

Definition code (c : ascii) : Z := Z.of_N (N_of_ascii c).

(** [char_type(x)]: conversion of an integer to an 8-bit character. *)
Definition char_type (x : Z) : ascii := ascii_of_N (Z.to_N (x mod 256)).

Definition dquote : ascii := "034"%char.
Definition backslash : ascii := "092"%char.
Definition slash : ascii := "/"%char.
Definition backspace : ascii := "008"%char.
Definition formfeed : ascii := "012"%char.
Definition newline : ascii := "010"%char.
Definition carriage_return : ascii := "013"%char.
Definition tab : ascii := "009"%char.
Definition space : ascii := " "%char.

Definition isspace (c : ascii) : bool :=
  (code c =? 32) || ((9 <=? code c) && (code c <=? 13)).

Definition isdigit (c : ascii) : bool :=
  (48 <=? code c) && (code c <=? 57).

Definition isxdigit (c : ascii) : bool :=
  isdigit c
  || ((65 <=? code c) && (code c <=? 70))
  || ((97 <=? code c) && (code c <=? 102)).

(** [std::size_t] and [std::uint16_t] arithmetic. *)
Definition size_modulus : Z := 2 ^ 64.
Definition size_incr (n : Z) : Z := (n + 1) mod size_modulus.
Definition size_mul (a b : Z) : Z := (a * b) mod size_modulus.
Definition uint16 (n : Z) : Z := n mod 2 ^ 16.

(** ** Exceptions and the computation monad *)

Inductive exn : Type :=
| json_exception (what : string) (row column : Z)
| bad_exception.

(** [json::exception(what)] with the defaulted [row = 0, column = 0]. *)
Definition exception (what : string) : exn := json_exception what 0 0.

Inductive result (A : Type) : Type :=
| Return (a : A)
| Throw (e : exn)
| OutOfFuel.
Arguments Return {A} a.
Arguments Throw {A} e.
Arguments OutOfFuel {A}.

Section Monad.
Context {St : Type}.

Definition M (A : Type) : Type := St -> result A * St.

Definition ret {A} (a : A) : M A := fun s => (Return a, s).

Definition bind {A B} (m : M A) (k : A -> M B) : M B :=
  fun s =>
    match m s with
    | (Return a, s') => k a s'
    | (Throw e, s') => (Throw e, s')
    | (OutOfFuel, s') => (OutOfFuel, s')
    end.

Definition throw {A} (e : exn) : M A := fun s => (Throw e, s).

Definition timeout {A} : M A := fun s => (OutOfFuel, s).

Definition gets {A} (f : St -> A) : M A := fun s => (Return (f s), s).

Definition modify (f : St -> St) : M unit := fun s => (Return tt, f s).
End Monad.
Arguments M : clear implicits.

Declare Scope monad_scope.
Delimit Scope monad_scope with monad.
Notation "x <- m ;; k" := (bind m (fun x => k))
  (at level 61, m at next level, right associativity) : monad_scope.
Notation "m ;; k" := (bind m (fun _ => k))
  (at level 61, right associativity) : monad_scope.
Open Scope monad_scope.

(** ** Items *)

Inductive item : Type :=
| object_begin
| object_end
| array_begin
| array_end
| key
| string_value
| integer_value
| real_value
| null_value
| true_value
| false_value.

(** ** basic_reader *)

Module basic_reader.

Inductive token_t : Type :=
| object_begin_token
| object_end_token
| array_begin_token
| array_end_token
| colon_token
| comma_token
| string_token
| integer_token
| real_token
| null_token
| true_token
| false_token.

Inductive char_state : Type :=
| default_state
| string_state
| escape_state
| unicode_1_state
| unicode_2_state
| unicode_3_state
| unicode_4_state
| integer_1_state
| integer_n_state
| integer_z_state
| fractional_1_state
| fractional_n_state
| exponent_state
| exponent_1_state
| exponent_n_state
| null_1_state
| null_2_state
| null_3_state
| true_1_state
| true_2_state
| true_3_state
| false_1_state
| false_2_state
| false_3_state
| false_4_state.

Inductive token_state : Type :=
| object_1_state
| object_2_state
| object_3_state
| object_v_state
| object_n_state
| array_1_state
| array_v_state
| array_n_state.

(** The data members, except the callback.  The top of the
    [std::stack] is the head of the list. *)
Record reader : Type := mk_reader {
  m_token_state : list token_state;
  m_char_state : char_state;
  m_data : string_type;
  m_row : Z;
  m_column : Z;
  m_unicode : Z
}.

(** A freshly constructed reader (the default member initialisers). *)
Definition init : reader :=
  {| m_token_state := []; m_char_state := default_state; m_data := [];
     m_row := 1; m_column := 1; m_unicode := 0 |}.

Definition set_token_state (v : list token_state) (r : reader) : reader :=
  mk_reader v (m_char_state r) (m_data r) (m_row r) (m_column r) (m_unicode r).
Definition set_char_state (v : char_state) (r : reader) : reader :=
  mk_reader (m_token_state r) v (m_data r) (m_row r) (m_column r) (m_unicode r).
Definition set_data (v : string_type) (r : reader) : reader :=
  mk_reader (m_token_state r) (m_char_state r) v (m_row r) (m_column r) (m_unicode r).
Definition set_position (row col : Z) (r : reader) : reader :=
  mk_reader (m_token_state r) (m_char_state r) (m_data r) row col (m_unicode r).
Definition set_unicode (v : Z) (r : reader) : reader :=
  mk_reader (m_token_state r) (m_char_state r) (m_data r) (m_row r) (m_column r) v.

Section Reader.
(** The callback is a [std::function]; [Env] is the state it captures
    (in main.cpp, the writer and the output stream).  It may throw. *)
Variable Env : Type.
Variable m_callback : item -> string_type -> Z -> Z -> M Env unit.

Definition world : Type := (reader * Env)%type.

Definition member {A} (f : reader -> A) : M world A :=
  gets (fun w => f (fst w)).

Definition update (f : reader -> reader) : M world unit :=
  modify (fun w => (f (fst w), snd w)).

Definition callback (m : M Env unit) : M world unit :=
  fun w => let (res, env) := m (snd w) in (res, (fst w, env)).

Definition move (input : ascii) : M world unit :=
  if Ascii.eqb input newline
  then update (fun r => set_position (size_incr (m_row r)) 1 r)
  else update (fun r => set_position (m_row r) (size_incr (m_column r)) r).

Definition next (state : char_state) : M world bool :=
  update (set_char_state state) ;; ret true.

Definition repeat (state : char_state) : M world bool :=
  update (set_char_state state) ;; ret false.

Definition take (input : ascii) : M world unit :=
  update (fun r => set_data (m_data r ++ [input]) r).

Definition take_unicode : M world unit :=
  u <- member m_unicode ;;
  (if u <? 128 then
     take (char_type u)
   else if u <? 2048 then
     take (char_type (Z.lor 192 (Z.land (Z.shiftr u 6) 31))) ;;
     take (char_type (Z.lor 128 (Z.land u 63)))
   else
     take (char_type (Z.lor 224 (Z.land (Z.shiftr u 12) 15))) ;;
     take (char_type (Z.lor 128 (Z.land (Z.shiftr u 6) 63))) ;;
     take (char_type (Z.lor 128 (Z.land u 63)))) ;;
  update (set_unicode 0).

Definition unicode (input : ascii) : M world unit :=
  digit <-
    (if (code "0" <=? code input) && (code input <=? code "9") then
       ret (uint16 (code input - code "0"))
     else if (code "a" <=? code input) && (code input <=? code "f") then
       ret (uint16 (code input - code "a" + 10))
     else if (code "A" <=? code input) && (code input <=? code "F") then
       ret (uint16 (code input - code "A" + 10))
     else
       throw bad_exception) ;;
  update (fun r => set_unicode (uint16 (Z.lor (Z.shiftl (m_unicode r) 4) digit)) r).

Definition push (state : token_state) : M world unit :=
  update (fun r => set_token_state (state :: m_token_state r) r).

(** [m_token_state.top() = state]; only ever called on a non-empty
    stack (on an empty one the C++ behaviour is undefined and the model
    leaves the stack as it is). *)
Definition jump (state : token_state) : M world unit :=
  update (fun r => set_token_state
                     (match m_token_state r with
                      | [] => []
                      | _ :: rest => state :: rest
                      end) r).

Definition pop : M world unit :=
  update (fun r => set_token_state (tl (m_token_state r)) r).

Definition call (i : item) : M world unit :=
  r <- member (fun r => r) ;;
  callback (m_callback i (m_data r) (m_row r) (m_column r)) ;;
  update (set_data []).

Definition raise {A} (what : string) : M world A :=
  r <- member (fun r => r) ;;
  throw (json_exception what (m_row r) (m_column r)).

Definition begin_expected : string :=
  String dquote ("{" ++ String dquote (" or " ++ String dquote ("[" ++ String dquote " expected"))).
Definition key_or_end_expected : string :=
  "key or " ++ String dquote ("}" ++ String dquote " expected").
Definition colon_expected : string :=
  String dquote (":" ++ String dquote " expected").
Definition value_expected : string := "value expected".
Definition object_end_or_comma_expected : string :=
  String dquote ("}" ++ String dquote (" or " ++ String dquote ("," ++ String dquote " expected"))).
Definition value_or_array_end_expected : string :=
  "value or " ++ String dquote ("]" ++ String dquote " expected").
Definition array_end_or_comma_expected : string :=
  String dquote ("]" ++ String dquote (" or " ++ String dquote ("," ++ String dquote " expected"))).

(** The part of [token] shared by [object_v_state] and, through the
    fall-through from [array_1_state], [array_v_state]: everything
    after the [jump]. *)
Definition value_token (input : token_t) (what : string) : M world unit :=
  match input with
  | object_begin_token => call object_begin ;; push object_1_state
  | array_begin_token => call array_begin ;; push array_1_state
  | string_token => call string_value
  | integer_token => call integer_value
  | real_token => call real_value
  | null_token => call null_value
  | true_token => call true_value
  | false_token => call false_value
  | _ => raise what
  end.

Definition token (input : token_t) : M world unit :=
  st <- member m_token_state ;;
  match st with
  | [] =>
      match input with
      | object_begin_token => call object_begin ;; push object_1_state
      | array_begin_token => call array_begin ;; push array_1_state
      | _ => raise begin_expected
      end
  | top :: _ =>
      let case_object_2 :=
        match input with
        | string_token => call key ;; jump object_3_state
        | _ => raise key_or_end_expected
        end in
      let case_array_v :=
        jump array_n_state ;; value_token input value_or_array_end_expected in
      match top with
      | object_1_state =>
          match input with
          | object_end_token => call object_end ;; pop
          | _ => case_object_2
          end
      | object_2_state => case_object_2
      | object_3_state =>
          match input with
          | colon_token => jump object_v_state
          | _ => raise colon_expected
          end
      | object_v_state =>
          jump object_n_state ;; value_token input value_expected
      | object_n_state =>
          match input with
          | object_end_token => call object_end ;; pop
          | comma_token => jump object_2_state
          | _ => raise object_end_or_comma_expected
          end
      | array_1_state =>
          match input with
          | array_end_token => call array_end ;; pop
          | _ => case_array_v
          end
      | array_v_state => case_array_v
      | array_n_state =>
          match input with
          | array_end_token => call array_end ;; pop
          | comma_token => jump array_v_state
          | _ => raise array_end_or_comma_expected
          end
      end
  end.

Definition unexpected_character : M world bool :=
  raise "unexpected character".

Definition scan (input : ascii) : M world bool :=
  let case_integer_z :=
    if Ascii.eqb input "." then take input ;; next fractional_1_state
    else if Ascii.eqb input "e" || Ascii.eqb input "E" then
      take input ;; next exponent_state
    else token integer_token ;; repeat default_state in
  st <- member m_char_state ;;
  match st with
  | default_state =>
      if isspace input then next default_state
      else if Ascii.eqb input "{" then token object_begin_token ;; next default_state
      else if Ascii.eqb input "}" then token object_end_token ;; next default_state
      else if Ascii.eqb input "[" then token array_begin_token ;; next default_state
      else if Ascii.eqb input "]" then token array_end_token ;; next default_state
      else if Ascii.eqb input ":" then token colon_token ;; next default_state
      else if Ascii.eqb input "," then token comma_token ;; next default_state
      else if Ascii.eqb input dquote then next string_state
      else if Ascii.eqb input "-" then take input ;; next integer_1_state
      else if Ascii.eqb input "n" then next null_1_state
      else if Ascii.eqb input "t" then next true_1_state
      else if Ascii.eqb input "f" then next false_1_state
      else if isdigit input then
        take input ;;
        next (if Ascii.eqb input "0" then integer_z_state else integer_n_state)
      else unexpected_character
  | string_state =>
      if Ascii.eqb input dquote then token string_token ;; next default_state
      else if Ascii.eqb input backslash then next escape_state
      else take input ;; next string_state
  | escape_state =>
      if Ascii.eqb input dquote then take dquote ;; next string_state
      else if Ascii.eqb input backslash then take backslash ;; next string_state
      else if Ascii.eqb input "/" then take slash ;; next string_state
      else if Ascii.eqb input "b" then take backspace ;; next string_state
      else if Ascii.eqb input "f" then take formfeed ;; next string_state
      else if Ascii.eqb input "n" then take newline ;; next string_state
      else if Ascii.eqb input "r" then take carriage_return ;; next string_state
      else if Ascii.eqb input "t" then take tab ;; next string_state
      else if Ascii.eqb input "u" then next unicode_1_state
      else unexpected_character
  | unicode_1_state =>
      if isxdigit input then unicode input ;; next unicode_2_state
      else unexpected_character
  | unicode_2_state =>
      if isxdigit input then unicode input ;; next unicode_3_state
      else unexpected_character
  | unicode_3_state =>
      if isxdigit input then unicode input ;; next unicode_4_state
      else unexpected_character
  | unicode_4_state =>
      if isxdigit input then unicode input ;; take_unicode ;; next string_state
      else unexpected_character
  | integer_1_state =>
      if isdigit input then
        take input ;;
        next (if Ascii.eqb input "0" then integer_z_state else integer_n_state)
      else unexpected_character
  | integer_n_state =>
      if isdigit input then take input ;; next integer_n_state
      else case_integer_z
  | integer_z_state => case_integer_z
  | fractional_1_state =>
      if isdigit input then take input ;; next fractional_n_state
      else unexpected_character
  | fractional_n_state =>
      if isdigit input then take input ;; next fractional_n_state
      else if Ascii.eqb input "e" || Ascii.eqb input "E" then
        take input ;; next exponent_state
      else token real_token ;; repeat default_state
  | exponent_state =>
      if isdigit input then take input ;; next exponent_n_state
      else if Ascii.eqb input "-" || Ascii.eqb input "+" then
        take input ;; next exponent_1_state
      else unexpected_character
  | exponent_1_state =>
      if isdigit input then take input ;; next exponent_n_state
      else unexpected_character
  | exponent_n_state =>
      if isdigit input then take input ;; next exponent_n_state
      else token real_token ;; repeat default_state
  | null_1_state =>
      if Ascii.eqb input "u" then next null_2_state else unexpected_character
  | null_2_state =>
      if Ascii.eqb input "l" then next null_3_state else unexpected_character
  | null_3_state =>
      if Ascii.eqb input "l" then token null_token ;; next default_state
      else unexpected_character
  | true_1_state =>
      if Ascii.eqb input "r" then next true_2_state else unexpected_character
  | true_2_state =>
      if Ascii.eqb input "u" then next true_3_state else unexpected_character
  | true_3_state =>
      if Ascii.eqb input "e" then token true_token ;; next default_state
      else unexpected_character
  | false_1_state =>
      if Ascii.eqb input "a" then next false_2_state else unexpected_character
  | false_2_state =>
      if Ascii.eqb input "l" then next false_3_state else unexpected_character
  | false_3_state =>
      if Ascii.eqb input "s" then next false_4_state else unexpected_character
  | false_4_state =>
      if Ascii.eqb input "e" then token false_token ;; next default_state
      else unexpected_character
  end.

(** [while (!scan(input)) continue;] with the number of iterations
    bounded by [fuel]; the value returned is the number of calls of
    [scan] that were made. *)
Fixpoint scan_loop (fuel : nat) (input : ascii) : M world nat :=
  match fuel with
  | O => timeout
  | S fuel' =>
      done <- scan input ;;
      if (done : bool) then ret 1%nat
      else n <- scan_loop fuel' input ;; ret (S n)
  end.

(** [operator()(input)]. *)
Definition operator_call (fuel : nat) (input : ascii) : M world unit :=
  scan_loop fuel input ;; move input.

(** Two iterations always suffice (lemma [scan_loop_fuel] below). *)
Definition feed (input : ascii) : M world unit := operator_call 2 input.

(** [std::for_each(first, last, f)] for a reader [f]: [f(input)] for every
    character of the range, in order. *)
Fixpoint for_each (range : list ascii) : M world unit :=
  match range with
  | [] => ret tt
  | input :: rest => feed input ;; for_each rest
  end.

(** [read(first, last)] is [std::for_each(first, last, *this)].  The
    function object is taken by value: the characters are fed to a copy of
    the reader, which is dropped in the end.  What the callback did stays;
    the reader itself is as it was. *)
Definition read (range : list ascii) : M world unit :=
  fun w => let (res, w') := for_each range w in (res, (fst w, snd w')).
End Reader.

(** The callback that records what it is called with. *)
Definition event : Type := (item * string_type * Z * Z)%type.

Definition record_event (i : item) (data : string_type) (row column : Z)
  : M (list event) unit :=
  modify (fun log => log ++ [(i, data, row, column)]).

End basic_reader.

(** ** basic_writer *)

Module basic_writer.

Inductive token_state : Type :=
| object_1_state
| object_v_state
| object_n_state
| array_1_state
| array_n_state.

Record writer : Type := mk_writer {
  m_indent : Z;
  m_state : list token_state
}.

(** A default-constructed writer: [m_indent = 2], empty stack. *)
Definition init : writer := {| m_indent := 2; m_state := [] |}.

(** [indent(std::size_t)]. *)
Definition indent (n : Z) (w : writer) : writer :=
  {| m_indent := n; m_state := m_state w |}.

(** The writer together with the characters sent through the output
    iterator so far. *)
Definition world : Type := (writer * list ascii)%type.

Definition member {A} (f : writer -> A) : M world A :=
  gets (fun w => f (fst w)).

Definition update (f : list token_state -> list token_state) : M world unit :=
  modify (fun w => (mk_writer (m_indent (fst w)) (f (m_state (fst w))), snd w)).

(** [*output++ = c]. *)
Definition put (c : ascii) : M world unit :=
  modify (fun w => (fst w, snd w ++ [c])).

Definition push (state : token_state) : M world unit :=
  update (fun st => state :: st).

Definition jump (state : token_state) : M world unit :=
  update (fun st => match st with [] => [] | _ :: rest => state :: rest end).

Definition pop : M world unit :=
  update (@tl token_state).

(** [std::for_each] over a string with an action on the output. *)
Fixpoint for_each (data : string_type) (f : ascii -> M world unit) : M world unit :=
  match data with
  | [] => ret tt
  | c :: rest => f c ;; for_each rest f
  end.

(** [std::fill_n(output, n, ' ')]. *)
Definition fill_n (n : Z) (c : ascii) : M world unit :=
  for_each (List.repeat c (Z.to_nat n)) put.

Definition endl : M world unit :=
  w <- member (fun w => w) ;;
  if negb (m_indent w =? 0) then
    put newline ;;
    fill_n (size_mul (Z.of_nat (List.length (m_state w))) (m_indent w)) space
  else ret tt.

Definition encode (input : ascii) : M world unit :=
  if Ascii.eqb input dquote then put backslash ;; put dquote
  else if Ascii.eqb input backslash then put backslash ;; put backslash
  else if Ascii.eqb input slash then put backslash ;; put "/"%char
  else if Ascii.eqb input backspace then put backslash ;; put "b"%char
  else if Ascii.eqb input formfeed then put backslash ;; put "f"%char
  else if Ascii.eqb input newline then put backslash ;; put "n"%char
  else if Ascii.eqb input carriage_return then put backslash ;; put "r"%char
  else if Ascii.eqb input tab then put backslash ;; put "t"%char
  else put input.

Definition string (data : string_type) : M world unit :=
  put dquote ;; for_each data encode ;; put dquote.

(** [std::copy(data.begin(), data.end(), output)]. *)
Definition token (data : string_type) : M world unit :=
  for_each data put.

Definition object_begin_data : string_type := ["{"%char].
Definition object_end_data : string_type := ["}"%char].
Definition array_begin_data : string_type := ["["%char].
Definition array_end_data : string_type := ["]"%char].
Definition comma_data : string_type := [","%char].
Definition colon_data : string_type := [":"%char; " "%char].
Definition null_data : string_type := list_ascii_of_string "null".
Definition true_data : string_type := list_ascii_of_string "true".
Definition false_data : string_type := list_ascii_of_string "false".

Definition write (i : item) (data : string_type) : M world unit :=
  st <- member m_state ;;
  match st with
  | [] =>
      match i with
      | object_begin => token object_begin_data ;; push object_1_state
      | array_begin => token array_begin_data ;; push array_1_state
      | _ => throw (exception "object or array begin expected")
      end
  | object_1_state :: _ =>
      match i with
      | object_end => pop ;; token object_end_data
      | key => endl ;; string data ;; token colon_data ;; jump object_v_state
      | _ => throw (exception "object end or key expected")
      end
  | object_v_state :: _ =>
      match i with
      | object_begin =>
          token object_begin_data ;; jump object_n_state ;; push object_1_state
      | array_begin =>
          token array_begin_data ;; jump object_n_state ;; push array_1_state
      | string_value => string data ;; jump object_n_state
      | integer_value => token data ;; jump object_n_state
      | real_value => token data ;; jump object_n_state
      | null_value => token null_data ;; jump object_n_state
      | true_value => token true_data ;; jump object_n_state
      | false_value => token false_data ;; jump object_n_state
      | _ => throw (exception "value expected")
      end
  | object_n_state :: _ =>
      match i with
      | object_end => pop ;; endl ;; token object_end_data
      | key =>
          token comma_data ;; endl ;; string data ;; token colon_data ;;
          jump object_v_state
      | _ => throw (exception "object end of key expected")
      end
  | array_1_state :: _ =>
      match i with
      | array_end => pop ;; token array_end_data
      | object_begin =>
          endl ;; token object_begin_data ;; jump array_n_state ;; push object_1_state
      | array_begin =>
          endl ;; token array_begin_data ;; jump array_n_state ;; push array_1_state
      | string_value => endl ;; string data ;; jump array_n_state
      | integer_value => endl ;; token data ;; jump array_n_state
      | real_value => endl ;; token data ;; jump array_n_state
      | null_value => endl ;; token null_data ;; jump array_n_state
      | true_value => endl ;; token true_data ;; jump array_n_state
      | false_value => endl ;; token false_data ;; jump array_n_state
      | _ => throw (exception "array end of value expected")
      end
  | array_n_state :: _ =>
      match i with
      | array_end => pop ;; endl ;; token array_end_data
      | object_begin =>
          token comma_data ;; endl ;; token object_begin_data ;; push object_1_state
      | array_begin =>
          token comma_data ;; endl ;; token array_begin_data ;; push array_1_state
      | string_value => token comma_data ;; endl ;; string data
      | integer_value => token comma_data ;; endl ;; token data
      | real_value => token comma_data ;; endl ;; token data
      | null_value => token comma_data ;; endl ;; token null_data
      | true_value => token comma_data ;; endl ;; token true_data
      | false_value => token comma_data ;; endl ;; token false_data
      | _ => throw (exception "array end of value expected")
      end
  end.

(** Replaying a stream of items with their payloads, in order. *)
Fixpoint replay (items : list (item * string_type)) : M world unit :=
  match items with
  | [] => ret tt
  | (i, data) :: rest => write i data ;; replay rest
  end.

End basic_writer.

(** ** The reader with the recording callback, and the reader driving a writer *)

Definition payload (e : basic_reader.event) : item * string_type :=
  let '(i, data, _, _) := e in (i, data).

Definition read_events (range : list ascii)
  : M (basic_reader.world (list basic_reader.event)) unit :=
  basic_reader.for_each _ basic_reader.record_event range.

(** The callback of main.cpp: every item and payload is written at once. *)
Definition forward (i : item) (data : string_type) (row column : Z)
  : M basic_writer.world unit :=
  basic_writer.write i data.

Definition read_write (range : list ascii)
  : M (basic_reader.world basic_writer.world) unit :=
  basic_reader.for_each _ forward range.

(** ** Sample inputs *)

Definition text (s : string) : list ascii := list_ascii_of_string s.

Definition quoted (s : string) : list ascii :=
  dquote :: text s ++ [dquote].

(** The 23 characters of the scenario, an object with the keys x and y. *)
Definition sample : list ascii :=
  text "{" ++ quoted "x" ++ text ":1," ++ quoted "y" ++ text ":[true,null]}".

(** What the writer makes of it at indent width 0: [colon_data] is a colon
    and a space. *)
Definition sample_compact : list ascii :=
  text "{" ++ quoted "x" ++ text ": 1," ++ quoted "y" ++ text ": [true,null]}".

(** An object whose only key has no value, and an object cut off after
    its first key. *)
Definition missing_value : list ascii := text "{" ++ quoted "a" ++ text ":}".
Definition truncated : list ascii := text "{" ++ quoted "a".

Definition fresh : basic_reader.world (list basic_reader.event) :=
  (basic_reader.init, []).

Definition compact : basic_writer.writer :=
  basic_writer.indent 0 basic_writer.init.

Definition events_of {A} (run : result A * basic_reader.world (list basic_reader.event))
  : list (item * string_type) :=
  map payload (snd (snd run)).

(** The cursor as the specification describes it: both coordinates start
    at 1; a newline moves to column 1 of the next row, any other character
    to the next column. *)
Definition advance (pos : Z * Z) (c : ascii) : Z * Z :=
  if Ascii.eqb c newline then (fst pos + 1, 1) else (fst pos, snd pos + 1).

Definition cursor_after (cs : list ascii) : Z * Z :=
  fold_left advance cs (1, 1).

(** ** Notions used in the statements and proofs *)

(** Whatever the outcome, the final state is [P]-related to the initial one. *)
Definition preserves {St : Type} (P : St -> St -> Prop) {A} (m : M St A) : Prop :=
  forall s res s', m s = (res, s') -> P s s'.

(** A computation that never runs out of fuel. *)
Definition total {St A} (m : M St A) : Prop :=
  forall s, fst (m s) <> OutOfFuel.

Definition cursor (r : basic_reader.reader) : Z * Z :=
  (basic_reader.m_row r, basic_reader.m_column r).

Definition same_cursor {Env : Type} (w w' : basic_reader.world Env) : Prop :=
  cursor (fst w') = cursor (fst w).

Definition in_number (st : basic_reader.char_state) : bool :=
  match st with
  | basic_reader.integer_1_state | basic_reader.integer_n_state
  | basic_reader.integer_z_state | basic_reader.fractional_1_state
  | basic_reader.fractional_n_state | basic_reader.exponent_state
  | basic_reader.exponent_1_state | basic_reader.exponent_n_state => true
  | _ => false
  end.


(** *** The lexer's number automaton, read off [scan] *)

(** The state entered by the first character of a number. *)
Definition number_start (c : ascii) : option basic_reader.char_state :=
  if Ascii.eqb c "-" then Some basic_reader.integer_1_state
  else if isdigit c then
    Some (if Ascii.eqb c "0" then basic_reader.integer_z_state
          else basic_reader.integer_n_state)
  else None.

(** The state entered by a character that continues a number. *)
Definition number_step (st : basic_reader.char_state) (c : ascii)
  : option basic_reader.char_state :=
  match st with
  | basic_reader.integer_1_state =>
      if isdigit c then
        Some (if Ascii.eqb c "0" then basic_reader.integer_z_state
              else basic_reader.integer_n_state)
      else None
  | basic_reader.integer_n_state =>
      if isdigit c then Some basic_reader.integer_n_state
      else if Ascii.eqb c "." then Some basic_reader.fractional_1_state
      else if Ascii.eqb c "e" || Ascii.eqb c "E" then Some basic_reader.exponent_state
      else None
  | basic_reader.integer_z_state =>
      if Ascii.eqb c "." then Some basic_reader.fractional_1_state
      else if Ascii.eqb c "e" || Ascii.eqb c "E" then Some basic_reader.exponent_state
      else None
  | basic_reader.fractional_1_state =>
      if isdigit c then Some basic_reader.fractional_n_state else None
  | basic_reader.fractional_n_state =>
      if isdigit c then Some basic_reader.fractional_n_state
      else if Ascii.eqb c "e" || Ascii.eqb c "E" then Some basic_reader.exponent_state
      else None
  | basic_reader.exponent_state =>
      if isdigit c then Some basic_reader.exponent_n_state
      else if Ascii.eqb c "-" || Ascii.eqb c "+" then Some basic_reader.exponent_1_state
      else None
  | basic_reader.exponent_1_state =>
      if isdigit c then Some basic_reader.exponent_n_state else None
  | basic_reader.exponent_n_state =>
      if isdigit c then Some basic_reader.exponent_n_state else None
  | _ => None
  end.

Fixpoint number_run (st : basic_reader.char_state) (p : list ascii)
  : option basic_reader.char_state :=
  match p with
  | [] => Some st
  | c :: p' =>
      match number_step st c with
      | Some st' => number_run st' p'
      | None => None
      end
  end.

(** The lexer state in which the text [p], read from [default_state] as the
    beginning of a number, leaves the reader. *)
Definition lexes (p : list ascii) : option basic_reader.char_state :=
  match p with
  | [] => None
  | c :: p' =>
      match number_start c with
      | Some st => number_run st p'
      | None => None
      end
  end.

(** The states in which [scan] hands over an integer, respectively a real. *)
Definition integer_text (p : list ascii) : Prop :=
  lexes p = Some basic_reader.integer_n_state \/
  lexes p = Some basic_reader.integer_z_state.

Definition real_text (p : list ascii) : Prop :=
  lexes p = Some basic_reader.fractional_n_state \/
  lexes p = Some basic_reader.exponent_n_state.

(** What the literal buffer holds in each lexer state. *)
Definition buffer_ok (r : basic_reader.reader) : Prop :=
  match basic_reader.m_char_state r with
  | basic_reader.string_state | basic_reader.escape_state
  | basic_reader.unicode_1_state | basic_reader.unicode_2_state
  | basic_reader.unicode_3_state | basic_reader.unicode_4_state => True
  | basic_reader.integer_1_state | basic_reader.integer_n_state
  | basic_reader.integer_z_state | basic_reader.fractional_1_state
  | basic_reader.fractional_n_state | basic_reader.exponent_state
  | basic_reader.exponent_1_state | basic_reader.exponent_n_state =>
      lexes (basic_reader.m_data r) = Some (basic_reader.m_char_state r)
  | _ => basic_reader.m_data r = []
  end.

(** What the literal buffer holds when [token] is called. *)
Definition token_data_ok (t : basic_reader.token_t) (data : string_type) : Prop :=
  match t with
  | basic_reader.string_token => True
  | basic_reader.integer_token => integer_text data
  | basic_reader.real_token => real_text data
  | _ => data = []
  end.

(** The payload an item can carry. *)
Definition valid_event (e : item * string_type) : Prop :=
  match fst e with
  | key | string_value => True
  | integer_value => integer_text (snd e)
  | real_value => real_text (snd e)
  | _ => snd e = []
  end.

(** The invariant of the lexer: the literal buffer fits the lexer state,
    and a property [G] of the context stack and of what the callback has
    seen holds. *)
Definition lexer_inv {Env : Type} (G : list basic_reader.token_state -> Env -> Prop)
  (w : basic_reader.world Env) : Prop :=
  buffer_ok (fst w) /\ G (basic_reader.m_token_state (fst w)) (snd w).

(** *** Nesting of the delivered items *)

Inductive bracket : Type := brace | square.

Definition kind_of (s : basic_reader.token_state) : bracket :=
  match s with
  | basic_reader.object_1_state | basic_reader.object_2_state
  | basic_reader.object_3_state | basic_reader.object_v_state
  | basic_reader.object_n_state => brace
  | _ => square
  end.

(** Reading a stream of items against the containers that are open (the
    innermost first): a begin opens one, an end must close the innermost
    one and be of its kind. *)
Fixpoint matching (open : list bracket) (items : list item) : option (list bracket) :=
  match items with
  | [] => Some open
  | object_begin :: rest => matching (brace :: open) rest
  | array_begin :: rest => matching (square :: open) rest
  | object_end :: rest =>
      match open with
      | brace :: outer => matching outer rest
      | _ => None
      end
  | array_end :: rest =>
      match open with
      | square :: outer => matching outer rest
      | _ => None
      end
  | _ :: rest => matching open rest
  end.

Definition item_of (e : basic_reader.event) : item := fst (payload e).

Definition is_end (i : item) : bool :=
  match i with object_end | array_end => true | _ => false end.

(** By how much an item changes the nesting depth. *)
Definition depth_change (i : item) : Z :=
  match i with
  | object_begin | array_begin => 1
  | object_end | array_end => -1
  | _ => 0
  end.

Definition depth (items : list item) : Z :=
  fold_right (fun i d => depth_change i + d) 0 items.

Definition balanced (stk : list basic_reader.token_state)
  (log : list basic_reader.event) : Prop :=
  matching [] (map item_of log) = Some (map kind_of stk).

(** The record is empty or its last item is an end. *)
Definition closed_record (log : list basic_reader.event) : Prop :=
  log = [] \/ exists log0 e, log = log0 ++ [e] /\ is_end (item_of e) = true.

Definition balance_inv (stk : list basic_reader.token_state)
  (log : list basic_reader.event) : Prop :=
  balanced stk log /\ (stk = [] -> closed_record log).

(** The reader after [move]. *)
Definition moved (c : ascii) (r : basic_reader.reader) : basic_reader.reader :=
  if Ascii.eqb c newline
  then basic_reader.set_position (size_incr (basic_reader.m_row r)) 1 r
  else basic_reader.set_position (basic_reader.m_row r)
         (size_incr (basic_reader.m_column r)) r.

(** *** Escapes *)

(** The value of a hexadecimal digit. *)
Definition hex_value (c : ascii) : Z :=
  if isdigit c then code c - 48
  else if (97 <=? code c) && (code c <=? 102) then code c - 97 + 10
  else if (65 <=? code c) && (code c <=? 70) then code c - 65 + 10
  else 0.

(** The number written by four hexadecimal digits. *)
Definition code_point (h1 h2 h3 h4 : ascii) : Z :=
  4096 * hex_value h1 + 256 * hex_value h2 + 16 * hex_value h3 + hex_value h4.

(** The six characters of a Unicode escape. *)
Definition escape_u (h1 h2 h3 h4 : ascii) : list ascii :=
  [backslash; "u"%char; h1; h2; h3; h4].

(** UTF-8 as the specification states it: one byte below 0x80, two bytes
    below 0x800, three bytes otherwise. *)
Definition utf8 (v : Z) : list ascii :=
  if v <? 128 then [char_type v]
  else if v <? 2048 then
    [char_type (192 + v / 64); char_type (128 + v mod 64)]
  else
    [char_type (224 + v / 4096); char_type (128 + (v / 64) mod 64);
     char_type (128 + v mod 64)].

Definition continuation (b : Z) : bool := (128 <=? b) && (b <? 192).

(** The standard decoding of one code point from a UTF-8 sequence of up to
    three bytes (RFC 3629): overlong forms and surrogates are rejected. *)
Definition utf8_decode (bytes : list ascii) : option Z :=
  match map code bytes with
  | [b0] => if b0 <? 128 then Some b0 else None
  | [b0; b1] =>
      if (192 <=? b0) && (b0 <? 224) && continuation b1 then
        let v := (b0 - 192) * 64 + (b1 - 128) in
        if 128 <=? v then Some v else None
      else None
  | [b0; b1; b2] =>
      if (224 <=? b0) && (b0 <? 240) && continuation b1 && continuation b2 then
        let v := (b0 - 224) * 4096 + (b1 - 128) * 64 + (b2 - 128) in
        if (2048 <=? v) && negb ((55296 <=? v) && (v <=? 57343)) then Some v else None
      else None
  | _ => None
  end.

(** The characters the writer's [encode] sends out for one character. *)
Definition escape_chars (c : ascii) : list ascii :=
  snd (snd (basic_writer.encode c (basic_writer.init, []))).

Definition escaped (data : string_type) : list ascii :=
  flat_map escape_chars data.

(** The eight characters with a two-character escape, each with the letter
    of its escape. *)
Definition escapes : list (ascii * ascii) :=
  [(dquote, dquote); (backslash, backslash); (slash, "/"%char);
   (backspace, "b"%char); (formfeed, "f"%char); (newline, "n"%char);
   (carriage_return, "r"%char); (tab, "t"%char)].

(** A reader inside a string, and what it has taken after an input. *)
Definition in_string (data : string_type) : basic_reader.world (list basic_reader.event) :=
  (basic_reader.mk_reader [basic_reader.object_v_state] basic_reader.string_state
     data 1 1 0, []).

Definition taken {A} (run : result A * basic_reader.world (list basic_reader.event))
  : string_type :=
  basic_reader.m_data (fst (snd run)).

(** *** Reading without regard to the cursor *)

(** Reading [cs] takes the reader from [r] to [r'], wherever the cursor is,
    without calling the callback. *)
Definition silent {Env : Type} (m_callback : item -> string_type -> Z -> Z -> M Env unit)
  (cs : list ascii) (r r' : basic_reader.reader) : Prop :=
  forall row col env,
  exists row' col',
    basic_reader.for_each Env m_callback cs (basic_reader.set_position row col r, env) =
      (Return tt, (basic_reader.set_position row' col' r', env)).

(** Reading [cs] takes the recording reader from [r] to [r'], wherever the
    cursor is, and records the items [evs]. *)
Definition records (cs : list ascii) (r : basic_reader.reader)
  (evs : list (item * string_type)) (r' : basic_reader.reader) : Prop :=
  forall row col log,
  exists row' col' log',
    read_events cs (basic_reader.set_position row col r, log) =
      (Return tt, (basic_reader.set_position row' col' r', log')) /\
    map payload log' = map payload log ++ evs.

(** *** The writer as a transition function *)

(** The characters of [endl] for a writer of indent width [indent] whose
    stack has [depth] elements. *)
Definition endl_chars (indent : Z) (depth : nat) : list ascii :=
  if negb (indent =? 0)
  then newline :: List.repeat space (Z.to_nat (size_mul (Z.of_nat depth) indent))
  else [].

(** The characters of [string]. *)
Definition quote (data : string_type) : list ascii :=
  dquote :: escaped data ++ [dquote].

(** The text written for an item in a value position. *)
Definition value_text (i : item) (data : string_type) : option (list ascii) :=
  match i with
  | object_begin => Some basic_writer.object_begin_data
  | array_begin => Some basic_writer.array_begin_data
  | string_value => Some (quote data)
  | integer_value | real_value => Some data
  | null_value => Some basic_writer.null_data
  | true_value => Some basic_writer.true_data
  | false_value => Some basic_writer.false_data
  | _ => None
  end.

(** The context a container pushes. *)
Definition opened (i : item) : list basic_writer.token_state :=
  match i with
  | object_begin => [basic_writer.object_1_state]
  | array_begin => [basic_writer.array_1_state]
  | _ => []
  end.

(** The stack of the writer after an item, if the item is legal, and the
    characters written for it. *)
Definition writer_next (indent : Z) (st : list basic_writer.token_state)
  (i : item) (data : string_type)
  : option (list basic_writer.token_state * list ascii) :=
  match st with
  | [] =>
      match i with
      | object_begin | array_begin =>
          option_map (fun text => (opened i, text)) (value_text i data)
      | _ => None
      end
  | basic_writer.object_1_state :: rest =>
      match i with
      | object_end => Some (rest, basic_writer.object_end_data)
      | key =>
          Some (basic_writer.object_v_state :: rest,
                endl_chars indent (List.length st) ++ quote data ++ basic_writer.colon_data)
      | _ => None
      end
  | basic_writer.object_v_state :: rest =>
      option_map (fun text => (opened i ++ basic_writer.object_n_state :: rest, text))
        (value_text i data)
  | basic_writer.object_n_state :: rest =>
      match i with
      | object_end =>
          Some (rest, endl_chars indent (List.length rest) ++ basic_writer.object_end_data)
      | key =>
          Some (basic_writer.object_v_state :: rest,
                basic_writer.comma_data ++ endl_chars indent (List.length st) ++
                quote data ++ basic_writer.colon_data)
      | _ => None
      end
  | basic_writer.array_1_state :: rest =>
      match i with
      | array_end => Some (rest, basic_writer.array_end_data)
      | _ =>
          option_map
            (fun text => (opened i ++ basic_writer.array_n_state :: rest,
                          endl_chars indent (List.length st) ++ text))
            (value_text i data)
      end
  | basic_writer.array_n_state :: rest =>
      match i with
      | array_end =>
          Some (rest, endl_chars indent (List.length rest) ++ basic_writer.array_end_data)
      | _ =>
          option_map
            (fun text => (opened i ++ basic_writer.array_n_state :: rest,
                          basic_writer.comma_data ++
                          endl_chars indent (List.length st) ++ text))
            (value_text i data)
      end
  end.

(** *** Reader and writer side by side *)

(** The writer context that stands for a reader context: the writer has no
    context for "colon expected" and none for "after a comma". *)
Definition writer_context (s : basic_reader.token_state) : basic_writer.token_state :=
  match s with
  | basic_reader.object_1_state => basic_writer.object_1_state
  | basic_reader.object_2_state => basic_writer.object_n_state
  | basic_reader.object_3_state => basic_writer.object_v_state
  | basic_reader.object_v_state => basic_writer.object_v_state
  | basic_reader.object_n_state => basic_writer.object_n_state
  | basic_reader.array_1_state => basic_writer.array_1_state
  | basic_reader.array_v_state => basic_writer.array_n_state
  | basic_reader.array_n_state => basic_writer.array_n_state
  end.

(** The reader context in which the reader is once it has read what the
    writer wrote in a context. *)
Definition reader_context (s : basic_writer.token_state) : basic_reader.token_state :=
  match s with
  | basic_writer.object_1_state => basic_reader.object_1_state
  | basic_writer.object_v_state => basic_reader.object_v_state
  | basic_writer.object_n_state => basic_reader.object_n_state
  | basic_writer.array_1_state => basic_reader.array_1_state
  | basic_writer.array_n_state => basic_reader.array_n_state
  end.

(** The writer run over a stream of items: its final stack and all it
    wrote, if every item was legal. *)
Fixpoint writer_run (indent : Z) (st : list basic_writer.token_state)
  (items : list (item * string_type))
  : option (list basic_writer.token_state * list ascii) :=
  match items with
  | [] => Some (st, [])
  | (i, data) :: rest =>
      match writer_next indent st i data with
      | Some (st', text) =>
          match writer_run indent st' rest with
          | Some (st'', out) => Some (st'', text ++ out)
          | None => None
          end
      | None => None
      end
  end.

(** What the reader has delivered carries valid payloads and is legal for
    a writer, which it leaves with the stack of the reader. *)
Definition replayable (indent : Z) (stk : list basic_reader.token_state)
  (log : list basic_reader.event) : Prop :=
  Forall valid_event (map payload log) /\
  exists out,
    writer_run indent [] (map payload log) = Some (map writer_context stk, out).

(** The contexts in which the reader is while it reads a number that the
    writer has already written as a value. *)
Definition value_position (w : basic_writer.token_state) (r : basic_reader.token_state)
  : Prop :=
  (w = basic_writer.object_n_state /\ r = basic_reader.object_v_state) \/
  (w = basic_writer.array_n_state /\
   (r = basic_reader.array_1_state \/ r = basic_reader.array_v_state)).

(** The lexer states in which a number of either kind can end. *)
Definition terminal (i : item) (st : basic_reader.char_state) : Prop :=
  match i with
  | integer_value =>
      st = basic_reader.integer_n_state \/ st = basic_reader.integer_z_state
  | real_value =>
      st = basic_reader.fractional_n_state \/ st = basic_reader.exponent_n_state
  | _ => False
  end.

(** The reader [r] has read all that a writer with stack [ws] has written.
    Either it has delivered every item, or the last item is a number whose
    text it holds in the literal buffer, waiting for the character that ends
    the number. *)
Definition in_step (ws : list basic_writer.token_state) (r : basic_reader.reader)
  (pending : option (item * string_type)) : Prop :=
  match pending with
  | None =>
      basic_reader.m_char_state r = basic_reader.default_state /\
      basic_reader.m_data r = [] /\
      basic_reader.m_token_state r = map reader_context ws
  | Some (i, d) =>
      terminal i (basic_reader.m_char_state r) /\
      lexes d = Some (basic_reader.m_char_state r) /\
      basic_reader.m_data r = d /\
      exists top_w rest top_r,
        ws = top_w :: rest /\
        basic_reader.m_token_state r = top_r :: map reader_context rest /\
        value_position top_w top_r
  end.

Definition pending_items (pending : option (item * string_type))
  : list (item * string_type) :=
  match pending with
  | None => []
  | Some e => [e]
  end.

(** The characters after which a number that the writer wrote ends. *)
Definition terminator (c : ascii) : Prop :=
  c = ","%char \/ c = "}"%char \/ c = "]"%char \/ c = newline.

(** *** The JSON grammar *)

(** The grammar of RFC 8259, with the top level restricted to an object or
    an array as the reader requires, any white space of [isspace] between
    tokens, and any character but the quotation mark and the backslash
    unescaped inside strings.  Every text comes with the items it stands
    for, in document order. *)

Definition spaces (ws : list ascii) : Prop :=
  Forall (fun c => isspace c = true) ws.

Definition digits (ds : list ascii) : Prop :=
  Forall (fun c => isdigit c = true) ds.

(** int = zero / ( digit1-9 *DIGIT ) *)
Definition int_part (p : list ascii) : Prop :=
  p = ["0"%char] \/
  exists d ds, p = d :: ds /\ isdigit d = true /\ d <> "0"%char /\ digits ds.

(** frac = decimal-point 1*DIGIT *)
Definition frac_part (p : list ascii) : Prop :=
  exists d ds, p = "."%char :: d :: ds /\ digits (d :: ds).

(** exp = e [ minus / plus ] 1*DIGIT *)
Definition exp_part (p : list ascii) : Prop :=
  exists e sign d ds,
    p = e :: sign ++ d :: ds /\
    (e = "e"%char \/ e = "E"%char) /\
    (sign = [] \/ sign = ["-"%char] \/ sign = ["+"%char]) /\
    digits (d :: ds).

Definition optional (part : list ascii -> Prop) (p : list ascii) : Prop :=
  p = [] \/ part p.

Definition minus_part (p : list ascii) : Prop := p = ["-"%char].

(** number = [ minus ] int [ frac ] [ exp ]; the reader calls a number
    without fraction and exponent an integer, any other a real. *)
Definition integer_syntax (p : list ascii) : Prop :=
  exists m i, p = m ++ i /\ optional minus_part m /\ int_part i.

Definition real_syntax (p : list ascii) : Prop :=
  exists m i f e,
    p = m ++ i ++ f ++ e /\
    optional minus_part m /\ int_part i /\
    optional frac_part f /\ optional exp_part e /\
    (f <> [] \/ e <> []).

(** The inside of a string, with the characters it denotes. *)
Inductive string_body : list ascii -> string_type -> Prop :=
| body_end : string_body [] []
| body_char c s d :
    c <> dquote -> c <> backslash ->
    string_body s d -> string_body (c :: s) (c :: d)
| body_escape c e s d :
    In (c, e) escapes ->
    string_body s d -> string_body (backslash :: e :: s) (c :: d)
| body_unicode h1 h2 h3 h4 s d :
    isxdigit h1 = true -> isxdigit h2 = true ->
    isxdigit h3 = true -> isxdigit h4 = true ->
    string_body s d ->
    string_body (escape_u h1 h2 h3 h4 ++ s) (utf8 (code_point h1 h2 h3 h4) ++ d).

Definition string_text (s : list ascii) : list ascii := dquote :: s ++ [dquote].

Inductive nonterminal : Type := value_nt | container_nt | members_nt | elements_nt.

(** [derives nt t items]: the text [t] is derived from [nt] and stands for
    [items].  Members and elements include the white space before the
    bracket that closes them. *)
Inductive derives : nonterminal -> list ascii -> list (item * string_type) -> Prop :=
| derives_null : derives value_nt (text "null") [(null_value, [])]
| derives_true : derives value_nt (text "true") [(true_value, [])]
| derives_false : derives value_nt (text "false") [(false_value, [])]
| derives_integer p :
    integer_syntax p -> derives value_nt p [(integer_value, p)]
| derives_real p :
    real_syntax p -> derives value_nt p [(real_value, p)]
| derives_string s d :
    string_body s d -> derives value_nt (string_text s) [(string_value, d)]
| derives_container t items :
    derives container_nt t items -> derives value_nt t items
| derives_empty_object ws :
    spaces ws ->
    derives container_nt ("{"%char :: ws ++ ["}"%char])
      [(object_begin, []); (object_end, [])]
| derives_object ws ms items :
    spaces ws -> derives members_nt ms items ->
    derives container_nt ("{"%char :: ws ++ ms ++ ["}"%char])
      ((object_begin, []) :: items ++ [(object_end, [])])
| derives_empty_array ws :
    spaces ws ->
    derives container_nt ("["%char :: ws ++ ["]"%char])
      [(array_begin, []); (array_end, [])]
| derives_array ws es items :
    spaces ws -> derives elements_nt es items ->
    derives container_nt ("["%char :: ws ++ es ++ ["]"%char])
      ((array_begin, []) :: items ++ [(array_end, [])])
| derives_member s d ws1 ws2 v items ws3 :
    string_body s d -> spaces ws1 -> spaces ws2 ->
    derives value_nt v items -> spaces ws3 ->
    derives members_nt (string_text s ++ ws1 ++ ":"%char :: ws2 ++ v ++ ws3)
      ((key, d) :: items)
| derives_members s d ws1 ws2 v items ws3 ws4 ms items' :
    string_body s d -> spaces ws1 -> spaces ws2 ->
    derives value_nt v items -> spaces ws3 -> spaces ws4 ->
    derives members_nt ms items' ->
    derives members_nt
      (string_text s ++ ws1 ++ ":"%char :: ws2 ++ v ++ ws3 ++ ","%char :: ws4 ++ ms)
      ((key, d) :: items ++ items')
| derives_element v items ws :
    derives value_nt v items -> spaces ws ->
    derives elements_nt (v ++ ws) items
| derives_elements v items ws1 ws2 es items' :
    derives value_nt v items -> spaces ws1 -> spaces ws2 ->
    derives elements_nt es items' ->
    derives elements_nt (v ++ ws1 ++ ","%char :: ws2 ++ es) (items ++ items').

(** A document: an object or an array, with white space around it. *)
Inductive document : list ascii -> list (item * string_type) -> Prop :=
| document_container ws1 body items ws2 :
    spaces ws1 -> derives container_nt body items -> spaces ws2 ->
    document (ws1 ++ body ++ ws2) items.

(** The characters that can follow a value. *)
Definition delimiter (c : ascii) : Prop :=
  isspace c = true \/ c = ","%char \/ c = "}"%char \/ c = "]"%char.

(** Between two tokens, with the context stack [stk], the recording reader
    reads [cs] without error, delivers [items], and is between two tokens
    again, with the context stack [stk']. *)
Definition parses (cs : list ascii) (stk : list basic_reader.token_state)
  (items : list (item * string_type)) (stk' : list basic_reader.token_state) : Prop :=
  forall row col u,
  exists r',
    records cs
      (basic_reader.mk_reader stk basic_reader.default_state [] row col u) items r' /\
    basic_reader.m_token_state r' = stk' /\
    basic_reader.m_char_state r' = basic_reader.default_state /\
    basic_reader.m_data r' = [].

(** Where a container can stand: in a value position, or outside every
    container. *)
Definition container_slot (stk stk' : list basic_reader.token_state) : Prop :=
  (stk = [] /\ stk' = []) \/
  exists top_w top_r rest,
    value_position top_w top_r /\
    stk = top_r :: rest /\ stk' = reader_context top_w :: rest.

(** What the grammar promises of a text derived from a nonterminal: a
    scalar value is read in a value position and leaves the context "after
    a value", provided a delimiter follows; a container is read wherever a
    container can stand; members are read up to the closing brace, elements
    up to the closing bracket. *)
Definition reads_as (nt : nonterminal) (t : list ascii)
  (items : list (item * string_type)) : Prop :=
  match nt with
  | value_nt =>
      forall top_w top_r rest c k items_k stk',
        value_position top_w top_r ->
        delimiter c ->
        parses (c :: k) (reader_context top_w :: rest) items_k stk' ->
        parses (t ++ c :: k) (top_r :: rest) (items ++ items_k) stk'
  | container_nt =>
      forall stk stk', container_slot stk stk' -> parses t stk items stk'
  | members_nt =>
      forall top rest,
        top = basic_reader.object_1_state \/ top = basic_reader.object_2_state ->
        parses (t ++ ["}"%char]) (top :: rest) (items ++ [(object_end, [])]) rest
  | elements_nt =>
      forall top rest,
        top = basic_reader.array_1_state \/ top = basic_reader.array_v_state ->
        parses (t ++ ["]"%char]) (top :: rest) (items ++ [(array_end, [])]) rest
  end.
(** ** The parser and the exceptions of the reader *)

(** What a call of [token] does, read off its [switch]: it throws one of
    the grammar errors, or changes the context stack without calling the
    callback, or calls the callback for an item.  [mid] is the stack at the
    moment of the call (the value contexts [jump] before they test the
    token), [stk'] the stack once [token] has returned. *)
Inductive token_effect : Type :=
| raises (mid : list basic_reader.token_state) (what : string)
| moves (stk' : list basic_reader.token_state)
| delivers (i : item) (mid stk' : list basic_reader.token_state).

Definition value_step (t : basic_reader.token_t) (mid : list basic_reader.token_state)
  (what : string) : token_effect :=
  match t with
  | basic_reader.object_begin_token =>
      delivers object_begin mid (basic_reader.object_1_state :: mid)
  | basic_reader.array_begin_token =>
      delivers array_begin mid (basic_reader.array_1_state :: mid)
  | basic_reader.string_token => delivers string_value mid mid
  | basic_reader.integer_token => delivers integer_value mid mid
  | basic_reader.real_token => delivers real_value mid mid
  | basic_reader.null_token => delivers null_value mid mid
  | basic_reader.true_token => delivers true_value mid mid
  | basic_reader.false_token => delivers false_value mid mid
  | _ => raises mid what
  end.

Definition token_step (stk : list basic_reader.token_state) (t : basic_reader.token_t)
  : token_effect :=
  match stk with
  | [] =>
      match t with
      | basic_reader.object_begin_token =>
          delivers object_begin [] [basic_reader.object_1_state]
      | basic_reader.array_begin_token =>
          delivers array_begin [] [basic_reader.array_1_state]
      | _ => raises [] basic_reader.begin_expected
      end
  | top :: rest =>
      let case_object_2 :=
        match t with
        | basic_reader.string_token =>
            delivers key stk (basic_reader.object_3_state :: rest)
        | _ => raises stk basic_reader.key_or_end_expected
        end in
      let case_array_v :=
        value_step t (basic_reader.array_n_state :: rest)
          basic_reader.value_or_array_end_expected in
      match top with
      | basic_reader.object_1_state =>
          match t with
          | basic_reader.object_end_token => delivers object_end stk rest
          | _ => case_object_2
          end
      | basic_reader.object_2_state => case_object_2
      | basic_reader.object_3_state =>
          match t with
          | basic_reader.colon_token => moves (basic_reader.object_v_state :: rest)
          | _ => raises stk basic_reader.colon_expected
          end
      | basic_reader.object_v_state =>
          value_step t (basic_reader.object_n_state :: rest) basic_reader.value_expected
      | basic_reader.object_n_state =>
          match t with
          | basic_reader.object_end_token => delivers object_end stk rest
          | basic_reader.comma_token => moves (basic_reader.object_2_state :: rest)
          | _ => raises stk basic_reader.object_end_or_comma_expected
          end
      | basic_reader.array_1_state =>
          match t with
          | basic_reader.array_end_token => delivers array_end stk rest
          | _ => case_array_v
          end
      | basic_reader.array_v_state => case_array_v
      | basic_reader.array_n_state =>
          match t with
          | basic_reader.array_end_token => delivers array_end stk rest
          | basic_reader.comma_token => moves (basic_reader.array_v_state :: rest)
          | _ => raises stk basic_reader.array_end_or_comma_expected
          end
      end
  end.

(** Whenever the computation throws, the exception and the state it leaves
    satisfy [Q]. *)
Definition throws {St A : Type} (Q : exn -> St -> Prop) (m : M St A) : Prop :=
  forall s e s', m s = (Throw e, s') -> Q e s'.

(** The messages of the exceptions that the reader throws. *)
Definition reader_messages : list string :=
  ["unexpected character"%string; basic_reader.begin_expected;
   basic_reader.key_or_end_expected; basic_reader.colon_expected;
   basic_reader.value_expected; basic_reader.object_end_or_comma_expected;
   basic_reader.value_or_array_end_expected;
   basic_reader.array_end_or_comma_expected].

(** An exception of the reader's own: a [json::exception] with one of its
    messages and the cursor of the reader. *)
Definition reader_error (e : exn) (r : basic_reader.reader) : Prop :=
  exists what,
    In what reader_messages /\
    e = json_exception what (basic_reader.m_row r) (basic_reader.m_column r).

(** An exception that a call of the callback throws. *)
Definition callback_error {Env : Type}
  (m_callback : item -> string_type -> Z -> Z -> M Env unit) (e : exn) : Prop :=
  exists i data row column env, fst (m_callback i data row column env) = Throw e.

(** Where the callback was told an item is. *)
Definition position (e : basic_reader.event) : Z * Z :=
  let '(_, _, row, column) := e in (row, column).

(** ** The texts of numbers *)

(** The texts that take the lexer from [default_state] into each of the
    states of a number, in the terms of the grammar. *)
Definition number_prefix (st : basic_reader.char_state) (p : list ascii) : Prop :=
  match st with
  | basic_reader.integer_1_state => p = ["-"%char]
  | basic_reader.integer_z_state =>
      exists m, optional minus_part m /\ p = m ++ ["0"%char]
  | basic_reader.integer_n_state =>
      exists m d ds,
        optional minus_part m /\ p = m ++ d :: ds /\
        isdigit d = true /\ d <> "0"%char /\ digits ds
  | basic_reader.fractional_1_state =>
      exists m i, optional minus_part m /\ int_part i /\ p = m ++ i ++ ["."%char]
  | basic_reader.fractional_n_state =>
      exists m i f,
        optional minus_part m /\ int_part i /\ frac_part f /\ p = m ++ i ++ f
  | basic_reader.exponent_state =>
      exists m i f e,
        optional minus_part m /\ int_part i /\ optional frac_part f /\
        (e = "e"%char \/ e = "E"%char) /\ p = m ++ i ++ f ++ [e]
  | basic_reader.exponent_1_state =>
      exists m i f e sign,
        optional minus_part m /\ int_part i /\ optional frac_part f /\
        (e = "e"%char \/ e = "E"%char) /\ (sign = "-"%char \/ sign = "+"%char) /\
        p = m ++ i ++ f ++ [e; sign]
  | basic_reader.exponent_n_state =>
      exists m i f x,
        optional minus_part m /\ int_part i /\ optional frac_part f /\
        exp_part x /\ p = m ++ i ++ f ++ x
  | _ => False
  end.

(** The payload of an item, in the terms of the grammar: a number of the
    grammar for the two kinds of numbers, nothing for the literals and the
    brackets. *)
Definition payload_syntax (e : item * string_type) : Prop :=
  match fst e with
  | key | string_value => True
  | integer_value => integer_syntax (snd e)
  | real_value => real_syntax (snd e)
  | _ => snd e = []
  end.

(** ** Two callbacks side by side *)

Section Simulation.
Variables Env1 Env2 : Type.
(** [E] relates what the two callbacks have done so far; [S] relates it to
    the context stack of the reader whenever the reader is not in the
    middle of a call of [token]. *)
Variable E : Env1 -> Env2 -> Prop.
Variable S : list basic_reader.token_state -> Env1 -> Env2 -> Prop.

Definition related (w1 : basic_reader.world Env1) (w2 : basic_reader.world Env2) : Prop :=
  fst w1 = fst w2 /\
  E (snd w1) (snd w2) /\
  S (basic_reader.m_token_state (fst w1)) (snd w1) (snd w2).

(** The two computations end alike and leave the reader in the same
    state. *)
Definition simulates {A : Type} (m1 : M (basic_reader.world Env1) A)
  (m2 : M (basic_reader.world Env2) A) : Prop :=
  forall w1 w2,
    related w1 w2 ->
    fst (m1 w1) = fst (m2 w2) /\
    fst (snd (m1 w1)) = fst (snd (m2 w2)) /\
    E (snd (snd (m1 w1))) (snd (snd (m2 w2))) /\
    (forall a, fst (m1 w1) = Return a ->
               S (basic_reader.m_token_state (fst (snd (m1 w1))))
                 (snd (snd (m1 w1))) (snd (snd (m2 w2)))).
End Simulation.

(** ** Further notions about the writer *)

(** The kind of container a context of the writer is in. *)
Definition writer_kind (s : basic_writer.token_state) : bracket :=
  match s with
  | basic_writer.object_1_state | basic_writer.object_v_state
  | basic_writer.object_n_state => brace
  | _ => square
  end.

(** The characters of which the numbers are made. *)
Definition number_char (c : ascii) : bool :=
  isdigit c || Ascii.eqb c "-" || Ascii.eqb c "+" || Ascii.eqb c "."
  || Ascii.eqb c "e" || Ascii.eqb c "E".

(** ** main.cpp *)

(** The characters that [std::istream_iterator<char>] takes from the file.
    It reads with [operator>>], and a stream skips white space before
    every formatted input unless told otherwise: the white-space characters
    of the file, wherever they stand, are never handed over.  A file that
    cannot be opened gives the empty range. *)
Definition istream_range (file : option (list ascii)) : list ascii :=
  match file with
  | Some contents => filter (fun c => negb (isspace c)) contents
  | None => []
  end.

(** [operator<<] for a [std::size_t]. *)
Definition decimal (n : Z) : list ascii :=
  list_ascii_of_string (NilZero.string_of_uint (N.to_uint (Z.to_N n))).

(** What the handler of [main] sends to [std::cerr]. *)
Definition report (what : string) (row column : Z) : list ascii :=
  list_ascii_of_string what ++ text " at " ++ decimal row ++ text ":" ++
  decimal column ++ [newline].

(** How a run of the program ends: [main] returns, with what was sent to
    [std::cout] and to [std::cerr]; or an exception that is no
    [json::exception] leaves [main]. *)
Inductive outcome : Type :=
| returned (status : Z) (cout cerr : list ascii)
| terminated (cout : list ascii)
| unfinished.

(** [main], given the contents of sample.json, if there is such a file. *)
Definition main (sample_json : option (list ascii)) : outcome :=
  let writer := basic_writer.init in
  let run :=
    basic_reader.read _ forward (istream_range sample_json)
      (basic_reader.init, (writer, [])) in
  let cout := snd (snd (snd run)) in
  match fst run with
  | Return _ => returned 0 cout []
  | Throw (json_exception what row column) => returned 0 cout (report what row column)
  | Throw bad_exception => terminated cout
  | OutOfFuel => unfinished
  end.

(** ** The lexer as a transition function *)

(** What a call of [scan] does, read off its [switch]: it goes to a lexer
    state, perhaps with a longer literal buffer or another accumulator; or
    it calls [token] and then either consumes the character ([next]) or
    asks for it again ([repeat]); or it throws "unexpected character". *)
Inductive lexer_effect : Type :=
| goes (st' : basic_reader.char_state) (data' : string_type) (u' : Z)
| emits (t : basic_reader.token_t) (consumed : bool)
| fails.

(** The accumulator after one more hexadecimal digit. *)
Definition shifted (u : Z) (h : ascii) : Z :=
  uint16 (Z.lor (Z.shiftl u 4) (hex_value h)).

Definition scan_step (st : basic_reader.char_state) (data : string_type) (u : Z)
  (c : ascii) : lexer_effect :=
  let first_digit :=
    goes (if Ascii.eqb c "0" then basic_reader.integer_z_state
          else basic_reader.integer_n_state) (data ++ [c]) u in
  let case_integer_z :=
    if Ascii.eqb c "." then goes basic_reader.fractional_1_state (data ++ [c]) u
    else if Ascii.eqb c "e" || Ascii.eqb c "E" then
      goes basic_reader.exponent_state (data ++ [c]) u
    else emits basic_reader.integer_token false in
  match st with
  | basic_reader.default_state =>
      if isspace c then goes basic_reader.default_state data u
      else if Ascii.eqb c "{" then emits basic_reader.object_begin_token true
      else if Ascii.eqb c "}" then emits basic_reader.object_end_token true
      else if Ascii.eqb c "[" then emits basic_reader.array_begin_token true
      else if Ascii.eqb c "]" then emits basic_reader.array_end_token true
      else if Ascii.eqb c ":" then emits basic_reader.colon_token true
      else if Ascii.eqb c "," then emits basic_reader.comma_token true
      else if Ascii.eqb c dquote then goes basic_reader.string_state data u
      else if Ascii.eqb c "-" then goes basic_reader.integer_1_state (data ++ [c]) u
      else if Ascii.eqb c "n" then goes basic_reader.null_1_state data u
      else if Ascii.eqb c "t" then goes basic_reader.true_1_state data u
      else if Ascii.eqb c "f" then goes basic_reader.false_1_state data u
      else if isdigit c then first_digit
      else fails
  | basic_reader.string_state =>
      if Ascii.eqb c dquote then emits basic_reader.string_token true
      else if Ascii.eqb c backslash then goes basic_reader.escape_state data u
      else goes basic_reader.string_state (data ++ [c]) u
  | basic_reader.escape_state =>
      if Ascii.eqb c dquote then goes basic_reader.string_state (data ++ [dquote]) u
      else if Ascii.eqb c backslash then
        goes basic_reader.string_state (data ++ [backslash]) u
      else if Ascii.eqb c "/" then goes basic_reader.string_state (data ++ [slash]) u
      else if Ascii.eqb c "b" then goes basic_reader.string_state (data ++ [backspace]) u
      else if Ascii.eqb c "f" then goes basic_reader.string_state (data ++ [formfeed]) u
      else if Ascii.eqb c "n" then goes basic_reader.string_state (data ++ [newline]) u
      else if Ascii.eqb c "r" then
        goes basic_reader.string_state (data ++ [carriage_return]) u
      else if Ascii.eqb c "t" then goes basic_reader.string_state (data ++ [tab]) u
      else if Ascii.eqb c "u" then goes basic_reader.unicode_1_state data u
      else fails
  | basic_reader.unicode_1_state =>
      if isxdigit c then goes basic_reader.unicode_2_state data (shifted u c) else fails
  | basic_reader.unicode_2_state =>
      if isxdigit c then goes basic_reader.unicode_3_state data (shifted u c) else fails
  | basic_reader.unicode_3_state =>
      if isxdigit c then goes basic_reader.unicode_4_state data (shifted u c) else fails
  | basic_reader.unicode_4_state =>
      if isxdigit c then
        goes basic_reader.string_state (data ++ utf8 (shifted u c)) 0
      else fails
  | basic_reader.integer_1_state => if isdigit c then first_digit else fails
  | basic_reader.integer_n_state =>
      if isdigit c then goes basic_reader.integer_n_state (data ++ [c]) u
      else case_integer_z
  | basic_reader.integer_z_state => case_integer_z
  | basic_reader.fractional_1_state =>
      if isdigit c then goes basic_reader.fractional_n_state (data ++ [c]) u else fails
  | basic_reader.fractional_n_state =>
      if isdigit c then goes basic_reader.fractional_n_state (data ++ [c]) u
      else if Ascii.eqb c "e" || Ascii.eqb c "E" then
        goes basic_reader.exponent_state (data ++ [c]) u
      else emits basic_reader.real_token false
  | basic_reader.exponent_state =>
      if isdigit c then goes basic_reader.exponent_n_state (data ++ [c]) u
      else if Ascii.eqb c "-" || Ascii.eqb c "+" then
        goes basic_reader.exponent_1_state (data ++ [c]) u
      else fails
  | basic_reader.exponent_1_state =>
      if isdigit c then goes basic_reader.exponent_n_state (data ++ [c]) u else fails
  | basic_reader.exponent_n_state =>
      if isdigit c then goes basic_reader.exponent_n_state (data ++ [c]) u
      else emits basic_reader.real_token false
  | basic_reader.null_1_state =>
      if Ascii.eqb c "u" then goes basic_reader.null_2_state data u else fails
  | basic_reader.null_2_state =>
      if Ascii.eqb c "l" then goes basic_reader.null_3_state data u else fails
  | basic_reader.null_3_state =>
      if Ascii.eqb c "l" then emits basic_reader.null_token true else fails
  | basic_reader.true_1_state =>
      if Ascii.eqb c "r" then goes basic_reader.true_2_state data u else fails
  | basic_reader.true_2_state =>
      if Ascii.eqb c "u" then goes basic_reader.true_3_state data u else fails
  | basic_reader.true_3_state =>
      if Ascii.eqb c "e" then emits basic_reader.true_token true else fails
  | basic_reader.false_1_state =>
      if Ascii.eqb c "a" then goes basic_reader.false_2_state data u else fails
  | basic_reader.false_2_state =>
      if Ascii.eqb c "l" then goes basic_reader.false_3_state data u else fails
  | basic_reader.false_3_state =>
      if Ascii.eqb c "s" then goes basic_reader.false_4_state data u else fails
  | basic_reader.false_4_state =>
      if Ascii.eqb c "e" then emits basic_reader.false_token true else fails
  end.

(** ** What the reader has read, in the terms of the grammar *)

(** A sequence of containers of the grammar with white space before,
    between and after them: what the reader takes for a sequence of
    documents. *)
Inductive documents : list ascii -> list (item * string_type) -> Prop :=
| documents_nil : documents [] []
| documents_space T items c :
    documents T items -> isspace c = true -> documents (T ++ [c]) items
| documents_container T items body items' :
    documents T items -> derives container_nt body items' ->
    documents (T ++ body) (items ++ items').

(** The members of an object that are followed by a comma, and the
    elements of an array that are. *)
Inductive members_before : list ascii -> list (item * string_type) -> Prop :=
| members_before_nil : members_before [] []
| members_before_snoc pre pit s d ws1 ws2 v vit ws3 ws4 :
    members_before pre pit ->
    string_body s d -> spaces ws1 -> spaces ws2 ->
    derives value_nt v vit -> spaces ws3 -> spaces ws4 ->
    members_before
      (pre ++ string_text s ++ ws1 ++ ":"%char :: ws2 ++ v ++ ws3 ++ ","%char :: ws4)
      (pit ++ (key, d) :: vit).

Inductive elements_before : list ascii -> list (item * string_type) -> Prop :=
| elements_before_nil : elements_before [] []
| elements_before_snoc pre pit v vit ws1 ws2 :
    elements_before pre pit ->
    derives value_nt v vit -> spaces ws1 -> spaces ws2 ->
    elements_before (pre ++ v ++ ws1 ++ ","%char :: ws2) (pit ++ vit).

(** An object read up to a point where a key can begin, and an array up to
    a point where an element can begin. *)
Definition key_position (t : list ascii) (it : list (item * string_type)) : Prop :=
  exists ws pre pit,
    spaces ws /\ members_before pre pit /\
    t = "{"%char :: ws ++ pre /\ it = (object_begin, []) :: pit.

Definition element_position (t : list ascii) (it : list (item * string_type)) : Prop :=
  exists ws pre pit,
    spaces ws /\ elements_before pre pit /\
    t = "["%char :: ws ++ pre /\ it = (array_begin, []) :: pit.

(** What has been read of the innermost open container, from its opening
    bracket on, when the reader is between two tokens with the context
    [top] on its stack, and the items that were delivered for it. *)
Definition open_text (top : basic_reader.token_state) (t : list ascii)
  (it : list (item * string_type)) : Prop :=
  match top with
  | basic_reader.object_1_state =>
      exists ws, spaces ws /\ t = "{"%char :: ws /\ it = [(object_begin, [])]
  | basic_reader.object_2_state => key_position t it
  | basic_reader.object_3_state =>
      exists t0 it0 s d ws1,
        key_position t0 it0 /\ string_body s d /\ spaces ws1 /\
        t = t0 ++ string_text s ++ ws1 /\ it = it0 ++ [(key, d)]
  | basic_reader.object_v_state =>
      exists t0 it0 s d ws1 ws2,
        key_position t0 it0 /\ string_body s d /\ spaces ws1 /\ spaces ws2 /\
        t = t0 ++ string_text s ++ ws1 ++ ":"%char :: ws2 /\ it = it0 ++ [(key, d)]
  | basic_reader.object_n_state =>
      exists t0 it0 s d ws1 ws2 v vit ws3,
        key_position t0 it0 /\ string_body s d /\ spaces ws1 /\ spaces ws2 /\
        derives value_nt v vit /\ spaces ws3 /\
        t = t0 ++ string_text s ++ ws1 ++ ":"%char :: ws2 ++ v ++ ws3 /\
        it = it0 ++ (key, d) :: vit
  | basic_reader.array_1_state =>
      exists ws, spaces ws /\ t = "["%char :: ws /\ it = [(array_begin, [])]
  | basic_reader.array_v_state => element_position t it
  | basic_reader.array_n_state =>
      exists t0 it0 v vit ws1,
        element_position t0 it0 /\ derives value_nt v vit /\ spaces ws1 /\
        t = t0 ++ v ++ ws1 /\ it = it0 ++ vit
  end.

(** The contexts that stand for a value being read: the context left
    below a container that is a value, and the context the container
    was opened in. *)
Definition value_slot (top vtop : basic_reader.token_state) : Prop :=
  (top = basic_reader.object_n_state /\ vtop = basic_reader.object_v_state) \/
  (top = basic_reader.array_n_state /\
   (vtop = basic_reader.array_1_state \/ vtop = basic_reader.array_v_state)).

(** All that has been read before a value, with the stack that is left
    below while the value is read: whole documents, and then of every open
    container what comes before the value that is being read in it. *)
Inductive context :
  list basic_reader.token_state -> list ascii -> list (item * string_type) -> Prop :=
| context_top T items : documents T items -> context [] T items
| context_value top vtop rest T items t it :
    context rest T items -> value_slot top vtop -> open_text vtop t it ->
    context (top :: rest) (T ++ t) (items ++ it).

(** All that has been read when the reader is between two tokens. *)
Definition between (stk : list basic_reader.token_state) (T : list ascii)
  (items : list (item * string_type)) : Prop :=
  match stk with
  | [] => documents T items
  | top :: rest =>
      exists T0 it0 t it,
        context rest T0 it0 /\ open_text top t it /\ T = T0 ++ t /\ items = it0 ++ it
  end.

(** The text of a token, with the payload the literal buffer holds for it. *)
Definition lexeme (t : basic_reader.token_t) (lex : list ascii) (d : string_type) : Prop :=
  match t with
  | basic_reader.object_begin_token => lex = ["{"%char] /\ d = []
  | basic_reader.object_end_token => lex = ["}"%char] /\ d = []
  | basic_reader.array_begin_token => lex = ["["%char] /\ d = []
  | basic_reader.array_end_token => lex = ["]"%char] /\ d = []
  | basic_reader.colon_token => lex = [":"%char] /\ d = []
  | basic_reader.comma_token => lex = [","%char] /\ d = []
  | basic_reader.string_token => exists s, lex = string_text s /\ string_body s d
  | basic_reader.integer_token => lex = d /\ integer_syntax d
  | basic_reader.real_token => lex = d /\ real_syntax d
  | basic_reader.null_token => lex = text "null" /\ d = []
  | basic_reader.true_token => lex = text "true" /\ d = []
  | basic_reader.false_token => lex = text "false" /\ d = []
  end.

(** The beginning of a token that the lexer is in the middle of. *)
Definition pending (st : basic_reader.char_state) (data : string_type) (u : Z)
  (lex : list ascii) : Prop :=
  match st with
  | basic_reader.default_state => lex = [] /\ data = []
  | basic_reader.string_state => exists s, lex = dquote :: s /\ string_body s data
  | basic_reader.escape_state =>
      exists s, lex = dquote :: s ++ [backslash] /\ string_body s data
  | basic_reader.unicode_1_state =>
      exists s, lex = dquote :: s ++ [backslash; "u"%char] /\ string_body s data
  | basic_reader.unicode_2_state =>
      exists s h1 u0,
        lex = dquote :: s ++ [backslash; "u"%char; h1] /\ string_body s data /\
        isxdigit h1 = true /\ u = shifted u0 h1
  | basic_reader.unicode_3_state =>
      exists s h1 h2 u0,
        lex = dquote :: s ++ [backslash; "u"%char; h1; h2] /\ string_body s data /\
        isxdigit h1 = true /\ isxdigit h2 = true /\ u = shifted (shifted u0 h1) h2
  | basic_reader.unicode_4_state =>
      exists s h1 h2 h3 u0,
        lex = dquote :: s ++ [backslash; "u"%char; h1; h2; h3] /\ string_body s data /\
        isxdigit h1 = true /\ isxdigit h2 = true /\ isxdigit h3 = true /\
        u = shifted (shifted (shifted u0 h1) h2) h3
  | basic_reader.null_1_state => lex = text "n" /\ data = []
  | basic_reader.null_2_state => lex = text "nu" /\ data = []
  | basic_reader.null_3_state => lex = text "nul" /\ data = []
  | basic_reader.true_1_state => lex = text "t" /\ data = []
  | basic_reader.true_2_state => lex = text "tr" /\ data = []
  | basic_reader.true_3_state => lex = text "tru" /\ data = []
  | basic_reader.false_1_state => lex = text "f" /\ data = []
  | basic_reader.false_2_state => lex = text "fa" /\ data = []
  | basic_reader.false_3_state => lex = text "fal" /\ data = []
  | basic_reader.false_4_state => lex = text "fals" /\ data = []
  | _ => lex = data /\ lexes data = Some st
  end.

(** The reader [r] has read [T] and delivered [items]: whole tokens that
    fit the grammar, and the beginning of one more. *)
Definition reading (T : list ascii) (items : list (item * string_type))
  (r : basic_reader.reader) : Prop :=
  exists T0 lex,
    T = T0 ++ lex /\
    between (basic_reader.m_token_state r) T0 items /\
    pending (basic_reader.m_char_state r) (basic_reader.m_data r)
      (basic_reader.m_unicode r) lex.
(** * Properties *)

(** ** Reasoning in the monad *)

Section Preservation.
Context {St : Type} (P : St -> St -> Prop).
Hypothesis P_refl : forall s, P s s.
Hypothesis P_trans : forall a b c, P a b -> P b c -> P a c.

Lemma preserves_ret {A} (a : A) : preserves P (ret a).
Proof. intros s res s' H; inversion H; subst; apply P_refl. Qed.

Lemma preserves_throw {A} e : preserves P (@throw St A e).
Proof. intros s res s' H; inversion H; subst; apply P_refl. Qed.

Lemma preserves_timeout {A} : preserves P (@timeout St A).
Proof. intros s res s' H; inversion H; subst; apply P_refl. Qed.

Lemma preserves_gets {A} (f : St -> A) : preserves P (gets f).
Proof. intros s res s' H; inversion H; subst; apply P_refl. Qed.

Lemma preserves_modify f : (forall s, P s (f s)) -> preserves P (modify f).
Proof. intros Hf s res s' H; inversion H; subst; apply Hf. Qed.

Lemma preserves_bind {A B} (m : M St A) (k : A -> M St B) :
  preserves P m -> (forall a, preserves P (k a)) -> preserves P (bind m k).
Proof.
  intros Hm Hk s res s' H. unfold bind in H.
  destruct (m s) as [[a|e|] s1] eqn:E.
  - eapply P_trans; [eapply Hm; eassumption | eapply Hk; eassumption].
  - inversion H; subst. eapply Hm; eassumption.
  - inversion H; subst. eapply Hm; eassumption.
Qed.
End Preservation.

Lemma bind_Return {St A B} (m : M St A) (k : A -> M St B) s a s1 :
  m s = (Return a, s1) -> bind m k s = k a s1.
Proof. intros H; unfold bind; rewrite H; reflexivity. Qed.

Lemma bind_Return_inv {St A B} (m : M St A) (k : A -> M St B) s b s' :
  bind m k s = (Return b, s') ->
  exists a s1, m s = (Return a, s1) /\ k a s1 = (Return b, s').
Proof.
  unfold bind; intros H. destruct (m s) as [[a|e|] s1]; try discriminate.
  exists a, s1; split; [reflexivity | assumption].
Qed.

Lemma total_ret {St A} (a : A) : total (@ret St A a).
Proof. intros s; discriminate. Qed.

Lemma total_throw {St A} e : total (@throw St A e).
Proof. intros s; discriminate. Qed.

Lemma total_gets {St A} (f : St -> A) : total (gets f).
Proof. intros s; discriminate. Qed.

Lemma total_modify {St} (f : St -> St) : total (modify f).
Proof. intros s; discriminate. Qed.

Lemma total_bind {St A B} (m : M St A) (k : A -> M St B) :
  total m -> (forall a, total (k a)) -> total (bind m k).
Proof.
  intros Hm Hk s. unfold bind. specialize (Hm s).
  destruct (m s) as [[a|e|] s1]; simpl in *; [apply Hk | discriminate | congruence].
Qed.

Ltac total_with leaf :=
  repeat first
    [ leaf
    | apply total_ret
    | apply total_throw
    | apply total_gets
    | apply total_modify
    | apply total_bind; [ | intros ? ]
    | match goal with
      | |- total (let _ := _ in _) => cbv zeta
      | |- total (if ?b then _ else _) => destruct b
      | |- total (match ?x with _ => _ end) => destruct x
      end ].

Ltac preserve_with refl trans leaf :=
  repeat first
    [ leaf
    | apply (preserves_ret _ refl)
    | apply (preserves_throw _ refl)
    | apply (preserves_timeout _ refl)
    | apply (preserves_gets _ refl)
    | apply (preserves_bind _ trans); [ | intros ? ]
    | match goal with
      | |- preserves _ (let _ := _ in _) => cbv zeta
      | |- preserves _ (if ?b then _ else _) => destruct b
      | |- preserves _ (match ?x with _ => _ end) => destruct x
      end ].

Ltac if_cases :=
  repeat match goal with
         | |- context [if ?b then _ else _] => destruct b
         end.

Ltac unfold_lexer :=
  unfold basic_reader.next, basic_reader.repeat, basic_reader.take,
    basic_reader.unexpected_character, basic_reader.raise,
    basic_reader.take_unicode, basic_reader.unicode,
    basic_reader.update, basic_reader.member, bind, modify, gets, ret, throw.

(** ** The reader: what a call of [scan] can and cannot change *)

Section ReaderFacts.
Import basic_reader.
Variable Env : Type.
Variable m_callback : item -> string_type -> Z -> Z -> M Env unit.

Local Abbreviation world := (world Env).
Local Abbreviation scan := (scan Env m_callback).
Local Abbreviation token := (token Env m_callback).
Local Abbreviation call := (call Env m_callback).
Local Abbreviation scan_loop := (scan_loop Env m_callback).
Local Abbreviation operator_call := (operator_call Env m_callback).
Local Abbreviation feed := (feed Env m_callback).
Local Abbreviation for_each := (for_each Env m_callback).

Lemma same_cursor_refl (w : world) : same_cursor w w.
Proof. reflexivity. Qed.

Lemma same_cursor_trans (a b c : world) :
  same_cursor a b -> same_cursor b c -> same_cursor a c.
Proof. unfold same_cursor; intros H1 H2; rewrite H2; exact H1. Qed.

Local Abbreviation keeps := (preserves (@same_cursor Env)).

Lemma update_keeps f :
  (forall r, cursor (f r) = cursor r) -> keeps (update Env f).
Proof. intros Hf. apply preserves_modify. intros [r env]; apply Hf. Qed.

Lemma callback_keeps m : keeps (callback Env m).
Proof.
  intros [r env] res s' H. unfold callback in H; simpl in H.
  destruct (m env) as [res0 env0]. inversion H; subst. reflexivity.
Qed.

Ltac keep_cursor leaf :=
  unfold basic_reader.next, basic_reader.repeat, basic_reader.take,
    basic_reader.push, basic_reader.jump, basic_reader.pop, basic_reader.raise,
    basic_reader.unexpected_character, basic_reader.member;
  preserve_with same_cursor_refl same_cursor_trans
    ltac:(first [ leaf
                | apply callback_keeps
                | apply update_keeps; intros []; reflexivity ]).

Lemma call_keeps i : keeps (call i).
Proof. unfold basic_reader.call. keep_cursor fail. Qed.

Lemma value_token_keeps t what : keeps (value_token Env m_callback t what).
Proof. unfold value_token. keep_cursor ltac:(apply call_keeps). Qed.

Lemma token_keeps t : keeps (token t).
Proof.
  unfold basic_reader.token.
  keep_cursor ltac:(first [apply call_keeps | apply value_token_keeps]).
Qed.

Lemma unicode_keeps c : keeps (unicode Env c).
Proof. unfold unicode. keep_cursor fail. Qed.

Lemma take_unicode_keeps : keeps (take_unicode Env).
Proof. unfold take_unicode. keep_cursor fail. Qed.

Lemma scan_keeps c : keeps (scan c).
Proof.
  unfold basic_reader.scan.
  keep_cursor
    ltac:(first [apply token_keeps | apply unicode_keeps | apply take_unicode_keeps]).
Qed.

Lemma scan_loop_keeps fuel c : keeps (scan_loop fuel c).
Proof.
  induction fuel as [|fuel IH]; simpl.
  - apply (preserves_timeout _ same_cursor_refl).
  - apply (preserves_bind _ same_cursor_trans); [apply scan_keeps|].
    intros []; [apply (preserves_ret _ same_cursor_refl)|].
    apply (preserves_bind _ same_cursor_trans); [exact IH|].
    intros n. apply (preserves_ret _ same_cursor_refl).
Qed.

(** *** The loop of [operator()] runs [scan] at most twice *)

Lemma scan_false_default c w w' :
  scan c w = (Return false, w') -> m_char_state (fst w') = default_state.
Proof.
  destruct w as [[stk st data row col u] env].
  unfold basic_reader.scan, bind at 1, basic_reader.member, gets; simpl.
  destruct st; cbv zeta; if_cases; unfold_lexer; simpl;
    repeat match goal with
           | |- context [basic_reader.token ?E ?cb ?t ?w] =>
               destruct (basic_reader.token E cb t w) as [[[]|?|] [? ?]]; simpl
           end;
    if_cases; simpl;
    intros H; inversion H; reflexivity.
Qed.

Lemma scan_default_true c w w' :
  m_char_state (fst w) = default_state -> scan c w <> (Return false, w').
Proof.
  destruct w as [[stk st data row col u] env]. simpl. intros ->.
  unfold basic_reader.scan, bind at 1, basic_reader.member, gets; simpl.
  if_cases; unfold_lexer; simpl;
    repeat match goal with
           | |- context [basic_reader.token ?E ?cb ?t ?w] =>
               destruct (basic_reader.token E cb t w) as [[[]|?|] [? ?]]; simpl
           end;
    intros H; inversion H.
Qed.

Lemma scan_loop_fuel n c w :
  scan_loop (S (S n)) c w = scan_loop 2 c w.
Proof.
  simpl. unfold bind.
  destruct (scan c w) as [[b|e|] w1] eqn:E1; try reflexivity.
  destruct b; [reflexivity|].
  apply scan_false_default in E1.
  destruct (scan c w1) as [[b|e|] w2] eqn:E2; try reflexivity.
  destruct b; [reflexivity|].
  exfalso. eapply scan_default_true; eassumption.
Qed.

Lemma operator_call_fuel n c w :
  operator_call (S (S n)) c w = feed c w.
Proof.
  unfold basic_reader.feed, basic_reader.operator_call, bind.
  rewrite scan_loop_fuel. reflexivity.
Qed.

(** With a callback that returns or throws, so does [operator()]:
    the fuel of [feed] is never exhausted. *)
Section Totality.
Hypothesis callback_total : forall i data row column, total (m_callback i data row column).

Ltac lexer_total leaf :=
  unfold basic_reader.next, basic_reader.repeat, basic_reader.take,
    basic_reader.push, basic_reader.jump, basic_reader.pop, basic_reader.raise,
    basic_reader.unexpected_character, basic_reader.member, basic_reader.update;
  total_with leaf.

Lemma call_total i : total (call i).
Proof.
  unfold basic_reader.call.
  apply total_bind; [apply total_gets|]. intros r.
  apply total_bind; [|intros _; apply total_modify].
  intros [r0 env]. unfold callback; simpl.
  specialize (callback_total i (m_data r) (m_row r) (m_column r) env).
  destruct (m_callback i (m_data r) (m_row r) (m_column r) env); exact callback_total.
Qed.

Lemma value_token_total t what : total (value_token Env m_callback t what).
Proof. unfold value_token. lexer_total ltac:(apply call_total). Qed.

Lemma token_total t : total (token t).
Proof.
  unfold basic_reader.token.
  lexer_total ltac:(first [apply call_total | apply value_token_total]).
Qed.

Lemma scan_total c : total (scan c).
Proof.
  unfold basic_reader.scan, basic_reader.take_unicode, basic_reader.unicode.
  lexer_total ltac:(apply token_total).
Qed.

Lemma feed_total c : total (feed c).
Proof.
  intros w. unfold basic_reader.feed, basic_reader.operator_call.
  apply total_bind; [|intros ?; unfold move; lexer_total ltac:(fail)].
  clear w. intros w. simpl. unfold bind.
  pose proof (scan_total c w) as H1.
  destruct (scan c w) as [[b|e|] w1] eqn:E1; simpl in *; try congruence.
  destruct b; [discriminate|].
  apply scan_false_default in E1.
  pose proof (scan_total c w1) as H2.
  destruct (scan c w1) as [[b|e|] w2] eqn:E2; simpl in *; try congruence.
  destruct b; [discriminate|].
  exfalso. eapply scan_default_true; eassumption.
Qed.

Lemma for_each_total cs : total (for_each cs).
Proof.
  induction cs as [|c cs IH]; simpl.
  - apply total_ret.
  - apply total_bind; [apply feed_total | intros _; exact IH].
Qed.
End Totality.

(** *** The cursor *)

Lemma feed_cursor c w w' :
  feed c w = (Return tt, w') ->
  cursor (fst w') =
    if Ascii.eqb c newline
    then (size_incr (m_row (fst w)), 1)
    else (m_row (fst w), size_incr (m_column (fst w))).
Proof.
  unfold basic_reader.feed, basic_reader.operator_call. intros H.
  apply bind_Return_inv in H. destruct H as (n & w1 & Hloop & Hmove).
  apply scan_loop_keeps in Hloop. unfold same_cursor, cursor in Hloop.
  injection Hloop as Hrow Hcol.
  destruct w1 as [r1 env1]. unfold move in Hmove. simpl in Hrow, Hcol.
  destruct (Ascii.eqb c newline); inversion Hmove; subst; unfold cursor; simpl;
    rewrite ?Hrow, ?Hcol; reflexivity.
Qed.

Lemma scan_loop_count fuel c w n w1 :
  scan_loop fuel c w = (Return n, w1) -> n = 1%nat \/ n = 2%nat.
Proof.
  destruct fuel as [|fuel]; simpl; [discriminate|].
  unfold bind at 1.
  destruct (scan c w) as [[b|e|] w2] eqn:E1; try discriminate.
  destruct b; [intros H; inversion H; auto|].
  apply scan_false_default in E1.
  destruct fuel as [|fuel]; simpl; [discriminate|].
  unfold bind.
  destruct (scan c w2) as [[b|e|] w3] eqn:E2; try discriminate.
  destruct b; [intros H; inversion H; auto|].
  exfalso. eapply scan_default_true; eassumption.
Qed.

Lemma for_each_cursor cs : forall w w',
  1 <= m_row (fst w) -> 1 <= m_column (fst w) ->
  m_row (fst w) + Z.of_nat (List.length cs) < size_modulus ->
  m_column (fst w) + Z.of_nat (List.length cs) < size_modulus ->
  for_each cs w = (Return tt, w') ->
  cursor (fst w') = fold_left advance cs (cursor (fst w)).
Proof.
  induction cs as [|c cs IH]; intros w w' Hr Hc Hrb Hcb H.
  - inversion H; reflexivity.
  - cbn [basic_reader.for_each] in H. apply bind_Return_inv in H.
    destruct H as ([] & w1 & Hfeed & Hrest).
    apply feed_cursor in Hfeed.
    cbn [List.length] in Hrb, Hcb. rewrite Nat2Z.inj_succ in Hrb, Hcb.
    assert (Hstep : cursor (fst w1) = advance (cursor (fst w)) c).
    { rewrite Hfeed. unfold advance, cursor, size_incr; simpl.
      destruct (Ascii.eqb c newline); rewrite Z.mod_small by lia; reflexivity. }
    cbn [fold_left]. rewrite <- Hstep.
    unfold cursor in Hstep. unfold advance in Hstep; simpl in Hstep.
    apply IH; try assumption;
      destruct (Ascii.eqb c newline); injection Hstep as Hr1 Hc1; lia.
Qed.
End ReaderFacts.

(** [read] feeds a copy: the callback sees what [std::for_each] makes it
    see, the reader is left as it was. *)
Lemma read_leaves_reader (Env : Type)
  (m_callback : item -> string_type -> Z -> Z -> M Env unit) range w :
  fst (basic_reader.read Env m_callback range w) =
    fst (basic_reader.for_each Env m_callback range w) /\
  fst (snd (basic_reader.read Env m_callback range w)) = fst w /\
  snd (snd (basic_reader.read Env m_callback range w)) =
    snd (snd (basic_reader.for_each Env m_callback range w)).
Proof.
  unfold basic_reader.read.
  destruct (basic_reader.for_each Env m_callback range w) as [res w'].
  repeat split.
Qed.

(** The recording callback always returns, so the recording reader never
    runs out of fuel. *)
Lemma read_events_total range : total (read_events range).
Proof.
  apply for_each_total. intros i data row column env. discriminate.
Qed.

(** C3.  A fresh reader has its cursor at (1, 1).  A character that is fed
    moves the cursor exactly once, by [move]: to column 1 of the next row
    for a newline, to the next column otherwise, whether the loop of
    [operator()] ran [scan] once or twice, since [scan] itself never moves
    the cursor.  Hence after a whole input (short of the wrap-around of
    [std::size_t]) the cursor is the one the specification describes. *)
Theorem cursor_moves_once_per_character :
  forall (Env : Type) (m_callback : item -> string_type -> Z -> Z -> M Env unit),
    cursor basic_reader.init = (1, 1) /\
    (forall c w w',
        basic_reader.feed Env m_callback c w = (Return tt, w') ->
        cursor (fst w') =
          (if Ascii.eqb c newline
           then (size_incr (basic_reader.m_row (fst w)), 1)
           else (basic_reader.m_row (fst w),
                 size_incr (basic_reader.m_column (fst w)))) /\
        forall fuel n w1,
          basic_reader.scan_loop Env m_callback fuel c w = (Return n, w1) ->
          (n = 1%nat \/ n = 2%nat) /\ cursor (fst w1) = cursor (fst w)) /\
    (forall cs env w',
        Z.of_nat (List.length cs) < size_modulus - 1 ->
        basic_reader.for_each Env m_callback cs (basic_reader.init, env) = (Return tt, w') ->
        cursor (fst w') = cursor_after cs).
Proof.
  intros Env cb. split; [reflexivity|]. split.
  - intros c w w' H. split; [apply feed_cursor with (1 := H)|].
    intros fuel n w1 Hloop. split.
    + eapply scan_loop_count; eassumption.
    + eapply scan_loop_keeps; eassumption.
  - intros cs env w' Hlen H. unfold cursor_after.
    change (1, 1) with (cursor (fst (basic_reader.init, env))).
    apply for_each_cursor with (m_callback := cb); try assumption;
      cbn [fst basic_reader.init basic_reader.m_row basic_reader.m_column];
      unfold size_modulus in *; lia.
Qed.

Lemma cursor_moves_once_per_character_witness :
  cursor (fst (snd (read_events sample fresh))) = cursor_after sample.
Proof.
  apply (proj2 (proj2 (cursor_moves_once_per_character _ basic_reader.record_event))
           sample []).
  - vm_compute; reflexivity.
  - vm_compute; reflexivity.
Defined.

(** Both iteration counts occur: a digit inside a number is consumed by one
    call of [scan], a comma that ends a number by two. *)
Example scan_once :
  fst (basic_reader.scan_loop _ basic_reader.record_event 2 "2"
         (snd (read_events (text "[1") fresh))) = Return 1%nat.
Proof. vm_compute; reflexivity. Qed.

Example scan_twice :
  fst (basic_reader.scan_loop _ basic_reader.record_event 2 ","
         (snd (read_events (text "[1") fresh))) = Return 2%nat.
Proof. vm_compute; reflexivity. Qed.

(** ** The scenario *)

Example sample_length : List.length sample = 23%nat.
Proof. reflexivity. Qed.

(** C2, as stated, fails: the writer at indent width 0 does not reproduce
    the 23 characters of the sample. *)
Lemma compact_scenario_differs :
  snd (snd (snd (read_write sample (basic_reader.init, (compact, []))))) <> sample.
Proof. vm_compute. discriminate. Qed.

(** C2, amended.  Fed one character at a time to a reader whose callback
    forwards every item to a writer of indent width 0, the sample comes out
    with a space after the colon of each key and no other white space. *)
Theorem compact_scenario :
  fst (read_write sample (basic_reader.init, (compact, []))) = Return tt /\
  snd (snd (read_write sample (basic_reader.init, (compact, [])))) =
    (compact, sample_compact).
Proof. split; vm_compute; reflexivity. Qed.

(** ** Error locality *)

(** C6.  The closing brace of [missing_value] is its sixth character; the
    reader throws "value expected" there, at row 1, column 6.  Cut off after
    the key, the same input raises nothing, and no end item has been
    delivered. *)
Theorem error_locality :
  nth_error missing_value 5 = Some "}"%char /\
  fst (read_events (firstn 5 missing_value) fresh) = Return tt /\
  fst (read_events missing_value fresh) =
    Throw (json_exception basic_reader.value_expected 1 6) /\
  fst (read_events truncated fresh) = Return tt /\
  events_of (read_events truncated fresh) = [(object_begin, []); (key, text "a")].
Proof. repeat split; vm_compute; reflexivity. Qed.


(** ** The lexer and the literal buffer *)

Lemma lexes_snoc p st c st' :
  lexes p = Some st -> number_step st c = Some st' -> lexes (p ++ [c]) = Some st'.
Proof.
  destruct p as [|c0 p]; [discriminate|]. cbn [lexes app].
  destruct (number_start c0) as [s0|]; [|discriminate].
  revert s0. induction p as [|c1 p IH]; intros s0; cbn [number_run app].
  - intros H; inversion H; subst. intros ->. reflexivity.
  - destruct (number_step s0 c1) as [s1|]; [|discriminate]. apply IH.
Qed.

Section LexerFacts.
Import basic_reader.
Variable Env : Type.
Variable m_callback : item -> string_type -> Z -> Z -> M Env unit.

Local Abbreviation world := (world Env).
Local Abbreviation scan := (scan Env m_callback).
Local Abbreviation token := (token Env m_callback).

(** A call of [token] that returns leaves the lexer state alone and the
    literal buffer empty. *)
Lemma token_returns t r env r' env' :
  token t (r, env) = (Return tt, (r', env')) ->
  m_char_state r' = m_char_state r /\
  m_unicode r' = m_unicode r /\
  (token_data_ok t (m_data r) -> m_data r' = []).
Proof.
  destruct r as [stk st data row col u].
  unfold basic_reader.token, value_token, basic_reader.call, basic_reader.raise,
    basic_reader.push, basic_reader.pop, basic_reader.jump,
    basic_reader.member, basic_reader.update, basic_reader.callback,
    bind, gets, modify, throw; cbn [fst snd m_token_state m_data m_row m_column].
  destruct stk as [|top stk]; [|destruct top]; destruct t; cbv zeta;
    cbn [fst snd m_token_state m_data m_row m_column];
    repeat match goal with
           | |- context [m_callback ?i ?d ?a ?b ?e] =>
               destruct (m_callback i d a b e) as [[[]|?|] ?]
           end;
    intros H; inversion H; subst; cbn;
    (split; [reflexivity|]); (split; [reflexivity|]);
    intros Hd; try reflexivity; exact Hd.
Qed.

Lemma unicode_returns c r env r' env' :
  unicode Env c (r, env) = (Return tt, (r', env')) ->
  exists v, r' = set_unicode v r /\ env' = env.
Proof.
  unfold unicode, basic_reader.update, bind, ret, throw, modify; if_cases;
    intros H; inversion H; eexists; split; reflexivity.
Qed.

Lemma take_unicode_returns r env r' env' :
  take_unicode Env (r, env) = (Return tt, (r', env')) ->
  exists d, r' = set_unicode 0 (set_data d r) /\ env' = env.
Proof.
  destruct r as [stk st data row col u].
  unfold take_unicode, basic_reader.take, basic_reader.update, basic_reader.member,
    bind, gets, modify; cbn [fst snd m_unicode]; if_cases;
    intros H; inversion H; eexists; split; reflexivity.
Qed.

Section LexerInvariant.
Variable G : list token_state -> Env -> Prop.
Hypothesis token_G : forall t r env r' env',
  G (m_token_state r) env ->
  token_data_ok t (m_data r) ->
  token t (r, env) = (Return tt, (r', env')) ->
  G (m_token_state r') env'.

Lemma token_then_inv t r env (k : char_state -> M world bool) b w' :
  (forall s w, k s w = (Return b, w') -> w' = (set_char_state s (fst w), snd w)) ->
  G (m_token_state r) env ->
  token_data_ok t (m_data r) ->
  bind (token t) (fun _ => k default_state) (r, env) = (Return b, w') ->
  lexer_inv G w'.
Proof.
  intros Hk HG Hd H. apply bind_Return_inv in H.
  destruct H as ([] & [r1 env1] & H1 & H2).
  apply Hk in H2. subst w'.
  pose proof (token_G _ _ _ _ _ HG Hd H1) as HG'.
  apply token_returns in H1. destruct H1 as (_ & _ & Hdata).
  specialize (Hdata Hd).
  destruct r1 as [stk1 st1 data1 row1 col1 u1]. cbn in Hdata. subst data1.
  split; [reflexivity | exact HG'].
Qed.

Lemma next_inv s (w w' : world) b :
  next Env s w = (Return b, w') -> w' = (set_char_state s (fst w), snd w).
Proof. intros H; inversion H; reflexivity. Qed.

Lemma repeat_inv s (w w' : world) b :
  basic_reader.repeat Env s w = (Return b, w') -> w' = (set_char_state s (fst w), snd w).
Proof. intros H; inversion H; reflexivity. Qed.

Lemma scan_inv c w b w' :
  lexer_inv G w -> scan c w = (Return b, w') -> lexer_inv G w'.
Proof.
  destruct w as [[stk st data row col u] env]. intros [Hb HG].
  unfold buffer_ok in Hb. cbn [fst snd m_char_state m_data m_token_state] in Hb, HG.
  unfold basic_reader.scan. cbv zeta. unfold bind at 1.
  cbn [basic_reader.member gets fst m_char_state].
  destruct st; cbv beta iota;
    repeat match goal with
           | |- context [if ?b then _ else _] => destruct b eqn:?
           end;
    intros H;
    first
      [ discriminate H
      | eapply token_then_inv in H;
        [ exact H
        | first [ intros; eapply next_inv; eassumption
                | intros; eapply repeat_inv; eassumption ]
        | exact HG
        | first [ exact I | exact Hb | left; exact Hb | right; exact Hb ] ]
      | apply next_inv in H; subst w'; split; [|exact HG];
        first [exact I | exact Hb]
      | apply bind_Return_inv in H; destruct H as ([] & [r1 env1] & H1 & H2);
        apply unicode_returns in H1; destruct H1 as (v & -> & ->);
        first
          [ apply next_inv in H2; subst w'; split; [exact I | exact HG]
          | apply bind_Return_inv in H2; destruct H2 as ([] & [r2 env2] & H2 & H3);
            apply take_unicode_returns in H2; destruct H2 as (d & -> & ->);
            apply next_inv in H3; subst w'; split; [exact I | exact HG] ]
      | inversion H; subst; split; [|exact HG];
        unfold buffer_ok; cbn [fst m_char_state m_data set_char_state set_data];
        first
          [ exact I
          | eapply lexes_snoc; [exact Hb|]; unfold number_step;
            repeat match goal with
                   | E : ?x = _ |- context [?x] => rewrite E
                   end; reflexivity
          | cbn [app lexes number_run]; unfold number_start;
            repeat match goal with
                   | E : ?x = _ |- context [?x] => rewrite E
                   end; reflexivity ] ].
Qed.

Lemma move_inv c w w' :
  lexer_inv G w -> move Env c w = (Return tt, w') -> lexer_inv G w'.
Proof.
  destruct w as [r env]. intros HJ. unfold move.
  destruct (Ascii.eqb c newline); intros H; inversion H; subst; exact HJ.
Qed.

Lemma scan_loop_inv fuel c : forall w n w',
  lexer_inv G w -> basic_reader.scan_loop Env m_callback fuel c w = (Return n, w') ->
  lexer_inv G w'.
Proof.
  induction fuel as [|fuel IH]; intros w n w' HJ H; [discriminate|].
  cbn [basic_reader.scan_loop] in H. apply bind_Return_inv in H.
  destruct H as (b & w1 & H1 & H2).
  apply scan_inv in H1; [|exact HJ].
  destruct b; [inversion H2; subst; exact H1|].
  apply bind_Return_inv in H2. destruct H2 as (m & w2 & H2 & H3).
  inversion H3; subst. eapply IH; eassumption.
Qed.

Lemma feed_inv c w w' :
  lexer_inv G w -> basic_reader.feed Env m_callback c w = (Return tt, w') ->
  lexer_inv G w'.
Proof.
  intros HJ H. unfold basic_reader.feed, basic_reader.operator_call in H.
  apply bind_Return_inv in H. destruct H as (n & w1 & H1 & H2).
  eapply move_inv; [|exact H2]. eapply scan_loop_inv; eassumption.
Qed.

Lemma for_each_inv cs : forall w w',
  lexer_inv G w -> basic_reader.for_each Env m_callback cs w = (Return tt, w') ->
  lexer_inv G w'.
Proof.
  induction cs as [|c cs IH]; intros w w' HJ H.
  - inversion H; subst; exact HJ.
  - cbn [basic_reader.for_each] in H. apply bind_Return_inv in H.
    destruct H as ([] & w1 & H1 & H2).
    eapply IH; [|exact H2]. eapply feed_inv; eassumption.
Qed.
End LexerInvariant.

(** *** One character at a time *)

Lemma move_eq c r env :
  move Env c (r, env) = (Return tt, (moved c r, env)).
Proof. unfold move, moved. destruct (Ascii.eqb c newline); reflexivity. Qed.

Lemma feed_scan_true c w r1 env1 :
  scan c w = (Return true, (r1, env1)) ->
  basic_reader.feed Env m_callback c w = (Return tt, (moved c r1, env1)).
Proof.
  intros H. unfold basic_reader.feed, basic_reader.operator_call.
  cbn [basic_reader.scan_loop]. unfold bind. rewrite H. apply move_eq.
Qed.

Lemma feed_scan_throw c w e w1 :
  scan c w = (Throw e, w1) ->
  basic_reader.feed Env m_callback c w = (Throw e, w1).
Proof.
  intros H. unfold basic_reader.feed, basic_reader.operator_call.
  cbn [basic_reader.scan_loop]. unfold bind. rewrite H. reflexivity.
Qed.

(** In a number, [scan] depends on the lexer state and the character only. *)
Lemma scan_number c stk st data row col u env :
  in_number st = true ->
  scan c (mk_reader stk st data row col u, env) =
    match number_step st c with
    | Some st' => (Return true, (mk_reader stk st' (data ++ [c]) row col u, env))
    | None =>
        match st with
        | integer_n_state | integer_z_state =>
            bind (token integer_token) (fun _ => basic_reader.repeat Env default_state)
              (mk_reader stk st data row col u, env)
        | fractional_n_state | exponent_n_state =>
            bind (token real_token) (fun _ => basic_reader.repeat Env default_state)
              (mk_reader stk st data row col u, env)
        | _ => unexpected_character Env (mk_reader stk st data row col u, env)
        end
    end.
Proof.
  intros Hst. unfold basic_reader.scan, number_step. cbv zeta. unfold bind at 1.
  cbn [basic_reader.member gets fst m_char_state].
  destruct st; try discriminate Hst; cbv beta iota; if_cases; reflexivity.
Qed.

Lemma number_step_in_number st c st' :
  number_step st c = Some st' -> in_number st = true /\ in_number st' = true.
Proof.
  unfold number_step. destruct st; try discriminate; if_cases;
    intros H; inversion H; split; reflexivity.
Qed.

Lemma number_start_in_number c st :
  number_start c = Some st -> in_number st = true.
Proof.
  unfold number_start. if_cases; intros H; inversion H; reflexivity.
Qed.

(** The first character of a number is none of the characters that
    [default_state] tests for before. *)
Lemma scan_number_start c st' stk data row col u env :
  number_start c = Some st' ->
  scan c (mk_reader stk default_state data row col u, env) =
    (Return true, (mk_reader stk st' (data ++ [c]) row col u, env)).
Proof.
  destruct c as [b0 b1 b2 b3 b4 b5 b6 b7].
  destruct b0, b1, b2, b3, b4, b5, b6, b7; intros H; vm_compute in H;
    try discriminate H; inversion H; subst; reflexivity.
Qed.

(** When [scan] asks for the character again, the rest of [operator()] is
    what [operator()] does from the state that [scan] left. *)
Lemma feed_again c w w1 :
  scan c w = (Return false, w1) ->
  basic_reader.feed Env m_callback c w = basic_reader.feed Env m_callback c w1.
Proof.
  intros H. pose proof (scan_false_default _ _ _ _ _ H) as Hdef.
  unfold basic_reader.feed, basic_reader.operator_call.
  cbn [basic_reader.scan_loop]. unfold bind. rewrite H.
  destruct (scan c w1) as [[[]|e|] w2] eqn:E2; try reflexivity.
  exfalso. exact (scan_default_true _ _ _ _ _ Hdef E2).
Qed.

(** *** Silent reading *)

Lemma for_each_app cs1 cs2 (w : world) :
  basic_reader.for_each Env m_callback (cs1 ++ cs2) w =
    bind (basic_reader.for_each Env m_callback cs1)
      (fun _ => basic_reader.for_each Env m_callback cs2) w.
Proof.
  revert w. induction cs1 as [|c cs1 IH]; intros w; [reflexivity|].
  cbn [app basic_reader.for_each]. unfold bind.
  destruct (basic_reader.feed Env m_callback c w) as [[[]|e|] w1]; [|reflexivity|reflexivity].
  rewrite IH. reflexivity.
Qed.

Lemma silent_nil r : silent m_callback [] r r.
Proof. intros row col env. exists row, col. reflexivity. Qed.

Lemma silent_app cs1 cs2 r1 r2 r3 :
  silent m_callback cs1 r1 r2 -> silent m_callback cs2 r2 r3 ->
  silent m_callback (cs1 ++ cs2) r1 r3.
Proof.
  intros H1 H2 row col env.
  destruct (H1 row col env) as (row1 & col1 & E1).
  destruct (H2 row1 col1 env) as (row2 & col2 & E2).
  exists row2, col2. rewrite for_each_app. rewrite (bind_Return _ _ _ _ _ E1). exact E2.
Qed.

Lemma silent_cons c cs r1 r2 r3 :
  silent m_callback [c] r1 r2 -> silent m_callback cs r2 r3 ->
  silent m_callback (c :: cs) r1 r3.
Proof. intros H1 H2. apply (silent_app [c] cs r1 r2 r3 H1 H2). Qed.

(** A call of [scan] that consumes the character without calling [token]. *)
Lemma silent_scan c r r' :
  (forall row col env,
      scan c (set_position row col r, env) = (Return true, (set_position row col r', env))) ->
  silent m_callback [c] r r'.
Proof.
  intros H row col env. specialize (H row col env).
  apply feed_scan_true in H.
  cbn [basic_reader.for_each]. rewrite (bind_Return _ _ _ _ _ H).
  unfold moved. destruct (Ascii.eqb c newline); eexists _, _; reflexivity.
Qed.
End LexerFacts.
(** ** Numbers with a leading zero *)

(** Outside every container a number can only grow or fail: whatever is
    fed next, no item is delivered. *)
Lemma top_level_number_silent cs : forall r,
  basic_reader.m_token_state r = [] ->
  in_number (basic_reader.m_char_state r) = true ->
  snd (snd (read_events cs (r, []))) = [].
Proof.
  induction cs as [|c cs IH]; intros r Hstk Hst; [reflexivity|].
  destruct r as [stk st data row col u]. cbn in Hstk, Hst. subst stk.
  unfold read_events in *. cbn [basic_reader.for_each].
  pose proof (scan_number _ basic_reader.record_event c [] st data row col u [] Hst)
    as Hscan.
  destruct (number_step st c) as [st'|] eqn:Estep.
  - apply feed_scan_true in Hscan. unfold bind. rewrite Hscan.
    apply IH.
    + unfold moved. destruct (Ascii.eqb c newline); reflexivity.
    + apply number_step_in_number in Estep.
      unfold moved. destruct (Ascii.eqb c newline); apply Estep.
  - assert (Hthrow : exists e,
               basic_reader.scan _ basic_reader.record_event c
                 ({| basic_reader.m_token_state := [];
                     basic_reader.m_char_state := st;
                     basic_reader.m_data := data;
                     basic_reader.m_row := row;
                     basic_reader.m_column := col;
                     basic_reader.m_unicode := u |}, []) =
               (Throw e,
                 ({| basic_reader.m_token_state := [];
                     basic_reader.m_char_state := st;
                     basic_reader.m_data := data;
                     basic_reader.m_row := row;
                     basic_reader.m_column := col;
                     basic_reader.m_unicode := u |}, []))).
    { rewrite Hscan. destruct st; try discriminate Hst; eexists; reflexivity. }
    destruct Hthrow as [e Hthrow]. apply feed_scan_throw in Hthrow.
    unfold bind. rewrite Hthrow. reflexivity.
Qed.

(** C4, as stated, fails: fed to a fresh reader, 0.5 is not delivered as
    a RealValue item (nor 0 as an IntegerValue item). *)
Lemma bare_number_not_accepted :
  ~ ((exists e, fst (read_events (text "01") fresh) = Throw e) /\
     events_of (read_events (text "0.5") fresh) = [(real_value, text "0.5")] /\
     events_of (read_events (text "0") fresh) = [(integer_value, text "0")]).
Proof. intros (_ & H & _). vm_compute in H. discriminate. Qed.

(** C4, amended.  The input 01 raises a grammar error, the one of the
    empty-stack branch of [token].  A bare 0.5 or 0 delivers no item,
    whatever follows it.  Inside an array, 0.5 is delivered as a single
    RealValue item and 0 as a single IntegerValue item, and 01 raises a
    grammar error. *)
Theorem leading_zero :
  fst (read_events (text "01") fresh) =
    Throw (json_exception basic_reader.begin_expected 1 2) /\
  (forall rest,
      snd (snd (read_events (text "0.5" ++ rest) fresh)) = [] /\
      snd (snd (read_events (text "0" ++ rest) fresh)) = []) /\
  fst (read_events (text "[0.5]") fresh) = Return tt /\
  events_of (read_events (text "[0.5]") fresh) =
    [(array_begin, []); (real_value, text "0.5"); (array_end, [])] /\
  fst (read_events (text "[0]") fresh) = Return tt /\
  events_of (read_events (text "[0]") fresh) =
    [(array_begin, []); (integer_value, text "0"); (array_end, [])] /\
  fst (read_events (text "[01]") fresh) =
    Throw (json_exception basic_reader.array_end_or_comma_expected 1 4).
Proof.
  split; [vm_compute; reflexivity|].
  split; [|repeat split; vm_compute; reflexivity].
  intros rest. split.
  - change (text "0.5" ++ rest) with ("0"%char :: "."%char :: "5"%char :: rest).
    unfold read_events, fresh. cbn [basic_reader.for_each].
    repeat (unfold bind at 1;
            match goal with
            | |- context [basic_reader.feed ?E ?cb ?c ?w] =>
                let v := eval vm_compute in (basic_reader.feed E cb c w) in
                change (basic_reader.feed E cb c w) with v
            end; cbv iota beta).
    apply top_level_number_silent; reflexivity.
  - change (text "0" ++ rest) with ("0"%char :: rest).
    unfold read_events, fresh. cbn [basic_reader.for_each].
    repeat (unfold bind at 1;
            match goal with
            | |- context [basic_reader.feed ?E ?cb ?c ?w] =>
                let v := eval vm_compute in (basic_reader.feed E cb c w) in
                change (basic_reader.feed E cb c w) with v
            end; cbv iota beta).
    apply top_level_number_silent; reflexivity.
Qed.

(** ** Escapes *)

Lemma lor_low k a y :
  0 <= k -> 0 <= y < 2 ^ k -> Z.lor (a * 2 ^ k) y = a * 2 ^ k + y.
Proof.
  intros Hk Hy.
  assert (Hland : Z.land (a * 2 ^ k) y = 0).
  { apply Z.bits_inj'. intros n Hn. rewrite Z.land_spec, Z.bits_0.
    destruct (Z.lt_ge_cases n k) as [Hlt|Hge].
    - rewrite Z.mul_pow2_bits_low by lia. reflexivity.
    - assert (Z.testbit y n = false) as ->; [|apply andb_false_r].
      destruct (Z.eq_dec y 0) as [->|Hne]; [apply Z.bits_0|].
      apply Z.bits_above_log2; [lia|].
      apply Z.lt_le_trans with k; [|exact Hge].
      apply Z.log2_lt_pow2; lia. }
  rewrite <- Z.lxor_lor by exact Hland.
  symmetry. apply Z.add_nocarry_lxor. exact Hland.
Qed.

Lemma code_char_type x : 0 <= x < 256 -> code (char_type x) = x.
Proof.
  intros Hx. unfold code, char_type.
  rewrite N_ascii_embedding.
  - rewrite Z2N.id; [apply Z.mod_small; exact Hx | apply Z.mod_pos_bound; lia].
  - rewrite Z.mod_small by exact Hx.
    change 256%N with (Z.to_N 256). apply Z2N.inj_lt; lia.
Qed.

Lemma hex_value_range h : isxdigit h = true -> 0 <= hex_value h < 16.
Proof.
  unfold isxdigit, hex_value, isdigit.
  destruct (48 <=? code h) eqn:E1; destruct (code h <=? 57) eqn:E2;
    destruct (97 <=? code h) eqn:E3; destruct (code h <=? 102) eqn:E4;
    destruct (65 <=? code h) eqn:E5; destruct (code h <=? 70) eqn:E6;
    cbn [andb orb]; intros H; try discriminate H; lia.
Qed.

Lemma code_point_range h1 h2 h3 h4 :
  isxdigit h1 = true -> isxdigit h2 = true -> isxdigit h3 = true ->
  isxdigit h4 = true -> 0 <= code_point h1 h2 h3 h4 < 65536.
Proof.
  intros H1 H2 H3 H4. apply hex_value_range in H1, H2, H3, H4.
  unfold code_point. lia.
Qed.

(** The bit operations of [take_unicode] compute the bytes of [utf8]. *)
Lemma take_unicode_bytes v :
  0 <= v < 65536 ->
  (v < 128 -> [char_type v] = utf8 v) /\
  (128 <= v < 2048 ->
   [char_type (Z.lor 192 (Z.land (Z.shiftr v 6) 31));
    char_type (Z.lor 128 (Z.land v 63))] = utf8 v) /\
  (2048 <= v ->
   [char_type (Z.lor 224 (Z.land (Z.shiftr v 12) 15));
    char_type (Z.lor 128 (Z.land (Z.shiftr v 6) 63));
    char_type (Z.lor 128 (Z.land v 63))] = utf8 v).
Proof.
  intros Hv. unfold utf8.
  change 31 with (Z.ones 5). change 63 with (Z.ones 6). change 15 with (Z.ones 4).
  rewrite !Z.land_ones, !Z.shiftr_div_pow2 by lia.
  change (2 ^ 6) with 64. change (2 ^ 12) with 4096.
  change (2 ^ 5) with 32. change (2 ^ 4) with 16.
  repeat split; intros Hr.
  - destruct (Z.ltb_spec v 128); [reflexivity | lia].
  - destruct (Z.ltb_spec v 128); [lia|].
    destruct (Z.ltb_spec v 2048); [|lia].
    change 192 with (6 * 2 ^ 5). change 128 with (2 * 2 ^ 6).
    rewrite !lor_low; try lia.
    + rewrite (Z.mod_small (v / 64) 32); [reflexivity|].
      split; [apply Z.div_pos; lia | apply Z.div_lt_upper_bound; lia].
    + change (2 ^ 6) with 64. apply Z.mod_pos_bound; lia.
    + change (2 ^ 5) with 32. apply Z.mod_pos_bound; lia.
  - destruct (Z.ltb_spec v 128); [lia|].
    destruct (Z.ltb_spec v 2048); [lia|].
    change 224 with (14 * 2 ^ 4). change 128 with (2 * 2 ^ 6).
    rewrite !lor_low; try lia.
    + rewrite (Z.mod_small (v / 4096) 16); [reflexivity|].
      split; [apply Z.div_pos; lia | apply Z.div_lt_upper_bound; lia].
    + change (2 ^ 6) with 64. apply Z.mod_pos_bound; lia.
    + change (2 ^ 6) with 64. apply Z.mod_pos_bound; lia.
    + change (2 ^ 4) with 16. apply Z.mod_pos_bound; lia.
Qed.

Lemma utf8_length v :
  List.length (utf8 v) =
    if v <? 128 then 1%nat else if v <? 2048 then 2%nat else 3%nat.
Proof. unfold utf8. destruct (v <? 128), (v <? 2048); reflexivity. Qed.

Lemma shift_in u d :
  0 <= d < 16 -> uint16 (Z.lor (Z.shiftl u 4) d) = (16 * u + d) mod 65536.
Proof.
  intros Hd. unfold uint16. rewrite Z.shiftl_mul_pow2 by lia.
  rewrite lor_low by lia. change (2 ^ 4) with 16. change (2 ^ 16) with 65536.
  f_equal. lia.
Qed.

(** Four digits shifted in push out whatever the accumulator held. *)
Lemma accumulate u d1 d2 d3 d4 :
  0 <= d1 < 16 -> 0 <= d2 < 16 -> 0 <= d3 < 16 -> 0 <= d4 < 16 ->
  uint16 (Z.lor (Z.shiftl
    (uint16 (Z.lor (Z.shiftl
      (uint16 (Z.lor (Z.shiftl
        (uint16 (Z.lor (Z.shiftl u 4) d1)) 4) d2)) 4) d3)) 4) d4)
  = 4096 * d1 + 256 * d2 + 16 * d3 + d4.
Proof.
  intros H1 H2 H3 H4. rewrite !shift_in by assumption.
  Z.div_mod_to_equations. lia.
Qed.

Section UnicodeEscape.
Import basic_reader.
Variable Env : Type.
Variable m_callback : item -> string_type -> Z -> Z -> M Env unit.

Local Abbreviation scan := (scan Env m_callback).
Local Abbreviation feed := (feed Env m_callback).
Local Abbreviation for_each := (for_each Env m_callback).
Local Abbreviation silent_nil := (silent_nil Env m_callback).
Local Abbreviation silent_app := (silent_app Env m_callback).
Local Abbreviation silent_cons := (silent_cons Env m_callback).
Local Abbreviation silent_scan := (silent_scan Env m_callback).

Lemma unicode_eq h r env :
  isxdigit h = true ->
  unicode Env h (r, env) =
    (Return tt,
     (set_unicode (uint16 (Z.lor (Z.shiftl (m_unicode r) 4) (hex_value h))) r, env)).
Proof.
  unfold unicode, hex_value, isxdigit, isdigit.
  change (code "0") with 48. change (code "9") with 57.
  change (code "a") with 97. change (code "f") with 102.
  change (code "A") with 65. change (code "F") with 70.
  destruct (Z.leb_spec 48 (code h)); destruct (Z.leb_spec (code h) 57);
    destruct (Z.leb_spec 97 (code h)); destruct (Z.leb_spec (code h) 102);
    destruct (Z.leb_spec 65 (code h)); destruct (Z.leb_spec (code h) 70);
    cbn [andb orb]; intros Hx; try discriminate Hx; try lia;
    unfold bind, ret, basic_reader.update, modify; cbn [fst snd];
    unfold uint16 at 2; rewrite Z.mod_small by (change (2 ^ 16) with 65536; lia);
    reflexivity.
Qed.

Lemma take_unicode_eq stk st data row col v env :
  0 <= v < 65536 ->
  take_unicode Env (mk_reader stk st data row col v, env) =
    (Return tt, (mk_reader stk st (data ++ utf8 v) row col 0, env)).
Proof.
  intros Hv. destruct (take_unicode_bytes v Hv) as (B1 & B2 & B3).
  unfold take_unicode, bind at 1. cbn [basic_reader.member gets fst m_unicode].
  destruct (Z.ltb_spec v 128); [|destruct (Z.ltb_spec v 2048)].
  - rewrite <- B1 by lia. reflexivity.
  - rewrite <- B2 by lia.
    unfold bind, basic_reader.take, basic_reader.update, modify; cbn.
    rewrite <- app_assoc. reflexivity.
  - rewrite <- B3 by lia.
    unfold bind, basic_reader.take, basic_reader.update, modify; cbn.
    rewrite <- !app_assoc. reflexivity.
Qed.

Lemma silent_unicode h stk st st' data row col u :
  isxdigit h = true ->
  (forall stk data row col u env,
      scan h (mk_reader stk st data row col u, env) =
        bind (unicode Env h) (fun _ => next Env st') (mk_reader stk st data row col u, env)) ->
  silent m_callback [h] (mk_reader stk st data row col u)
    (mk_reader stk st' data row col (uint16 (Z.lor (Z.shiftl u 4) (hex_value h)))).
Proof.
  intros Hh Hscan. apply silent_scan. intros row0 col0 env.
  unfold set_position. cbn [m_token_state m_char_state m_data m_unicode].
  rewrite Hscan.
  erewrite bind_Return; [|apply unicode_eq; exact Hh]. reflexivity.
Qed.

Lemma scan_unicode_digit h st st' :
  isxdigit h = true ->
  (st = unicode_1_state /\ st' = unicode_2_state) \/
  (st = unicode_2_state /\ st' = unicode_3_state) \/
  (st = unicode_3_state /\ st' = unicode_4_state) ->
  forall stk data row col u env,
    scan h (mk_reader stk st data row col u, env) =
      bind (unicode Env h) (fun _ => next Env st') (mk_reader stk st data row col u, env).
Proof.
  intros Hh Hst stk data row col u env.
  unfold basic_reader.scan. cbv zeta. unfold bind at 1.
  cbn [basic_reader.member gets fst m_char_state].
  destruct Hst as [[-> ->] | [[-> ->] | [-> ->]]]; cbv beta iota; rewrite Hh; reflexivity.
Qed.

(** One Unicode escape, read inside a string. *)
Lemma silent_escape_u h1 h2 h3 h4 stk data row col u :
  isxdigit h1 = true -> isxdigit h2 = true -> isxdigit h3 = true ->
  isxdigit h4 = true ->
  silent m_callback (escape_u h1 h2 h3 h4)
    (mk_reader stk string_state data row col u)
    (mk_reader stk string_state (data ++ utf8 (code_point h1 h2 h3 h4)) row col 0).
Proof.
  intros H1 H2 H3 H4.
  pose proof (code_point_range _ _ _ _ H1 H2 H3 H4) as Hv.
  pose proof (hex_value_range _ H1) as R1. pose proof (hex_value_range _ H2) as R2.
  pose proof (hex_value_range _ H3) as R3. pose proof (hex_value_range _ H4) as R4.
  unfold escape_u.
  apply (silent_cons _ _ _ (mk_reader stk escape_state data row col u));
    [apply silent_scan; intros; reflexivity|].
  apply (silent_cons _ _ _ (mk_reader stk unicode_1_state data row col u));
    [apply silent_scan; intros; reflexivity|].
  eapply silent_cons;
    [apply (silent_unicode h1 stk unicode_1_state unicode_2_state); [exact H1|];
     apply scan_unicode_digit; auto|].
  eapply silent_cons;
    [apply (silent_unicode h2 stk unicode_2_state unicode_3_state); [exact H2|];
     apply scan_unicode_digit; auto|].
  eapply silent_cons;
    [apply (silent_unicode h3 stk unicode_3_state unicode_4_state); [exact H3|];
     apply scan_unicode_digit; auto|].
  apply silent_scan. intros row0 col0 env.
  unfold basic_reader.scan. cbv zeta. unfold bind at 1.
  unfold set_position.
  cbn [basic_reader.member gets fst m_token_state m_char_state m_data m_unicode].
  rewrite H4.
  erewrite bind_Return; [|apply unicode_eq; exact H4].
  cbn [set_unicode m_token_state m_char_state m_data m_row m_column m_unicode].
  rewrite accumulate by assumption. fold (code_point h1 h2 h3 h4).
  erewrite bind_Return; [|apply take_unicode_eq; exact Hv]. reflexivity.
Qed.

(** *** The two-character escapes *)

Lemma escape_chars_cases c :
  (exists e, In (c, e) escapes /\ escape_chars c = [backslash; e]) \/
  (escape_chars c = [c] /\ Ascii.eqb c dquote = false /\ Ascii.eqb c backslash = false).
Proof.
  unfold escape_chars, basic_writer.encode.
  destruct (Ascii.eqb_spec c dquote) as [->|_];
    [left; exists dquote; split; [cbn; tauto | reflexivity]|].
  destruct (Ascii.eqb_spec c backslash) as [->|_];
    [left; exists backslash; split; [cbn; tauto | reflexivity]|].
  destruct (Ascii.eqb_spec c slash) as [->|_];
    [left; exists "/"%char; split; [cbn; tauto | reflexivity]|].
  destruct (Ascii.eqb_spec c backspace) as [->|_];
    [left; exists "b"%char; split; [cbn; tauto | reflexivity]|].
  destruct (Ascii.eqb_spec c formfeed) as [->|_];
    [left; exists "f"%char; split; [cbn; tauto | reflexivity]|].
  destruct (Ascii.eqb_spec c newline) as [->|_];
    [left; exists "n"%char; split; [cbn; tauto | reflexivity]|].
  destruct (Ascii.eqb_spec c carriage_return) as [->|_];
    [left; exists "r"%char; split; [cbn; tauto | reflexivity]|].
  destruct (Ascii.eqb_spec c tab) as [->|_];
    [left; exists "t"%char; split; [cbn; tauto | reflexivity]|].
  right. repeat split; reflexivity.
Qed.

(** Read inside a string, what [encode] makes of a character gives the
    character back. *)
Lemma silent_escape_chars c stk data row col u :
  silent m_callback (escape_chars c)
    (mk_reader stk string_state data row col u)
    (mk_reader stk string_state (data ++ [c]) row col u).
Proof.
  destruct (escape_chars_cases c) as [(e & Hin & ->) | (-> & Hq & Hb)].
  - apply (silent_cons _ _ _ (mk_reader stk escape_state data row col u));
      [apply silent_scan; intros; reflexivity|].
    cbn in Hin.
    repeat (destruct Hin as [Hin|Hin];
            [inversion Hin; subst; apply silent_scan; intros; reflexivity|]).
    contradiction.
  - apply silent_scan. intros row0 col0 env.
    unfold basic_reader.scan. cbv zeta. unfold bind at 1.
    unfold set_position.
    cbn [basic_reader.member gets fst m_token_state m_char_state m_data m_unicode].
    rewrite Hq, Hb. reflexivity.
Qed.

Lemma silent_escaped s : forall stk data row col u,
  silent m_callback (escaped s)
    (mk_reader stk string_state data row col u)
    (mk_reader stk string_state (data ++ s) row col u).
Proof.
  induction s as [|c s IH]; intros stk data row col u.
  - rewrite app_nil_r. apply silent_nil.
  - cbn [escaped flat_map]. eapply silent_app; [apply silent_escape_chars|].
    replace (data ++ c :: s) with ((data ++ [c]) ++ s)
      by (rewrite <- app_assoc; reflexivity).
    apply IH.
Qed.
End UnicodeEscape.

Lemma utf8_decode_utf8 v :
  0 <= v < 55296 -> utf8_decode (utf8 v) = Some v.
Proof.
  intros Hv. unfold utf8, utf8_decode, continuation.
  destruct (Z.ltb_spec v 128); [|destruct (Z.ltb_spec v 2048)]; cbn [map].
  - rewrite code_char_type by lia.
    destruct (Z.ltb_spec v 128); [reflexivity | lia].
  - assert (0 <= v / 64 < 32)
      by (split; [apply Z.div_pos; lia | apply Z.div_lt_upper_bound; lia]).
    pose proof (Z.mod_pos_bound v 64 ltac:(lia)).
    pose proof (Z.div_mod v 64 ltac:(lia)).
    rewrite !code_char_type by lia.
    repeat match goal with
           | |- context [?a <=? ?b] => destruct (Z.leb_spec a b); try lia
           | |- context [?a <? ?b] => destruct (Z.ltb_spec a b); try lia
           end; cbn [andb]; f_equal; lia.
  - assert (0 <= v / 4096 < 16)
      by (split; [apply Z.div_pos; lia | apply Z.div_lt_upper_bound; lia]).
    pose proof (Z.mod_pos_bound v 64 ltac:(lia)).
    pose proof (Z.mod_pos_bound (v / 64) 64 ltac:(lia)).
    pose proof (Z.div_mod v 64 ltac:(lia)).
    pose proof (Z.div_mod (v / 64) 64 ltac:(lia)).
    assert (v / 64 / 64 = v / 4096) by (rewrite Z.div_div by lia; reflexivity).
    rewrite !code_char_type by lia.
    repeat match goal with
           | |- context [?a <=? ?b] => destruct (Z.leb_spec a b); try lia
           | |- context [?a <? ?b] => destruct (Z.ltb_spec a b); try lia
           end; cbn [andb negb]; try (f_equal; lia).
Qed.

Lemma silent_taken cs stk st data u r' log :
  silent basic_reader.record_event cs (basic_reader.mk_reader stk st data 1 1 u) r' ->
  fst (read_events cs (basic_reader.mk_reader stk st data 1 1 u, log)) = Return tt /\
  taken (read_events cs (basic_reader.mk_reader stk st data 1 1 u, log)) =
    basic_reader.m_data r'.
Proof.
  intros H. destruct (H 1 1 log) as (row' & col' & E).
  unfold read_events, taken.
  change (basic_reader.set_position 1 1 (basic_reader.mk_reader stk st data 1 1 u))
    with (basic_reader.mk_reader stk st data 1 1 u) in E.
  rewrite E. split; reflexivity.
Qed.

(** C7.  A Unicode escape read inside a string consumes exactly its four
    hexadecimal digits: whatever the accumulator held, it ends up holding
    the 16-bit number the digits write, that number is appended to the
    literal buffer as one byte below 0x80, two bytes below 0x800 and three
    bytes otherwise, the accumulator is reset to 0 and the lexer is back in
    [string_state].  Two escapes in a row are decoded one by one, each to
    its own bytes: nothing combines a surrogate pair. *)
Theorem unicode_escape_decoding :
  forall (Env : Type) (m_callback : item -> string_type -> Z -> Z -> M Env unit)
         h1 h2 h3 h4 stk data row col u env,
    isxdigit h1 = true -> isxdigit h2 = true ->
    isxdigit h3 = true -> isxdigit h4 = true ->
    0 <= code_point h1 h2 h3 h4 < 65536 /\
    (exists row' col',
        basic_reader.for_each Env m_callback (escape_u h1 h2 h3 h4)
          (basic_reader.mk_reader stk basic_reader.string_state data row col u, env) =
        (Return tt,
         (basic_reader.mk_reader stk basic_reader.string_state
            (data ++ utf8 (code_point h1 h2 h3 h4)) row' col' 0, env))) /\
    List.length (utf8 (code_point h1 h2 h3 h4)) =
      (if code_point h1 h2 h3 h4 <? 128 then 1%nat
       else if code_point h1 h2 h3 h4 <? 2048 then 2%nat else 3%nat) /\
    (forall l1 l2 l3 l4,
        isxdigit l1 = true -> isxdigit l2 = true ->
        isxdigit l3 = true -> isxdigit l4 = true ->
        exists row' col',
          basic_reader.for_each Env m_callback (escape_u h1 h2 h3 h4 ++ escape_u l1 l2 l3 l4)
            (basic_reader.mk_reader stk basic_reader.string_state data row col u, env) =
          (Return tt,
           (basic_reader.mk_reader stk basic_reader.string_state
              (data ++ utf8 (code_point h1 h2 h3 h4) ++ utf8 (code_point l1 l2 l3 l4))
              row' col' 0, env))).
Proof.
  intros Env cb h1 h2 h3 h4 stk data row col u env H1 H2 H3 H4.
  split; [apply code_point_range; assumption|].
  split; [|split; [apply utf8_length|]].
  - exact (silent_escape_u Env cb h1 h2 h3 h4 stk data row col u H1 H2 H3 H4 row col env).
  - intros l1 l2 l3 l4 L1 L2 L3 L4.
    rewrite app_assoc.
    exact (silent_app Env cb _ _ _ _ _
             (silent_escape_u Env cb h1 h2 h3 h4 stk data row col u H1 H2 H3 H4)
             (silent_escape_u Env cb l1 l2 l3 l4 stk _ row col 0 L1 L2 L3 L4)
             row col env).
Qed.

(** U+00E9 takes two bytes. *)
Lemma unicode_escape_decoding_witness :
  exists row' col',
    read_events (escape_u "0" "0" "e" "9") (in_string []) =
      (Return tt,
       (basic_reader.mk_reader [basic_reader.object_v_state] basic_reader.string_state
          (utf8 233) row' col' 0, [])).
Proof.
  exact (proj1 (proj2 (unicode_escape_decoding _ basic_reader.record_event
                         "0" "0" "e" "9" [basic_reader.object_v_state] [] 1 1 0 []
                         eq_refl eq_refl eq_refl eq_refl))).
Defined.

(** The escapes of the two halves of U+1F600 give six bytes, three for
    each half, not the four bytes of the code point. *)
Example surrogates_not_combined :
  taken (read_events (escape_u "D" "8" "3" "D" ++ escape_u "D" "E" "0" "0") (in_string []))
    = map char_type [237; 160; 189; 237; 184; 128].
Proof. vm_compute; reflexivity. Qed.

(** C5.  Each of the eight characters with a two-character escape is
    written by the writer as a backslash and its letter, which the reader,
    inside a string, takes back as the character; and the escape read
    by the reader gives a character that the writer writes as the same
    escape.  A Unicode escape of a code point below the surrogates is
    decoded to bytes that are the UTF-8 form of the code point (the standard
    decoding gives the code point back), and these bytes, written by the
    writer and read again, come back unchanged. *)
Theorem escape_symmetry :
  Forall (fun ce : ascii * ascii =>
            escape_chars (fst ce) = [backslash; snd ce] /\
            taken (read_events (escape_chars (fst ce)) (in_string [])) = [fst ce] /\
            escaped (taken (read_events [backslash; snd ce] (in_string []))) =
              [backslash; snd ce])
         escapes /\
  (forall h1 h2 h3 h4,
      isxdigit h1 = true -> isxdigit h2 = true ->
      isxdigit h3 = true -> isxdigit h4 = true ->
      code_point h1 h2 h3 h4 < 55296 ->
      taken (read_events (escape_u h1 h2 h3 h4) (in_string [])) =
        utf8 (code_point h1 h2 h3 h4) /\
      utf8_decode (utf8 (code_point h1 h2 h3 h4)) = Some (code_point h1 h2 h3 h4) /\
      taken (read_events (escaped (utf8 (code_point h1 h2 h3 h4))) (in_string [])) =
        utf8 (code_point h1 h2 h3 h4)).
Proof.
  split.
  - unfold escapes. repeat constructor; vm_compute; reflexivity.
  - intros h1 h2 h3 h4 H1 H2 H3 H4 Hlt.
    pose proof (code_point_range _ _ _ _ H1 H2 H3 H4) as Hv.
    split; [|split].
    + exact (proj2 (silent_taken _ _ _ _ _ _ []
                      (silent_escape_u _ basic_reader.record_event h1 h2 h3 h4
                         [basic_reader.object_v_state] [] 1 1 0 H1 H2 H3 H4))).
    + apply utf8_decode_utf8. lia.
    + exact (proj2 (silent_taken _ _ _ _ _ _ []
                      (silent_escaped _ basic_reader.record_event _
                         [basic_reader.object_v_state] [] 1 1 0))).
Qed.

Lemma escape_symmetry_witness :
  taken (read_events (escape_u "0" "0" "e" "9") (in_string [])) = utf8 233 /\
  utf8_decode (utf8 233) = Some 233.
Proof.
  destruct (proj2 escape_symmetry "0" "0" "e" "9" eq_refl eq_refl eq_refl eq_refl eq_refl)%char
    as (T & D & _).
  split; [exact T | exact D].
Defined.

(** ** Stack balance *)

Lemma matching_app items1 : forall open items2,
  matching open (items1 ++ items2) =
    match matching open items1 with
    | Some open' => matching open' items2
    | None => None
    end.
Proof.
  induction items1 as [|i items1 IH]; intros open items2; [reflexivity|].
  destruct i; cbn [matching app]; try apply IH;
    destruct open as [|[] outer]; try reflexivity; apply IH.
Qed.

Lemma matching_depth items : forall open open',
  matching open items = Some open' ->
  Z.of_nat (List.length open') = Z.of_nat (List.length open) + depth items.
Proof.
  induction items as [|i items IH]; intros open open' H.
  - inversion H; subst. cbn. lia.
  - destruct i; cbn [matching] in H; cbn [depth fold_right depth_change];
      fold (depth items);
      try (apply IH in H; cbn [List.length] in H; lia);
      destruct open as [|[] outer]; try discriminate H;
      apply IH in H; cbn [List.length]; lia.
Qed.

(** What one call of [token] does to the stack and to the record. *)
Lemma token_recorded t r log r' log' :
  basic_reader.token _ basic_reader.record_event t (r, log) = (Return tt, (r', log')) ->
  (log' = log /\
   basic_reader.m_token_state r' <> [] /\
   List.length (basic_reader.m_token_state r') = List.length (basic_reader.m_token_state r) /\
   map kind_of (basic_reader.m_token_state r') = map kind_of (basic_reader.m_token_state r)) \/
  (exists i,
      log' = log ++ [(i, basic_reader.m_data r, basic_reader.m_row r, basic_reader.m_column r)] /\
      Z.of_nat (List.length (basic_reader.m_token_state r')) =
        Z.of_nat (List.length (basic_reader.m_token_state r)) + depth_change i /\
      matching (map kind_of (basic_reader.m_token_state r)) [i] =
        Some (map kind_of (basic_reader.m_token_state r')) /\
      (basic_reader.m_token_state r' = [] -> is_end i = true)).
Proof.
  destruct r as [stk st data row col u].
  destruct stk as [|top stk]; [|destruct top]; destruct t;
    intros H; cbv in H; inversion H; subst; clear H;
    cbn [basic_reader.m_token_state basic_reader.m_data basic_reader.m_row
         basic_reader.m_column];
    first
      [ left; repeat split; first [reflexivity | discriminate]
      | right; eexists; split; [reflexivity|]; split;
        [ cbn [List.length depth_change]; lia
        | split; [reflexivity | first [reflexivity | discriminate ] ] ] ].
Qed.

Lemma token_balance t r log r' log' :
  balance_inv (basic_reader.m_token_state r) log ->
  token_data_ok t (basic_reader.m_data r) ->
  basic_reader.token _ basic_reader.record_event t (r, log) = (Return tt, (r', log')) ->
  balance_inv (basic_reader.m_token_state r') log'.
Proof.
  intros [Hbal Hclosed] _ H. apply token_recorded in H.
  destruct H as [(-> & Hne & _ & Hk) | (i & -> & _ & Hm & Hend)].
  - split; [unfold balanced; rewrite Hk; exact Hbal | intros E; contradiction].
  - split.
    + unfold balanced in *. rewrite map_app, matching_app, Hbal. exact Hm.
    + intros E. right. eexists _, _. split; [reflexivity|]. exact (Hend E).
Qed.

Lemma read_events_balance D r log :
  read_events D fresh = (Return tt, (r, log)) ->
  balance_inv (basic_reader.m_token_state r) log.
Proof.
  intros H.
  apply (for_each_inv _ basic_reader.record_event balance_inv token_balance) in H.
  - exact (proj2 H).
  - split; [reflexivity|]. split; [reflexivity | intros _; left; reflexivity].
Qed.

(** C8.  A call of [token] that delivers an item changes the height of
    the context stack by exactly one upwards for ObjectBegin/ArrayBegin, by
    exactly one downwards for ObjectEnd/ArrayEnd, and not at all otherwise.
    After any input read without error the stack holds exactly the
    containers that are still open: its height is the number of begins
    minus the number of ends, it is empty only if nothing was delivered yet
    or the last item is an end, and it is empty exactly when every begin has
    been closed by an end of its own kind. *)
Theorem stack_balance :
  (forall t r log r' log',
      basic_reader.token _ basic_reader.record_event t (r, log) = (Return tt, (r', log')) ->
      log' = log \/
      exists i,
        log' = log ++ [(i, basic_reader.m_data r, basic_reader.m_row r,
                        basic_reader.m_column r)] /\
        Z.of_nat (List.length (basic_reader.m_token_state r')) =
          Z.of_nat (List.length (basic_reader.m_token_state r)) + depth_change i) /\
  (forall D r log,
      read_events D fresh = (Return tt, (r, log)) ->
      matching [] (map item_of log) = Some (map kind_of (basic_reader.m_token_state r)) /\
      Z.of_nat (List.length (basic_reader.m_token_state r)) = depth (map item_of log) /\
      (basic_reader.m_token_state r = [] -> closed_record log) /\
      (basic_reader.m_token_state r = [] <-> matching [] (map item_of log) = Some [])).
Proof.
  split.
  - intros t r log r' log' H. apply token_recorded in H.
    destruct H as [(-> & _) | (i & -> & Hd & _)]; [left; reflexivity|].
    right. exists i. split; [reflexivity | exact Hd].
  - intros D r log H. apply read_events_balance in H. destruct H as [Hbal Hclosed].
    unfold balanced in Hbal. split; [exact Hbal|]. split.
    + apply matching_depth in Hbal. rewrite length_map in Hbal. cbn in Hbal. lia.
    + split; [exact Hclosed|]. rewrite Hbal. split.
      * intros ->. reflexivity.
      * intros E. inversion E as [E']. destruct (basic_reader.m_token_state r); [reflexivity | discriminate].
Qed.

Lemma stack_balance_witness :
  read_events sample fresh =
    (Return tt, (fst (snd (read_events sample fresh)), snd (snd (read_events sample fresh)))) /\
  matching [] (map item_of (snd (snd (read_events sample fresh)))) = Some [].
Proof.
  assert (H : read_events sample fresh =
              (Return tt, (fst (snd (read_events sample fresh)),
                           snd (snd (read_events sample fresh)))))
    by (vm_compute; reflexivity).
  split; [exact H|].
  destruct (proj2 stack_balance sample _ _ H) as (_ & _ & _ & H4).
  apply H4. vm_compute; reflexivity.
Defined.

(** ** The writer *)

Lemma for_each_put data : forall w out,
  basic_writer.for_each data basic_writer.put (w, out) = (Return tt, (w, out ++ data)).
Proof.
  induction data as [|c data IH]; intros w out; cbn [basic_writer.for_each].
  - rewrite app_nil_r. reflexivity.
  - unfold bind, basic_writer.put at 1, modify. cbn [fst snd].
    rewrite IH, <- app_assoc. reflexivity.
Qed.

Lemma token_eq data w out :
  basic_writer.token data (w, out) = (Return tt, (w, out ++ data)).
Proof. apply for_each_put. Qed.

Lemma encode_eq c w out :
  basic_writer.encode c (w, out) = (Return tt, (w, out ++ escape_chars c)).
Proof.
  unfold escape_chars, basic_writer.encode. if_cases;
    unfold bind, basic_writer.put, modify; cbn [fst snd app];
    rewrite <- ?app_assoc; reflexivity.
Qed.

Lemma for_each_encode data : forall w out,
  basic_writer.for_each data basic_writer.encode (w, out) =
    (Return tt, (w, out ++ escaped data)).
Proof.
  induction data as [|c data IH]; intros w out;
    cbn [basic_writer.for_each escaped flat_map].
  - rewrite app_nil_r. reflexivity.
  - unfold bind. rewrite encode_eq, IH, <- app_assoc. reflexivity.
Qed.

Lemma string_eq data w out :
  basic_writer.string data (w, out) = (Return tt, (w, out ++ quote data)).
Proof.
  unfold basic_writer.string, quote, bind.
  unfold basic_writer.put at 1, modify. cbn [fst snd].
  rewrite for_each_encode.
  unfold basic_writer.put, modify. cbn [fst snd].
  rewrite <- !app_assoc. reflexivity.
Qed.

Lemma endl_eq w out :
  basic_writer.endl (w, out) =
    (Return tt,
     (w, out ++ endl_chars (basic_writer.m_indent w)
                  (List.length (basic_writer.m_state w)))).
Proof.
  unfold basic_writer.endl, endl_chars, bind at 1.
  cbn [basic_writer.member gets fst].
  destruct (negb (basic_writer.m_indent w =? 0)).
  - unfold bind, basic_writer.put at 1, modify, basic_writer.fill_n. cbn [fst snd].
    rewrite for_each_put, <- app_assoc. reflexivity.
  - rewrite app_nil_r. reflexivity.
Qed.

Ltac writer_step :=
  first
    [ erewrite bind_Return; [|apply token_eq]
    | erewrite bind_Return; [|apply string_eq]
    | erewrite bind_Return; [|apply endl_eq]
    | erewrite bind_Return; [|reflexivity]
    | rewrite token_eq
    | rewrite string_eq
    | rewrite endl_eq ];
  cbn [basic_writer.m_state basic_writer.m_indent fst snd tl].

(** [write] is the transition function, and an illegal item changes
    nothing. *)
Lemma write_eq i data indent st out :
  basic_writer.write i data (basic_writer.mk_writer indent st, out) =
    match writer_next indent st i data with
    | Some (st', text) => (Return tt, (basic_writer.mk_writer indent st', out ++ text))
    | None =>
        (Throw (exception
                  match st with
                  | [] => "object or array begin expected"
                  | basic_writer.object_1_state :: _ => "object end or key expected"
                  | basic_writer.object_v_state :: _ => "value expected"
                  | basic_writer.object_n_state :: _ => "object end of key expected"
                  | _ => "array end of value expected"
                  end),
         (basic_writer.mk_writer indent st, out))
    end.
Proof.
  unfold basic_writer.write, bind at 1.
  cbn [basic_writer.member gets fst basic_writer.m_state].
  destruct st as [|[] rest]; destruct i;
    cbn [writer_next value_text opened option_map app]; try reflexivity;
    unfold basic_writer.push, basic_writer.pop, basic_writer.jump, basic_writer.update;
    repeat writer_step;
    unfold modify; cbn [basic_writer.m_state basic_writer.m_indent fst snd tl];
    rewrite <- ?app_assoc; reflexivity.
Qed.

(** C10.  When [write] throws, it throws a [json::exception] of row 0
    and column 0, and neither the context stack (nor the indent width) of
    the writer nor the characters sent to the output have changed. *)
Theorem write_throws_atomically :
  forall i data w out e w' out',
    basic_writer.write i data (w, out) = (Throw e, (w', out')) ->
    w' = w /\ out' = out /\
    exists what, e = json_exception what 0 0.
Proof.
  intros i data [indent st] out e w' out' H.
  rewrite write_eq in H.
  destruct (writer_next indent st i data) as [[st' text]|]; [discriminate H|].
  inversion H; subst. repeat split. eexists. reflexivity.
Qed.

Lemma write_throws_atomically_witness :
  fst (snd (basic_writer.write object_end [] (basic_writer.init, text "{}"))) =
    basic_writer.init /\
  snd (snd (basic_writer.write object_end [] (basic_writer.init, text "{}"))) = text "{}".
Proof.
  destruct (write_throws_atomically object_end [] basic_writer.init (text "{}")
              (exception "object or array begin expected")
              (fst (snd (basic_writer.write object_end [] (basic_writer.init, text "{}"))))
              (snd (snd (basic_writer.write object_end [] (basic_writer.init, text "{}"))))
              eq_refl) as (Hw & Hout & _).
  split; [exact Hw | exact Hout].
Defined.

(** [write] never runs out of fuel and never throws anything else. *)
Lemma write_total i data w out :
  fst (basic_writer.write i data (w, out)) <> OutOfFuel /\
  fst (basic_writer.write i data (w, out)) <> Throw bad_exception.
Proof.
  destruct w as [indent st]. rewrite write_eq.
  destruct (writer_next indent st i data) as [[st' text]|]; split; discriminate.
Qed.

(** Hence the reader that drives a writer never runs out of fuel either. *)
Lemma read_write_total range : total (read_write range).
Proof.
  apply for_each_total. intros i data row column [w out].
  exact (proj1 (write_total i data w out)).
Qed.

(** ** A second document *)

(** Only the two end tokens deliver an end item. *)
Lemma token_end_only t r log r' log' :
  basic_reader.token _ basic_reader.record_event t (r, log) = (Return tt, (r', log')) ->
  log' = log \/
  exists i d row col,
    log' = log ++ [(i, d, row, col)] /\
    (is_end i = true ->
     t = basic_reader.object_end_token \/ t = basic_reader.array_end_token).
Proof.
  destruct r as [stk st data row col u].
  destruct stk as [|top stk]; [|destruct top]; destruct t;
    intros H; cbv in H; inversion H; subst; clear H;
    first
      [ left; reflexivity
      | right; eexists _, _, _, _; split; [reflexivity|];
        intros E; first [discriminate E | left; reflexivity | right; reflexivity] ].
Qed.

(** A call of [scan] that delivers something leaves the lexer in
    [default_state]; if the character is to be scanned again, what was
    delivered is not an end. *)
Lemma scan_delivers c r log b r' log' :
  basic_reader.scan _ basic_reader.record_event c (r, log) = (Return b, (r', log')) ->
  log' = log \/
  (basic_reader.m_char_state r' = basic_reader.default_state /\
   exists i d row col,
     log' = log ++ [(i, d, row, col)] /\ (b = false -> is_end i = false)).
Proof.
  destruct r as [stk st data row col u].
  unfold basic_reader.scan. cbv zeta. unfold bind at 1.
  cbn [basic_reader.member gets fst basic_reader.m_char_state].
  destruct st; cbv beta iota;
    repeat match goal with
           | |- context [if ?b then _ else _] => destruct b eqn:?
           end;
    intros H;
    first
      [ discriminate H
      | apply bind_Return_inv in H; destruct H as ([] & [r1 log1] & H1 & H2);
        first
          [ apply token_end_only in H1;
            inversion H2; subst;
            destruct H1 as [-> | (i & d & row1 & col1 & -> & Hend)];
            [ left; reflexivity
            | right; split; [reflexivity|];
              exists i, d, row1, col1; split; [reflexivity|];
              intros Hb;
              first [ discriminate Hb
                    | destruct (is_end i); [|reflexivity];
                      destruct (Hend eq_refl); discriminate ] ]
          | apply unicode_returns in H1; destruct H1 as (v & -> & ->);
            first
              [ apply next_inv in H2; inversion H2; left; reflexivity
              | apply bind_Return_inv in H2; destruct H2 as ([] & [r2 log2] & H2 & H3);
                apply take_unicode_returns in H2; destruct H2 as (d & -> & ->);
                apply next_inv in H3; inversion H3; left; reflexivity ]
          | inversion H1; subst; inversion H2; left; reflexivity ]
      | inversion H; left; reflexivity ].
Qed.

(** After a character that made the reader deliver an end item, the lexer
    is in [default_state]. *)
Lemma feed_delivers_end c r log r' log' :
  basic_reader.feed _ basic_reader.record_event c (r, log) = (Return tt, (r', log')) ->
  (exists l e, log' = log ++ l ++ [e] /\ is_end (item_of e) = true) ->
  basic_reader.m_char_state r' = basic_reader.default_state.
Proof.
  intros H (l & e & Hlog & Hend).
  assert (Hnew : forall x, log' = log ++ [x] -> item_of x = item_of e).
  { intros x Hx. rewrite Hx in Hlog. apply app_inv_head in Hlog.
    change [x] with ([] ++ [x]) in Hlog. apply app_inj_tail in Hlog.
    destruct Hlog as [_ ->]. reflexivity. }
  assert (Hsame : log' <> log).
  { intros E. rewrite E in Hlog. rewrite <- (app_nil_r log) in Hlog at 1.
    apply app_inv_head in Hlog. destruct l; discriminate Hlog. }
  unfold basic_reader.feed, basic_reader.operator_call in H.
  apply bind_Return_inv in H. destruct H as (n & [r1 log1] & Hloop & Hmove).
  rewrite move_eq in Hmove. inversion Hmove; subst r' log1. clear Hmove.
  assert (Hgoal : basic_reader.m_char_state r1 = basic_reader.default_state);
    [|unfold moved; destruct (Ascii.eqb c newline); exact Hgoal].
  cbn [basic_reader.scan_loop] in Hloop.
  apply bind_Return_inv in Hloop. destruct Hloop as (b & [ra loga] & Hscan & Hrest).
  apply scan_delivers in Hscan. destruct b.
  - inversion Hrest; subst.
    destruct Hscan as [E | [Hdef _]]; [contradiction | exact Hdef].
  - apply bind_Return_inv in Hrest. destruct Hrest as (m & [rb logb] & Hloop & Hret).
    inversion Hret; subst rb logb. clear Hret.
    apply bind_Return_inv in Hloop. destruct Hloop as (b2 & [rc logc] & Hscan2 & Hrest).
    destruct b2; [|discriminate Hrest]. inversion Hrest; subst rc logc. clear Hrest.
    apply scan_delivers in Hscan2.
    destruct Hscan2 as [E2 | [Hdef _]]; [|exact Hdef].
    subst log'. destruct Hscan as [E | (_ & i & d & row & col & E & Hni)];
      [contradiction|].
    specialize (Hnew _ E). specialize (Hni eq_refl).
    unfold item_of in Hnew at 1. cbn in Hnew. rewrite <- Hnew in Hend. congruence.
Qed.

(** C9.  When a character has just made the reader deliver the end item
    that empties the context stack, an opening brace or bracket fed next is
    accepted: the reader delivers a new ObjectBegin (ArrayBegin) item and is
    inside a second document. *)
Theorem second_document_accepted :
  forall D c r log r' log',
    read_events D fresh = (Return tt, (r, log)) ->
    basic_reader.feed _ basic_reader.record_event c (r, log) = (Return tt, (r', log')) ->
    (exists l e, log' = log ++ l ++ [e] /\ is_end (item_of e) = true) ->
    basic_reader.m_token_state r' = [] ->
    (exists r1,
        read_events (D ++ [c] ++ text "{") fresh =
          (Return tt,
           (r1, log' ++ [(object_begin, [], basic_reader.m_row r',
                          basic_reader.m_column r')])) /\
        basic_reader.m_token_state r1 = [basic_reader.object_1_state]) /\
    (exists r1,
        read_events (D ++ [c] ++ text "[") fresh =
          (Return tt,
           (r1, log' ++ [(array_begin, [], basic_reader.m_row r',
                          basic_reader.m_column r')])) /\
        basic_reader.m_token_state r1 = [basic_reader.array_1_state]).
Proof.
  intros D c r log r' log' HD Hfeed Hend Hstk.
  pose proof (feed_delivers_end _ _ _ _ _ Hfeed Hend) as Hdef.
  assert (Hinv : lexer_inv balance_inv (r', log')).
  { eapply feed_inv; [exact token_balance| |exact Hfeed].
    eapply for_each_inv; [exact token_balance| |exact HD].
    split; [reflexivity|]. split; [reflexivity | intros _; left; reflexivity]. }
  destruct Hinv as [Hbuf _]. unfold buffer_ok in Hbuf. cbn [fst] in Hbuf.
  rewrite Hdef in Hbuf.
  destruct r' as [stk' st' data' row' col' u']. cbn in Hstk, Hdef, Hbuf. subst.
  assert (Hread : read_events (D ++ [c]) fresh =
                  (Return tt,
                   ({| basic_reader.m_token_state := [];
                       basic_reader.m_char_state := basic_reader.default_state;
                       basic_reader.m_data := [];
                       basic_reader.m_row := row';
                       basic_reader.m_column := col';
                       basic_reader.m_unicode := u' |}, log'))).
  { unfold read_events. rewrite for_each_app.
    unfold read_events in HD. rewrite (bind_Return _ _ _ _ _ HD).
    cbn [basic_reader.for_each]. rewrite (bind_Return _ _ _ _ _ Hfeed). reflexivity. }
  split; eexists; rewrite app_assoc; unfold read_events; rewrite for_each_app;
    unfold read_events in Hread; rewrite (bind_Return _ _ _ _ _ Hread);
    (split; [reflexivity|]); reflexivity.
Qed.

Lemma second_document_accepted_witness :
  events_of (read_events (text "{}{") fresh) =
    [(object_begin, []); (object_end, []); (object_begin, [])] /\
  events_of (read_events (text "{}[") fresh) =
    [(object_begin, []); (object_end, []); (array_begin, [])].
Proof.
  destruct (second_document_accepted (text "{") "}"%char
              (fst (snd (read_events (text "{") fresh)))
              (snd (snd (read_events (text "{") fresh)))
              (fst (snd (read_events (text "{}") fresh)))
              (snd (snd (read_events (text "{}") fresh)))
              eq_refl eq_refl
              (ex_intro _ [] (ex_intro _ (object_end, [], 1, 2) (conj eq_refl eq_refl)))
              eq_refl) as [(r1 & H1 & _) (r2 & H2 & _)].
  split.
  - change (text "{}{") with (text "{" ++ ["}"%char] ++ text "{").
    rewrite H1. reflexivity.
  - change (text "{}[") with (text "{" ++ ["}"%char] ++ text "[").
    rewrite H2. reflexivity.
Defined.

(** ** Round trip *)

(** *** What the reader delivers, a writer accepts *)

Lemma writer_run_app indent items1 : forall st items2,
  writer_run indent st (items1 ++ items2) =
    match writer_run indent st items1 with
    | Some (st', out1) =>
        match writer_run indent st' items2 with
        | Some (st'', out2) => Some (st'', out1 ++ out2)
        | None => None
        end
    | None => None
    end.
Proof.
  induction items1 as [|[i d] items1 IH]; intros st items2.
  - cbn [app writer_run]. destruct (writer_run indent st items2) as [[st' out]|]; reflexivity.
  - cbn [app writer_run].
    destruct (writer_next indent st i d) as [[st1 text]|]; [|reflexivity].
    rewrite IH. destruct (writer_run indent st1 items1) as [[st2 out1]|]; [|reflexivity].
    destruct (writer_run indent st2 items2) as [[st3 out2]|]; [|reflexivity].
    rewrite app_assoc. reflexivity.
Qed.

Lemma replay_eq indent items : forall st out st' text,
  writer_run indent st items = Some (st', text) ->
  basic_writer.replay items (basic_writer.mk_writer indent st, out) =
    (Return tt, (basic_writer.mk_writer indent st', out ++ text)).
Proof.
  induction items as [|[i d] items IH]; intros st out st' text H.
  - inversion H; subst. rewrite app_nil_r. reflexivity.
  - cbn [writer_run] in H. cbn [basic_writer.replay].
    destruct (writer_next indent st i d) as [[st1 text1]|] eqn:E1; [|discriminate H].
    destruct (writer_run indent st1 items) as [[st2 out2]|] eqn:E2; [|discriminate H].
    inversion H; subst. unfold bind. rewrite write_eq, E1.
    rewrite (IH _ _ _ _ E2), app_assoc. reflexivity.
Qed.

Lemma token_replayable indent t r log r' log' :
  replayable indent (basic_reader.m_token_state r) log ->
  token_data_ok t (basic_reader.m_data r) ->
  basic_reader.token _ basic_reader.record_event t (r, log) = (Return tt, (r', log')) ->
  replayable indent (basic_reader.m_token_state r') log'.
Proof.
  destruct r as [stk st data row col u].
  cbn [basic_reader.m_token_state basic_reader.m_data].
  intros [Hvalid (out & Hrun)] Hdata H.
  destruct stk as [|top stk]; [|destruct top]; destruct t;
    cbv in H; inversion H; subst; clear H;
    first
      [ (* nothing delivered *)
        split; [exact Hvalid | exists out; exact Hrun]
      | (* one item delivered *)
        split;
        [ rewrite map_app; apply Forall_app; split; [exact Hvalid|];
          constructor; [exact Hdata | constructor]
        | rewrite map_app, writer_run_app, Hrun;
          cbn [map payload writer_run writer_next writer_context value_text opened
               option_map app];
          eexists; reflexivity ] ].
Qed.

Lemma read_events_replayable indent D r log :
  read_events D fresh = (Return tt, (r, log)) ->
  replayable indent (basic_reader.m_token_state r) log.
Proof.
  intros H.
  apply (for_each_inv _ basic_reader.record_event (replayable indent)
           (token_replayable indent)) in H.
  - exact (proj2 H).
  - split; [reflexivity|]. split; [constructor|]. exists []. reflexivity.
Qed.

(** *** What a writer wrote, the reader reads back *)

Lemma records_nil r : records [] r [] r.
Proof.
  intros row col log. exists row, col, log. split; [reflexivity|].
  rewrite app_nil_r. reflexivity.
Qed.

Lemma records_app cs1 cs2 r1 evs1 r2 evs2 r3 :
  records cs1 r1 evs1 r2 -> records cs2 r2 evs2 r3 ->
  records (cs1 ++ cs2) r1 (evs1 ++ evs2) r3.
Proof.
  intros H1 H2 row col log.
  destruct (H1 row col log) as (row1 & col1 & log1 & E1 & P1).
  destruct (H2 row1 col1 log1) as (row2 & col2 & log2 & E2 & P2).
  exists row2, col2, log2. split.
  - unfold read_events in *. rewrite for_each_app, (bind_Return _ _ _ _ _ E1). exact E2.
  - rewrite P2, P1, app_assoc. reflexivity.
Qed.

Lemma silent_records cs r r' :
  silent basic_reader.record_event cs r r' -> records cs r [] r'.
Proof.
  intros H row col log. destruct (H row col log) as (row' & col' & E).
  exists row', col', log. split; [exact E|]. rewrite app_nil_r. reflexivity.
Qed.

Ltac records_by_evaluation :=
  intros ?row ?col ?log; unfold read_events;
  match goal with
  | |- context [basic_reader.for_each ?E ?cb ?cs ?w] =>
      let cs' := eval cbv in cs in
      let v := eval lazy -[app size_incr] in (basic_reader.for_each E cb cs' w) in
      change (basic_reader.for_each E cb cs w) with v
  end;
  eexists _, _, _; split;
  [ reflexivity
  | rewrite ?map_app; cbn [map payload]; rewrite ?app_nil_r; reflexivity ].

(** White space between tokens. *)
Lemma silent_space c stk row col u :
  isspace c = true ->
  silent basic_reader.record_event [c]
    (basic_reader.mk_reader stk basic_reader.default_state [] row col u)
    (basic_reader.mk_reader stk basic_reader.default_state [] row col u).
Proof.
  intros Hc. apply silent_scan. intros row0 col0 env.
  unfold basic_reader.scan. cbv zeta. unfold bind at 1.
  unfold basic_reader.set_position.
  cbn [basic_reader.member gets fst basic_reader.m_token_state
       basic_reader.m_char_state basic_reader.m_data basic_reader.m_unicode].
  rewrite Hc. reflexivity.
Qed.

Lemma silent_spaces cs stk row col u :
  Forall (fun c => isspace c = true) cs ->
  silent basic_reader.record_event cs
    (basic_reader.mk_reader stk basic_reader.default_state [] row col u)
    (basic_reader.mk_reader stk basic_reader.default_state [] row col u).
Proof.
  induction 1 as [|c cs Hc _ IH]; [apply silent_nil|].
  eapply silent_cons; [apply silent_space; exact Hc | exact IH].
Qed.

Lemma endl_chars_space indent depth :
  Forall (fun c => isspace c = true) (endl_chars indent depth).
Proof.
  unfold endl_chars. destruct (negb (indent =? 0)); [|constructor].
  constructor; [reflexivity|].
  induction (Z.to_nat (size_mul (Z.of_nat depth) indent)) as [|n IH];
    cbn [List.repeat]; constructor; [reflexivity | exact IH].
Qed.

Lemma records_endl indent depth stk row col u :
  records (endl_chars indent depth)
    (basic_reader.mk_reader stk basic_reader.default_state [] row col u) []
    (basic_reader.mk_reader stk basic_reader.default_state [] row col u).
Proof. apply silent_records, silent_spaces, endl_chars_space. Qed.

(** The text of a number. *)
Lemma silent_number_run p : forall st st' stk data row col u,
  in_number st = true ->
  number_run st p = Some st' ->
  silent basic_reader.record_event p
    (basic_reader.mk_reader stk st data row col u)
    (basic_reader.mk_reader stk st' (data ++ p) row col u).
Proof.
  induction p as [|c p IH]; intros st st' stk data row col u Hst H.
  - inversion H; subst. rewrite app_nil_r. apply silent_nil.
  - cbn [number_run] in H.
    destruct (number_step st c) as [st1|] eqn:E; [|discriminate H].
    apply (silent_cons _ _ c p _ (basic_reader.mk_reader stk st1 (data ++ [c]) row col u)).
    + apply silent_scan. intros row0 col0 env.
      unfold basic_reader.set_position.
      cbn [basic_reader.m_token_state basic_reader.m_char_state
           basic_reader.m_data basic_reader.m_unicode].
      rewrite scan_number by exact Hst. rewrite E. reflexivity.
    + replace (data ++ c :: p) with ((data ++ [c]) ++ p)
        by (rewrite <- app_assoc; reflexivity).
      apply IH; [|exact H]. apply number_step_in_number in E. apply E.
Qed.

Lemma silent_number p st stk row col u :
  lexes p = Some st ->
  silent basic_reader.record_event p
    (basic_reader.mk_reader stk basic_reader.default_state [] row col u)
    (basic_reader.mk_reader stk st p row col u).
Proof.
  destruct p as [|c p]; [discriminate|]. cbn [lexes].
  destruct (number_start c) as [s0|] eqn:E; [|discriminate]. intros H.
  apply (silent_cons _ _ c p _ (basic_reader.mk_reader stk s0 [c] row col u)).
  - apply silent_scan. intros row0 col0 env.
    unfold basic_reader.set_position.
    cbn [basic_reader.m_token_state basic_reader.m_char_state
         basic_reader.m_data basic_reader.m_unicode].
    rewrite (scan_number_start _ _ _ _ _ _ _ _ _ _ E). reflexivity.
  - apply (silent_number_run p s0 st stk [c] row col u); [|exact H].
    apply number_start_in_number in E. exact E.
Qed.

(** A key or a string value: the text between the quotes is taken back
    as the payload. *)
Lemma silent_quoted d stk row col u :
  silent basic_reader.record_event (dquote :: escaped d)
    (basic_reader.mk_reader stk basic_reader.default_state [] row col u)
    (basic_reader.mk_reader stk basic_reader.string_state d row col u).
Proof.
  apply (silent_cons _ _ _ _ _
           (basic_reader.mk_reader stk basic_reader.string_state [] row col u)).
  - apply silent_scan. intros; reflexivity.
  - apply (silent_escaped _ basic_reader.record_event d stk [] row col u).
Qed.

Lemma records_key d top rest row col u :
  top = basic_reader.object_1_state \/ top = basic_reader.object_2_state ->
  records (quote d ++ basic_writer.colon_data)
    (basic_reader.mk_reader (top :: rest) basic_reader.default_state [] row col u)
    [(key, d)]
    (basic_reader.mk_reader (basic_reader.object_v_state :: rest)
       basic_reader.default_state [] row col u).
Proof.
  intros Htop. unfold quote.
  change (dquote :: escaped d ++ [dquote]) with ((dquote :: escaped d) ++ [dquote]).
  rewrite <- app_assoc.
  apply (records_app _ _ _ []
           (basic_reader.mk_reader (top :: rest) basic_reader.string_state d row col u)
           [(key, d)]);
    [apply silent_records, silent_quoted|].
  destruct Htop as [-> | ->]; records_by_evaluation.
Qed.

Lemma records_string d top_w top_r rest row col u :
  value_position top_w top_r ->
  records (quote d)
    (basic_reader.mk_reader (top_r :: rest) basic_reader.default_state [] row col u)
    [(string_value, d)]
    (basic_reader.mk_reader (reader_context top_w :: rest)
       basic_reader.default_state [] row col u).
Proof.
  intros Htop. unfold quote.
  change (dquote :: escaped d ++ [dquote]) with ((dquote :: escaped d) ++ [dquote]).
  apply (records_app _ _ _ []
           (basic_reader.mk_reader (top_r :: rest) basic_reader.string_state d row col u)
           [(string_value, d)]);
    [apply silent_records, silent_quoted|].
  destruct Htop as [[-> ->] | [-> [-> | ->]]]; records_by_evaluation.
Qed.

(** A value, written where the writer expects one and read where the
    reader expects one. *)
Lemma records_value top_w top_r rest_w i d vt row col u :
  value_position top_w top_r ->
  value_text i d = Some vt ->
  valid_event (i, d) ->
  exists r' evs pending,
    records vt
      (basic_reader.mk_reader (top_r :: map reader_context rest_w)
         basic_reader.default_state [] row col u) evs r' /\
    in_step (opened i ++ top_w :: rest_w) r' pending /\
    evs ++ pending_items pending = [(i, d)].
Proof.
  intros Htop Hvt Hvalid.
  destruct i; cbn [value_text] in Hvt; inversion Hvt; subst vt; clear Hvt;
    unfold valid_event in Hvalid; cbn [fst snd] in Hvalid.
  - (* object_begin *)
    subst d.
    exists (basic_reader.mk_reader
              (basic_reader.object_1_state :: reader_context top_w :: map reader_context rest_w)
              basic_reader.default_state [] row col u), [(object_begin, [])], None.
    split; [|split; [repeat split|reflexivity]].
    destruct Htop as [[-> ->] | [-> [-> | ->]]]; records_by_evaluation.
  - (* array_begin *)
    subst d.
    exists (basic_reader.mk_reader
              (basic_reader.array_1_state :: reader_context top_w :: map reader_context rest_w)
              basic_reader.default_state [] row col u), [(array_begin, [])], None.
    split; [|split; [repeat split|reflexivity]].
    destruct Htop as [[-> ->] | [-> [-> | ->]]]; records_by_evaluation.
  - (* string_value *)
    exists (basic_reader.mk_reader (reader_context top_w :: map reader_context rest_w)
              basic_reader.default_state [] row col u), [(string_value, d)], None.
    split; [|split; [repeat split|reflexivity]].
    apply records_string. exact Htop.
  - (* integer_value *)
    assert (exists st, lexes d = Some st /\ terminal integer_value st) as (st & Hlex & Hterm).
    { destruct Hvalid as [H|H]; eexists; (split; [exact H|]); cbn; auto. }
    exists (basic_reader.mk_reader (top_r :: map reader_context rest_w) st d row col u),
      [], (Some (integer_value, d)).
    split; [apply silent_records, silent_number; exact Hlex|].
    split; [|reflexivity].
    cbn [in_step basic_reader.m_char_state basic_reader.m_data basic_reader.m_token_state
         opened app].
    repeat split; try assumption. exists top_w, rest_w, top_r. repeat split. exact Htop.
  - (* real_value *)
    assert (exists st, lexes d = Some st /\ terminal real_value st) as (st & Hlex & Hterm).
    { destruct Hvalid as [H|H]; eexists; (split; [exact H|]); cbn; auto. }
    exists (basic_reader.mk_reader (top_r :: map reader_context rest_w) st d row col u),
      [], (Some (real_value, d)).
    split; [apply silent_records, silent_number; exact Hlex|].
    split; [|reflexivity].
    cbn [in_step basic_reader.m_char_state basic_reader.m_data basic_reader.m_token_state
         opened app].
    repeat split; try assumption. exists top_w, rest_w, top_r. repeat split. exact Htop.
  - (* null_value *)
    subst d.
    exists (basic_reader.mk_reader (reader_context top_w :: map reader_context rest_w)
              basic_reader.default_state [] row col u), [(null_value, [])], None.
    split; [|split; [repeat split|reflexivity]].
    destruct Htop as [[-> ->] | [-> [-> | ->]]]; records_by_evaluation.
  - (* true_value *)
    subst d.
    exists (basic_reader.mk_reader (reader_context top_w :: map reader_context rest_w)
              basic_reader.default_state [] row col u), [(true_value, [])], None.
    split; [|split; [repeat split|reflexivity]].
    destruct Htop as [[-> ->] | [-> [-> | ->]]]; records_by_evaluation.
  - (* false_value *)
    subst d.
    exists (basic_reader.mk_reader (reader_context top_w :: map reader_context rest_w)
              basic_reader.default_state [] row col u), [(false_value, [])], None.
    split; [|split; [repeat split|reflexivity]].
    destruct Htop as [[-> ->] | [-> [-> | ->]]]; records_by_evaluation.
Qed.

(** The character that ends a number: the number is delivered, and the
    character is read as if the number had been delivered before. *)
Lemma number_ends st c i :
  terminal i st -> terminator c -> number_step st c = None /\ in_number st = true.
Proof.
  intros Hterm Hc.
  destruct i; cbn [terminal] in Hterm; try contradiction;
    destruct Hterm as [-> | ->];
    destruct Hc as [-> | [-> | [-> | ->]]]; split; reflexivity.
Qed.

Lemma terminal_in_number i st : terminal i st -> in_number st = true.
Proof.
  destruct i; cbn [terminal]; try contradiction; intros [-> | ->]; reflexivity.
Qed.

Lemma records_flush c cs i d st top_w top_r rest evs r' row col u :
  terminal i st ->
  number_step st c = None ->
  value_position top_w top_r ->
  records (c :: cs)
    (basic_reader.mk_reader (reader_context top_w :: rest)
       basic_reader.default_state [] row col u) evs r' ->
  records (c :: cs)
    (basic_reader.mk_reader (top_r :: rest) st d row col u) ((i, d) :: evs) r'.
Proof.
  intros Hterm Hstep Htop H row0 col0 log.
  pose proof (terminal_in_number _ _ Hterm) as Hnum.
  destruct (H row0 col0 (log ++ [(i, d, row0, col0)])) as (row' & col' & log' & E & P).
  exists row', col', log'. split.
  - unfold read_events in *. cbn [basic_reader.for_each] in *. unfold bind in *.
    rewrite <- E. unfold basic_reader.set_position.
    cbn [basic_reader.m_token_state basic_reader.m_char_state basic_reader.m_data
         basic_reader.m_unicode].
    erewrite feed_again; [reflexivity|].
    rewrite scan_number by exact Hnum. rewrite Hstep.
    destruct i; cbn [terminal] in Hterm; try contradiction;
      destruct Hterm as [-> | ->];
      destruct Htop as [[-> ->] | [-> [-> | ->]]]; reflexivity.
  - rewrite P, map_app. cbn [map payload]. rewrite <- app_assoc. reflexivity.
Qed.

(** The first character of what the writer writes after a value. *)
Lemma writer_next_after_value indent top_w rest i d ws' text :
  top_w = basic_writer.object_n_state \/ top_w = basic_writer.array_n_state ->
  writer_next indent (top_w :: rest) i d = Some (ws', text) ->
  exists c cs, text = c :: cs /\ terminator c.
Proof.
  unfold terminator.
  intros [-> | ->] H; destruct i; cbn in H; inversion H; subst;
    unfold endl_chars; destruct (negb (indent =? 0)); cbn [app];
    eexists _, _; (split; [reflexivity|]); auto.
Qed.

Lemma records_prefixed_value prefix top_w top_r0 top_r rest_w i d vt row col u :
  records prefix
    (basic_reader.mk_reader (top_r0 :: map reader_context rest_w)
       basic_reader.default_state [] row col u) []
    (basic_reader.mk_reader (top_r :: map reader_context rest_w)
       basic_reader.default_state [] row col u) ->
  value_position top_w top_r ->
  value_text i d = Some vt ->
  valid_event (i, d) ->
  exists r' evs pending,
    records (prefix ++ vt)
      (basic_reader.mk_reader (top_r0 :: map reader_context rest_w)
         basic_reader.default_state [] row col u) evs r' /\
    in_step (opened i ++ top_w :: rest_w) r' pending /\
    evs ++ pending_items pending = [(i, d)].
Proof.
  intros Hprefix Htop Hvt Hvalid.
  destruct (records_value top_w top_r rest_w i d vt row col u Htop Hvt Hvalid)
    as (r' & evs & pending & Hrec & Hstep & Hevs).
  exists r', evs, pending. split; [|split; assumption].
  exact (records_app _ _ _ _ _ _ _ Hprefix Hrec).
Qed.

Lemma records_comma_endl indent depth top top' rest row col u :
  (top = basic_reader.object_n_state /\ top' = basic_reader.object_2_state) \/
  (top = basic_reader.array_n_state /\ top' = basic_reader.array_v_state) ->
  records (basic_writer.comma_data ++ endl_chars indent depth)
    (basic_reader.mk_reader (top :: rest) basic_reader.default_state [] row col u) []
    (basic_reader.mk_reader (top' :: rest) basic_reader.default_state [] row col u).
Proof.
  intros Htop.
  apply (records_app _ _ _ []
           (basic_reader.mk_reader (top' :: rest) basic_reader.default_state [] row col u) []);
    [|apply records_endl].
  destruct Htop as [[-> ->] | [-> ->]]; records_by_evaluation.
Qed.

Lemma records_endl_end indent depth top rest row col u :
  (top = basic_reader.object_1_state \/ top = basic_reader.object_n_state) ->
  records (endl_chars indent depth ++ basic_writer.object_end_data)
    (basic_reader.mk_reader (top :: rest) basic_reader.default_state [] row col u)
    [(object_end, [])]
    (basic_reader.mk_reader rest basic_reader.default_state [] row col u).
Proof.
  intros Htop.
  apply (records_app _ _ _ []
           (basic_reader.mk_reader (top :: rest) basic_reader.default_state [] row col u)
           [(object_end, [])]);
    [apply records_endl|].
  destruct Htop as [-> | ->]; records_by_evaluation.
Qed.

Lemma records_endl_array_end indent depth top rest row col u :
  (top = basic_reader.array_1_state \/ top = basic_reader.array_n_state) ->
  records (endl_chars indent depth ++ basic_writer.array_end_data)
    (basic_reader.mk_reader (top :: rest) basic_reader.default_state [] row col u)
    [(array_end, [])]
    (basic_reader.mk_reader rest basic_reader.default_state [] row col u).
Proof.
  intros Htop.
  apply (records_app _ _ _ []
           (basic_reader.mk_reader (top :: rest) basic_reader.default_state [] row col u)
           [(array_end, [])]);
    [apply records_endl|].
  destruct Htop as [-> | ->]; records_by_evaluation.
Qed.

Lemma some_pair {A B : Type} (a a' : A) (b b' : B) :
  Some (a, b) = Some (a', b') -> a = a' /\ b = b'.
Proof. intros H; inversion H; split; reflexivity. Qed.

Ltac delivered r evs :=
  exists r, evs, None; split; [|split; [repeat split|reflexivity]].

(** One item, written by the writer and read by a reader that has
    delivered all the items before. *)
Lemma step_delivered indent ws i d ws' text row col u :
  writer_next indent ws i d = Some (ws', text) ->
  valid_event (i, d) ->
  exists r' evs pending,
    records text
      (basic_reader.mk_reader (map reader_context ws) basic_reader.default_state
         [] row col u) evs r' /\
    in_step ws' r' pending /\
    evs ++ pending_items pending = [(i, d)].
Proof.
  intros H Hvalid.
  destruct ws as [|top rest]; [|destruct top].
  - (* no context *)
    destruct i; cbn in H; try discriminate H; destruct (some_pair _ _ _ _ H) as [<- <-]; clear H;
      unfold valid_event in Hvalid; cbn [fst snd] in Hvalid; subst d.
    + delivered (basic_reader.mk_reader [basic_reader.object_1_state]
                   basic_reader.default_state [] row col u) [(object_begin, @nil ascii)].
      records_by_evaluation.
    + delivered (basic_reader.mk_reader [basic_reader.array_1_state]
                   basic_reader.default_state [] row col u) [(array_begin, @nil ascii)].
      records_by_evaluation.
  - (* object_1_state *)
    destruct i; cbn [writer_next] in H; try discriminate H; destruct (some_pair _ _ _ _ H) as [<- <-]; clear H.
    + unfold valid_event in Hvalid; cbn [fst snd] in Hvalid; subst d.
      delivered (basic_reader.mk_reader (map reader_context rest)
                   basic_reader.default_state [] row col u) [(object_end, @nil ascii)].
      apply (records_endl_end 0 0). left; reflexivity.
    + delivered (basic_reader.mk_reader
                   (basic_reader.object_v_state :: map reader_context rest)
                   basic_reader.default_state [] row col u) [(key, d)].
      apply (records_app _ _ _ [] _ [(key, d)] _ (records_endl _ _ _ _ _ _)).
      apply records_key. left; reflexivity.
  - (* object_v_state *)
    cbn [writer_next] in H.
    destruct (value_text i d) as [vt|] eqn:Evt; [|discriminate H].
    destruct (some_pair _ _ _ _ H) as [<- <-]; clear H.
    apply (records_prefixed_value [] basic_writer.object_n_state
             basic_reader.object_v_state basic_reader.object_v_state);
      [apply records_nil | left; split; reflexivity | exact Evt | exact Hvalid].
  - (* object_n_state *)
    destruct i; cbn [writer_next] in H; try discriminate H; destruct (some_pair _ _ _ _ H) as [<- <-]; clear H.
    + unfold valid_event in Hvalid; cbn [fst snd] in Hvalid; subst d.
      delivered (basic_reader.mk_reader (map reader_context rest)
                   basic_reader.default_state [] row col u) [(object_end, @nil ascii)].
      apply records_endl_end. right; reflexivity.
    + delivered (basic_reader.mk_reader
                   (basic_reader.object_v_state :: map reader_context rest)
                   basic_reader.default_state [] row col u) [(key, d)].
      rewrite app_assoc.
      apply (records_app _ _ _ []
               (basic_reader.mk_reader
                  (basic_reader.object_2_state :: map reader_context rest)
                  basic_reader.default_state [] row col u) [(key, d)]).
      * apply records_comma_endl. left; split; reflexivity.
      * apply records_key. right; reflexivity.
  - (* array_1_state *)
    destruct i; cbn [writer_next option_map value_text] in H;
      try discriminate H; destruct (some_pair _ _ _ _ H) as [<- <-]; clear H;
      try (eapply (records_prefixed_value _ basic_writer.array_n_state
                     basic_reader.array_1_state basic_reader.array_1_state);
           [ apply records_endl | right; split; [reflexivity | left; reflexivity]
           | reflexivity | exact Hvalid ]).
    unfold valid_event in Hvalid; cbn [fst snd] in Hvalid; subst d.
    delivered (basic_reader.mk_reader (map reader_context rest)
                 basic_reader.default_state [] row col u) [(array_end, @nil ascii)].
    apply (records_endl_array_end 0 0). left; reflexivity.
  - (* array_n_state *)
    destruct i; cbn [writer_next option_map value_text] in H;
      try discriminate H; destruct (some_pair _ _ _ _ H) as [<- <-]; clear H;
      try (rewrite app_assoc;
           eapply (records_prefixed_value _ basic_writer.array_n_state
                     basic_reader.array_n_state basic_reader.array_v_state);
           [ apply records_comma_endl; right; split; reflexivity
           | right; split; [reflexivity | right; reflexivity]
           | reflexivity | exact Hvalid ]).
    unfold valid_event in Hvalid; cbn [fst snd] in Hvalid; subst d.
    delivered (basic_reader.mk_reader (map reader_context rest)
                 basic_reader.default_state [] row col u) [(array_end, @nil ascii)].
    apply records_endl_array_end. right; reflexivity.
Qed.

(** One item, whether or not the reader still holds a number. *)
Lemma step indent ws r pending i d ws' text :
  in_step ws r pending ->
  writer_next indent ws i d = Some (ws', text) ->
  valid_event (i, d) ->
  exists r' evs pending',
    records text r evs r' /\
    in_step ws' r' pending' /\
    evs ++ pending_items pending' = pending_items pending ++ [(i, d)].
Proof.
  intros Hstep Hnext Hvalid.
  destruct r as [stk st data row col u].
  destruct pending as [[i0 d0]|];
    cbn [in_step basic_reader.m_char_state basic_reader.m_data
         basic_reader.m_token_state] in Hstep.
  - destruct Hstep as (Hterm & Hlex & -> & top_w & rest & top_r & -> & -> & Htop).
    assert (Hw : top_w = basic_writer.object_n_state \/ top_w = basic_writer.array_n_state)
      by (destruct Htop as [[-> _] | [-> _]]; auto).
    destruct (writer_next_after_value _ _ _ _ _ _ _ Hw Hnext) as (c & cs & -> & Hc).
    destruct (step_delivered indent (top_w :: rest) i d ws' (c :: cs) row col u
                Hnext Hvalid) as (r' & evs & pending' & Hrec & Hstep' & Hevs).
    exists r', ((i0, d0) :: evs), pending'. split; [|split; [exact Hstep'|]].
    + eapply records_flush; try eassumption.
      exact (proj1 (number_ends _ _ _ Hterm Hc)).
    + cbn [pending_items app]. rewrite Hevs. reflexivity.
  - destruct Hstep as (-> & -> & ->).
    exact (step_delivered indent ws i d ws' text row col u Hnext Hvalid).
Qed.

(** A whole stream of items. *)
Lemma reread indent items : forall ws r pending ws' out,
  Forall valid_event items ->
  writer_run indent ws items = Some (ws', out) ->
  in_step ws r pending ->
  exists r' evs pending',
    records out r evs r' /\
    in_step ws' r' pending' /\
    evs ++ pending_items pending' = pending_items pending ++ items.
Proof.
  induction items as [|[i d] items IH]; intros ws r pending ws' out Hvalid Hrun Hstep.
  - inversion Hrun; subst. exists r, [], pending.
    split; [apply records_nil|]. split; [exact Hstep|].
    rewrite app_nil_r. reflexivity.
  - cbn [writer_run] in Hrun.
    destruct (writer_next indent ws i d) as [[ws1 text]|] eqn:Enext; [|discriminate Hrun].
    destruct (writer_run indent ws1 items) as [[ws2 out2]|] eqn:Erun; [|discriminate Hrun].
    inversion Hrun; subst. inversion Hvalid as [|? ? Hv Hvs]; subst.
    destruct (step indent ws r pending i d ws1 text Hstep Enext Hv)
      as (r1 & evs1 & pending1 & Hrec1 & Hstep1 & Hevs1).
    destruct (IH ws1 r1 pending1 ws' out2 Hvs Erun Hstep1)
      as (r2 & evs2 & pending2 & Hrec2 & Hstep2 & Hevs2).
    exists r2, (evs1 ++ evs2), pending2.
    split; [exact (records_app _ _ _ _ _ _ _ Hrec1 Hrec2)|]. split; [exact Hstep2|].
    rewrite <- app_assoc, Hevs2, app_assoc, Hevs1, <- app_assoc. reflexivity.
Qed.


(** ** Documents of the grammar *)

(** *** Numbers *)

Lemma number_run_app p1 : forall st p2,
  number_run st (p1 ++ p2) =
    match number_run st p1 with
    | Some st' => number_run st' p2
    | None => None
    end.
Proof.
  induction p1 as [|c p1 IH]; intros st p2; [reflexivity|].
  cbn [app number_run]. destruct (number_step st c); [apply IH | reflexivity].
Qed.

Lemma number_run_digits st ds :
  st = basic_reader.integer_n_state \/ st = basic_reader.fractional_n_state \/
  st = basic_reader.exponent_n_state ->
  digits ds -> number_run st ds = Some st.
Proof.
  intros Hst Hds. induction Hds as [|d ds Hd _ IH]; [reflexivity|].
  cbn [number_run].
  destruct Hst as [-> | [-> | ->]]; cbn [number_step]; rewrite Hd; exact IH.
Qed.

Lemma digit_not_minus d : isdigit d = true -> Ascii.eqb d "-" = false.
Proof.
  intros Hd. destruct (Ascii.eqb_spec d "-") as [->|_]; [discriminate Hd | reflexivity].
Qed.

(** After the optional minus and the integer part the lexer is in one of
    the two states in which an integer can end. *)
Lemma lexes_int m i :
  optional minus_part m -> int_part i ->
  exists st,
    (st = basic_reader.integer_n_state \/ st = basic_reader.integer_z_state) /\
    forall rest, lexes (m ++ i ++ rest) = number_run st rest.
Proof.
  intros Hm Hi.
  assert (Hint : exists st,
             (st = basic_reader.integer_n_state \/ st = basic_reader.integer_z_state) /\
             forall rest,
               number_run basic_reader.integer_1_state (i ++ rest) = number_run st rest /\
               lexes (i ++ rest) = number_run st rest).
  { destruct Hi as [-> | (d & ds & -> & Hd & Hnz & Hds)].
    - exists basic_reader.integer_z_state. split; [right; reflexivity|].
      intros rest. split; reflexivity.
    - exists basic_reader.integer_n_state. split; [left; reflexivity|].
      assert (Ez : Ascii.eqb d "0" = false) by (apply Ascii.eqb_neq; exact Hnz).
      intros rest. cbn [app lexes number_run number_step]. unfold number_start.
      rewrite (digit_not_minus _ Hd), Hd, Ez, number_run_app.
      rewrite number_run_digits by (auto; exact Hds). split; reflexivity. }
  destruct Hint as (st & Hst & Hrun). exists st. split; [exact Hst|].
  intros rest. destruct Hm as [-> | ->].
  - exact (proj2 (Hrun rest)).
  - exact (proj1 (Hrun rest)).
Qed.

Lemma run_frac f st rest :
  frac_part f ->
  st = basic_reader.integer_n_state \/ st = basic_reader.integer_z_state ->
  number_run st (f ++ rest) = number_run basic_reader.fractional_n_state rest.
Proof.
  intros (d & ds & -> & Hds) Hst. inversion Hds as [|? ? Hd Hds']; subst.
  cbn [app number_run].
  assert (number_step st "." = Some basic_reader.fractional_1_state) as ->
    by (destruct Hst as [-> | ->]; reflexivity).
  cbn [number_step]. rewrite Hd, number_run_app.
  rewrite number_run_digits by auto. reflexivity.
Qed.

Lemma run_exp e st rest :
  exp_part e ->
  st = basic_reader.integer_n_state \/ st = basic_reader.integer_z_state \/
  st = basic_reader.fractional_n_state ->
  number_run st (e ++ rest) = number_run basic_reader.exponent_n_state rest.
Proof.
  intros (c & sign & d & ds & -> & Hc & Hsign & Hds) Hst.
  inversion Hds as [|? ? Hd Hds']; subst.
  cbn [app number_run].
  assert (number_step st c = Some basic_reader.exponent_state) as ->
    by (destruct Hc as [-> | ->]; destruct Hst as [-> | [-> | ->]]; reflexivity).
  assert (Hrest : number_run basic_reader.exponent_n_state (ds ++ rest) =
                  number_run basic_reader.exponent_n_state rest).
  { rewrite number_run_app, number_run_digits by auto. reflexivity. }
  destruct Hsign as [-> | [-> | ->]]; cbn [app number_run].
  - cbn [number_step]. rewrite Hd. exact Hrest.
  - change (number_step basic_reader.exponent_state "-")
      with (Some basic_reader.exponent_1_state).
    cbn [number_run number_step]. rewrite Hd. exact Hrest.
  - change (number_step basic_reader.exponent_state "+")
      with (Some basic_reader.exponent_1_state).
    cbn [number_run number_step]. rewrite Hd. exact Hrest.
Qed.

Lemma integer_syntax_text p : integer_syntax p -> integer_text p.
Proof.
  intros (m & i & -> & Hm & Hi).
  destruct (lexes_int m i Hm Hi) as (st & Hst & Hrun).
  specialize (Hrun []). rewrite !app_nil_r in Hrun. cbn [number_run] in Hrun.
  unfold integer_text. rewrite Hrun. destruct Hst as [-> | ->]; auto.
Qed.

Lemma real_syntax_text p : real_syntax p -> real_text p.
Proof.
  intros (m & i & f & e & -> & Hm & Hi & Hf & He & Hne).
  destruct (lexes_int m i Hm Hi) as (st & Hst & Hrun).
  unfold real_text. rewrite Hrun.
  destruct Hf as [-> | Hf]; destruct He as [-> | He].
  - destruct Hne as [Hne | Hne]; contradiction Hne; reflexivity.
  - cbn [app]. rewrite <- (app_nil_r e).
    rewrite run_exp by (try exact He; destruct Hst; auto). right; reflexivity.
  - rewrite run_frac by assumption. left; reflexivity.
  - rewrite run_frac by assumption. rewrite <- (app_nil_r e).
    rewrite run_exp by (try exact He; auto). right; reflexivity.
Qed.

(** A character that can follow a value ends a number. *)
Lemma delimiter_ends_number c i st :
  delimiter c -> terminal i st -> number_step st c = None.
Proof.
  intros Hc Hterm.
  assert (Hnot : isdigit c = false /\ Ascii.eqb c "." = false /\
                 Ascii.eqb c "e" = false /\ Ascii.eqb c "E" = false).
  { destruct Hc as [Hc | [-> | [-> | ->]]]; try (repeat split; reflexivity).
    destruct c as [b0 b1 b2 b3 b4 b5 b6 b7].
    destruct b0, b1, b2, b3, b4, b5, b6, b7; try discriminate Hc;
      repeat split; reflexivity. }
  destruct Hnot as (H1 & H2 & H3 & H4).
  destruct i; cbn [terminal] in Hterm; try contradiction;
    destruct Hterm as [-> | ->]; cbn [number_step];
    rewrite ?H1, ?H2, ?H3, ?H4; reflexivity.
Qed.

(** *** Strings *)

Lemma silent_string_body s d : string_body s d ->
  forall stk data row col u,
  exists u',
    silent basic_reader.record_event s
      (basic_reader.mk_reader stk basic_reader.string_state data row col u)
      (basic_reader.mk_reader stk basic_reader.string_state (data ++ d) row col u').
Proof.
  induction 1 as [|c s d Hq Hb _ IH|c e s d Hin _ IH|h1 h2 h3 h4 s d H1 H2 H3 H4 _ IH];
    intros stk data row col u.
  - exists u. rewrite app_nil_r. apply silent_nil.
  - destruct (IH stk (data ++ [c]) row col u) as (u' & Hs). exists u'.
    replace (data ++ c :: d) with ((data ++ [c]) ++ d)
      by (rewrite <- app_assoc; reflexivity).
    apply (silent_cons _ _ _ _ _
             (basic_reader.mk_reader stk basic_reader.string_state (data ++ [c]) row col u));
      [|exact Hs].
    apply silent_scan. intros row0 col0 env.
    unfold basic_reader.scan. cbv zeta. unfold bind at 1.
    unfold basic_reader.set_position.
    cbn [basic_reader.member gets fst basic_reader.m_token_state
         basic_reader.m_char_state basic_reader.m_data basic_reader.m_unicode].
    apply Ascii.eqb_neq in Hq, Hb. rewrite Hq, Hb. reflexivity.
  - destruct (IH stk (data ++ [c]) row col u) as (u' & Hs). exists u'.
    replace (data ++ c :: d) with ((data ++ [c]) ++ d)
      by (rewrite <- app_assoc; reflexivity).
    apply (silent_app _ _ [backslash; e] s _
             (basic_reader.mk_reader stk basic_reader.string_state (data ++ [c]) row col u));
      [|exact Hs].
    apply (silent_cons _ _ _ _ _
             (basic_reader.mk_reader stk basic_reader.escape_state data row col u));
      [apply silent_scan; intros; reflexivity|].
    cbn in Hin.
    repeat (destruct Hin as [Hin|Hin];
            [inversion Hin; subst; apply silent_scan; intros; reflexivity|]).
    contradiction.
  - destruct (IH stk (data ++ utf8 (code_point h1 h2 h3 h4)) row col 0) as (u' & Hs).
    exists u'. rewrite app_assoc.
    apply (silent_app _ _ _ s _
             (basic_reader.mk_reader stk basic_reader.string_state
                (data ++ utf8 (code_point h1 h2 h3 h4)) row col 0));
      [|exact Hs].
    apply silent_escape_u; assumption.
Qed.

(** *** Composing *)

Lemma parses_app cs1 cs2 stk1 items1 stk2 items2 stk3 :
  parses cs1 stk1 items1 stk2 -> parses cs2 stk2 items2 stk3 ->
  parses (cs1 ++ cs2) stk1 (items1 ++ items2) stk3.
Proof.
  intros H1 H2 row col u.
  destruct (H1 row col u) as ([stk st data row1 col1 u1] & R1 & E1 & E2 & E3).
  cbn in E1, E2, E3. subst.
  destruct (H2 row1 col1 u1) as (r' & R2 & E).
  exists r'. split; [|exact E]. exact (records_app _ _ _ _ _ _ _ R1 R2).
Qed.

Lemma records_parses cs stk items stk' :
  (forall row col u,
      records cs (basic_reader.mk_reader stk basic_reader.default_state [] row col u)
        items (basic_reader.mk_reader stk' basic_reader.default_state [] row col u)) ->
  parses cs stk items stk'.
Proof.
  intros H row col u.
  exists (basic_reader.mk_reader stk' basic_reader.default_state [] row col u).
  split; [apply H|]. repeat split.
Qed.

Lemma parses_spaces ws stk : spaces ws -> parses ws stk [] stk.
Proof.
  intros Hws. apply records_parses. intros row col u.
  apply silent_records, silent_spaces. exact Hws.
Qed.

Lemma parses_string s d top top' rest i :
  string_body s d ->
  (forall row col u,
      records [dquote]
        (basic_reader.mk_reader (top :: rest) basic_reader.string_state d row col u)
        [(i, d)]
        (basic_reader.mk_reader (top' :: rest) basic_reader.default_state [] row col u)) ->
  parses (string_text s) (top :: rest) [(i, d)] (top' :: rest).
Proof.
  intros Hs Hclose row col u.
  destruct (silent_string_body s d Hs (top :: rest) [] row col u) as (u' & Hbody).
  exists (basic_reader.mk_reader (top' :: rest) basic_reader.default_state [] row col u').
  split; [|repeat split].
  unfold string_text.
  change (dquote :: s ++ [dquote]) with ([dquote] ++ s ++ [dquote]).
  apply (records_app _ _ _ []
           (basic_reader.mk_reader (top :: rest) basic_reader.string_state [] row col u)
           ([] ++ [(i, d)])).
  - apply silent_records, silent_scan. intros; reflexivity.
  - apply (records_app _ _ _ []
             (basic_reader.mk_reader (top :: rest) basic_reader.string_state d row col u')
             [(i, d)]).
    + apply silent_records. exact Hbody.
    + apply Hclose.
Qed.

Ltac parses_by_evaluation :=
  apply records_parses; intros ?row ?col ?u; records_by_evaluation.

Lemma parses_literal i t top_w top_r rest :
  (i = null_value /\ t = text "null") \/ (i = true_value /\ t = text "true") \/
  (i = false_value /\ t = text "false") ->
  value_position top_w top_r ->
  parses t (top_r :: rest) [(i, [])] (reader_context top_w :: rest).
Proof.
  intros [[-> ->] | [[-> ->] | [-> ->]]] [[-> ->] | [-> [-> | ->]]];
    parses_by_evaluation.
Qed.

Lemma parses_open c i top stk stk' :
  (c = "{"%char /\ i = object_begin /\ top = basic_reader.object_1_state) \/
  (c = "["%char /\ i = array_begin /\ top = basic_reader.array_1_state) ->
  container_slot stk stk' ->
  parses [c] stk [(i, [])] (top :: stk').
Proof.
  intros Hc [[-> ->] | (top_w & top_r & rest & Htop & -> & ->)].
  - destruct Hc as [(-> & -> & ->) | (-> & -> & ->)]; parses_by_evaluation.
  - destruct Hc as [(-> & -> & ->) | (-> & -> & ->)];
      destruct Htop as [[-> ->] | [-> [-> | ->]]]; parses_by_evaluation.
Qed.

Lemma parses_close_object top rest :
  top = basic_reader.object_1_state \/ top = basic_reader.object_n_state ->
  parses ["}"%char] (top :: rest) [(object_end, [])] rest.
Proof. intros [-> | ->]; parses_by_evaluation. Qed.

Lemma parses_close_array top rest :
  top = basic_reader.array_1_state \/ top = basic_reader.array_n_state ->
  parses ["]"%char] (top :: rest) [(array_end, [])] rest.
Proof. intros [-> | ->]; parses_by_evaluation. Qed.

Lemma parses_colon rest :
  parses [":"%char] (basic_reader.object_3_state :: rest) []
    (basic_reader.object_v_state :: rest).
Proof. parses_by_evaluation. Qed.

Lemma parses_comma top top' rest :
  (top = basic_reader.object_n_state /\ top' = basic_reader.object_2_state) \/
  (top = basic_reader.array_n_state /\ top' = basic_reader.array_v_state) ->
  parses [","%char] (top :: rest) [] (top' :: rest).
Proof. intros [[-> ->] | [-> ->]]; parses_by_evaluation. Qed.

Lemma parses_key s d top rest :
  string_body s d ->
  top = basic_reader.object_1_state \/ top = basic_reader.object_2_state ->
  parses (string_text s) (top :: rest) [(key, d)] (basic_reader.object_3_state :: rest).
Proof.
  intros Hs Htop. apply parses_string; [exact Hs|].
  intros row col u. destruct Htop as [-> | ->]; records_by_evaluation.
Qed.

Lemma parses_string_value s d top_w top_r rest :
  string_body s d ->
  value_position top_w top_r ->
  parses (string_text s) (top_r :: rest) [(string_value, d)] (reader_context top_w :: rest).
Proof.
  intros Hs Htop. apply parses_string; [exact Hs|].
  intros row col u. destruct Htop as [[-> ->] | [-> [-> | ->]]]; records_by_evaluation.
Qed.

Lemma parses_number i p top_w top_r rest c k items_k stk' :
  (i = integer_value /\ integer_text p) \/ (i = real_value /\ real_text p) ->
  value_position top_w top_r ->
  delimiter c ->
  parses (c :: k) (reader_context top_w :: rest) items_k stk' ->
  parses (p ++ c :: k) (top_r :: rest) ((i, p) :: items_k) stk'.
Proof.
  intros Hp Htop Hc Hk row col u.
  assert (exists st, lexes p = Some st /\ terminal i st) as (st & Hlex & Hterm).
  { destruct Hp as [[-> [H|H]] | [-> [H|H]]]; eexists; (split; [exact H|]); cbn; auto. }
  destruct (Hk row col u) as (r' & Rk & E). exists r'. split; [|exact E].
  apply (records_app _ _ _ []
           (basic_reader.mk_reader (top_r :: rest) st p row col u) ((i, p) :: items_k)).
  - apply silent_records, silent_number. exact Hlex.
  - eapply records_flush; try eassumption.
    eapply delimiter_ends_number; eassumption.
Qed.

(** White space and then a delimiter begin with a delimiter. *)
Lemma reads_value_then v items ws c tail top_w top_r rest items_k stk' :
  reads_as value_nt v items ->
  spaces ws -> delimiter c ->
  value_position top_w top_r ->
  parses (c :: tail) (reader_context top_w :: rest) items_k stk' ->
  parses (v ++ ws ++ c :: tail) (top_r :: rest) (items ++ items_k) stk'.
Proof.
  intros Hv Hws Hc Htop Hk. cbn [reads_as] in Hv.
  destruct ws as [|w ws]; cbn [app].
  - eapply Hv; eassumption.
  - inversion Hws as [|? ? Hw Hws']; subst.
    eapply Hv; [exact Htop | left; exact Hw |].
    change (w :: ws ++ c :: tail) with ((w :: ws) ++ c :: tail).
    apply (parses_app _ _ _ [] _ items_k _ (parses_spaces _ _ Hws) Hk).
Qed.

(** *** Every derivation is read as the grammar promises *)

Lemma derives_reads_as nt t items : derives nt t items -> reads_as nt t items.
Proof.
  induction 1 as
    [ | | | p Hp | p Hp | s d Hs
    | t items _ IH
    | ws Hws | ws ms items Hws _ IH | ws Hws | ws es items Hws _ IH
    | s d ws1 ws2 v items ws3 Hs Hws1 Hws2 _ IHv Hws3
    | s d ws1 ws2 v items ws3 ws4 ms items' Hs Hws1 Hws2 _ IHv Hws3 Hws4 _ IHm
    | v items ws _ IHv Hws
    | v items ws1 ws2 es items' _ IHv Hws1 Hws2 _ IHe ];
    cbn [reads_as] in *.
  - (* null *)
    intros top_w top_r rest c k items_k stk' Htop Hc Hk.
    exact (parses_app _ _ _ _ _ _ _
             (parses_literal null_value _ top_w top_r rest (or_introl (conj eq_refl eq_refl)) Htop)
             Hk).
  - (* true *)
    intros top_w top_r rest c k items_k stk' Htop Hc Hk.
    exact (parses_app _ _ _ _ _ _ _
             (parses_literal true_value _ top_w top_r rest
                (or_intror (or_introl (conj eq_refl eq_refl))) Htop)
             Hk).
  - (* false *)
    intros top_w top_r rest c k items_k stk' Htop Hc Hk.
    exact (parses_app _ _ _ _ _ _ _
             (parses_literal false_value _ top_w top_r rest
                (or_intror (or_intror (conj eq_refl eq_refl))) Htop)
             Hk).
  - (* integer *)
    intros top_w top_r rest c k items_k stk' Htop Hc Hk.
    eapply parses_number; try eassumption.
    left. split; [reflexivity | apply integer_syntax_text; exact Hp].
  - (* real *)
    intros top_w top_r rest c k items_k stk' Htop Hc Hk.
    eapply parses_number; try eassumption.
    right. split; [reflexivity | apply real_syntax_text; exact Hp].
  - (* string *)
    intros top_w top_r rest c k items_k stk' Htop Hc Hk.
    exact (parses_app _ _ _ _ _ _ _ (parses_string_value s d top_w top_r rest Hs Htop) Hk).
  - (* container as a value *)
    intros top_w top_r rest c k items_k stk' Htop Hc Hk.
    apply (parses_app _ _ _ _ (reader_context top_w :: rest) _ _); [|exact Hk].
    apply IH. right. exists top_w, top_r, rest. repeat split. exact Htop.
  - (* empty object *)
    intros stk stk' Hslot.
    change ("{"%char :: ws ++ ["}"%char]) with (["{"%char] ++ ws ++ ["}"%char]).
    apply (parses_app _ _ _ [(object_begin, [])]
             (basic_reader.object_1_state :: stk') [(object_end, [])]);
      [apply parses_open; auto|].
    apply (parses_app _ _ _ [] (basic_reader.object_1_state :: stk') [(object_end, [])]);
      [apply parses_spaces; exact Hws | apply parses_close_object; auto].
  - (* object *)
    intros stk stk' Hslot.
    change ("{"%char :: ws ++ ms ++ ["}"%char]) with (["{"%char] ++ ws ++ ms ++ ["}"%char]).
    apply (parses_app _ _ _ [(object_begin, [])]
             (basic_reader.object_1_state :: stk') (items ++ [(object_end, [])]));
      [apply parses_open; auto|].
    apply (parses_app _ _ _ [] (basic_reader.object_1_state :: stk')
             (items ++ [(object_end, [])]));
      [apply parses_spaces; exact Hws | apply IH; auto].
  - (* empty array *)
    intros stk stk' Hslot.
    change ("["%char :: ws ++ ["]"%char]) with (["["%char] ++ ws ++ ["]"%char]).
    apply (parses_app _ _ _ [(array_begin, [])]
             (basic_reader.array_1_state :: stk') [(array_end, [])]);
      [apply parses_open; auto|].
    apply (parses_app _ _ _ [] (basic_reader.array_1_state :: stk') [(array_end, [])]);
      [apply parses_spaces; exact Hws | apply parses_close_array; auto].
  - (* array *)
    intros stk stk' Hslot.
    change ("["%char :: ws ++ es ++ ["]"%char]) with (["["%char] ++ ws ++ es ++ ["]"%char]).
    apply (parses_app _ _ _ [(array_begin, [])]
             (basic_reader.array_1_state :: stk') (items ++ [(array_end, [])]));
      [apply parses_open; auto|].
    apply (parses_app _ _ _ [] (basic_reader.array_1_state :: stk')
             (items ++ [(array_end, [])]));
      [apply parses_spaces; exact Hws | apply IH; auto].
  - (* the last member *)
    intros top rest Htop.
    replace ((string_text s ++ ws1 ++ ":"%char :: ws2 ++ v ++ ws3) ++ ["}"%char])
      with (string_text s ++ ws1 ++ [":"%char] ++ ws2 ++ v ++ ws3 ++ "}"%char :: [])
      by (cbn [app]; rewrite <- !app_assoc; cbn [app]; rewrite <- !app_assoc; reflexivity).
    apply (parses_app _ _ _ [(key, d)] (basic_reader.object_3_state :: rest)
             (items ++ [(object_end, [])]));
      [apply parses_key; assumption|].
    apply (parses_app _ _ _ [] (basic_reader.object_3_state :: rest)
             (items ++ [(object_end, [])]));
      [apply parses_spaces; exact Hws1|].
    apply (parses_app _ _ _ [] (basic_reader.object_v_state :: rest)
             (items ++ [(object_end, [])]));
      [apply parses_colon|].
    apply (parses_app _ _ _ [] (basic_reader.object_v_state :: rest)
             (items ++ [(object_end, [])]));
      [apply parses_spaces; exact Hws2|].
    apply (reads_value_then v items ws3 "}" [] basic_writer.object_n_state
             basic_reader.object_v_state rest [(object_end, [])] rest IHv Hws3).
    + right; right; left; reflexivity.
    + left; split; reflexivity.
    + apply parses_close_object. right; reflexivity.
  - (* a member and more *)
    intros top rest Htop.
    replace ((string_text s ++ ws1 ++ ":"%char :: ws2 ++ v ++ ws3 ++
              ","%char :: ws4 ++ ms) ++ ["}"%char])
      with (string_text s ++ ws1 ++ [":"%char] ++ ws2 ++ v ++ ws3 ++
            ","%char :: (ws4 ++ ms ++ ["}"%char]))
      by (cbn [app]; rewrite <- !app_assoc; cbn [app]; rewrite <- !app_assoc;
          cbn [app]; rewrite <- !app_assoc; reflexivity).
    change (((key, d) :: items ++ items') ++ [(object_end, [])])
      with ((key, d) :: (items ++ items') ++ [(object_end, [])]).
    rewrite <- (app_assoc items items').
    apply (parses_app _ _ _ [(key, d)] (basic_reader.object_3_state :: rest)
             (items ++ items' ++ [(object_end, [])]));
      [apply parses_key; assumption|].
    apply (parses_app _ _ _ [] (basic_reader.object_3_state :: rest)
             (items ++ items' ++ [(object_end, [])]));
      [apply parses_spaces; exact Hws1|].
    apply (parses_app _ _ _ [] (basic_reader.object_v_state :: rest)
             (items ++ items' ++ [(object_end, [])]));
      [apply parses_colon|].
    apply (parses_app _ _ _ [] (basic_reader.object_v_state :: rest)
             (items ++ items' ++ [(object_end, [])]));
      [apply parses_spaces; exact Hws2|].
    apply (reads_value_then v items ws3 "," (ws4 ++ ms ++ ["}"%char])
             basic_writer.object_n_state basic_reader.object_v_state rest
             (items' ++ [(object_end, [])]) rest IHv Hws3).
    + right; left; reflexivity.
    + left; split; reflexivity.
    + change (","%char :: ws4 ++ ms ++ ["}"%char])
        with ([","%char] ++ ws4 ++ ms ++ ["}"%char]).
      apply (parses_app _ _ _ [] (basic_reader.object_2_state :: rest)
               (items' ++ [(object_end, [])]));
        [apply parses_comma; left; split; reflexivity|].
      apply (parses_app _ _ _ [] (basic_reader.object_2_state :: rest)
               (items' ++ [(object_end, [])]));
        [apply parses_spaces; exact Hws4 | apply IHm; auto].
  - (* the last element *)
    intros top rest Htop.
    rewrite <- (app_assoc v ws).
    assert (Hpos : value_position basic_writer.array_n_state top)
      by (right; split; [reflexivity | exact Htop]).
    apply (reads_value_then v items ws "]" [] basic_writer.array_n_state
             top rest [(array_end, [])] rest IHv Hws).
    + right; right; right; reflexivity.
    + exact Hpos.
    + apply parses_close_array. right; reflexivity.
  - (* an element and more *)
    intros top rest Htop.
    replace ((v ++ ws1 ++ ","%char :: ws2 ++ es) ++ ["]"%char])
      with (v ++ ws1 ++ ","%char :: (ws2 ++ es ++ ["]"%char]))
      by (rewrite <- !app_assoc; cbn [app]; rewrite <- !app_assoc; reflexivity).
    rewrite <- (app_assoc items items').
    assert (Hpos : value_position basic_writer.array_n_state top)
      by (right; split; [reflexivity | exact Htop]).
    apply (reads_value_then v items ws1 "," (ws2 ++ es ++ ["]"%char])
             basic_writer.array_n_state top rest (items' ++ [(array_end, [])]) rest
             IHv Hws1).
    + right; left; reflexivity.
    + exact Hpos.
    + change (","%char :: ws2 ++ es ++ ["]"%char])
        with ([","%char] ++ ws2 ++ es ++ ["]"%char]).
      apply (parses_app _ _ _ [] (basic_reader.array_v_state :: rest)
               (items' ++ [(array_end, [])]));
        [apply parses_comma; right; split; reflexivity|].
      apply (parses_app _ _ _ [] (basic_reader.array_v_state :: rest)
               (items' ++ [(array_end, [])]));
        [apply parses_spaces; exact Hws2 | apply IHe; auto].
Qed.

(** A document is read without error, the items it stands for are
    delivered, and every container is closed. *)
Lemma document_read D items :
  document D items ->
  exists r log,
    read_events D fresh = (Return tt, (r, log)) /\
    map payload log = items /\
    basic_reader.m_token_state r = [] /\
    basic_reader.m_char_state r = basic_reader.default_state.
Proof.
  intros [ws1 body items' ws2 Hws1 Hbody Hws2].
  apply derives_reads_as in Hbody. cbn [reads_as] in Hbody.
  assert (H : parses (ws1 ++ body ++ ws2) [] ([] ++ items' ++ []) []).
  { apply (parses_app _ _ _ _ [] _ _ (parses_spaces _ _ Hws1)).
    apply (parses_app _ _ _ _ [] _ _); [|apply parses_spaces; exact Hws2].
    apply Hbody. left. split; reflexivity. }
  destruct (H 1 1 0) as (r' & R & Hstk & Hst & _).
  destruct (R 1 1 []) as (row' & col' & log' & E & P).
  exists (basic_reader.set_position row' col' r'), log'.
  split; [exact E|]. split; [|split; assumption].
  rewrite P. cbn [map app]. apply app_nil_r.
Qed.

(** *** The claim *)

(** Any input read without error up to a point where every container is
    closed: a writer of any indent width accepts the items that were
    delivered, and reading what it wrote delivers them again. *)
Lemma round_trip_of_read indent D r log :
  read_events D fresh = (Return tt, (r, log)) ->
  basic_reader.m_token_state r = [] ->
  exists out,
    basic_writer.replay (map payload log)
      (basic_writer.indent indent basic_writer.init, []) =
      (Return tt, (basic_writer.indent indent basic_writer.init, out)) /\
    exists r' log',
      read_events out fresh = (Return tt, (r', log')) /\
      map payload log' = map payload log /\
      basic_reader.m_token_state r' = [] /\
      basic_reader.m_char_state r' = basic_reader.default_state.
Proof.
  intros HD Hstk.
  destruct (read_events_replayable indent D r log HD) as [Hvalid (out & Hrun)].
  rewrite Hstk in Hrun. cbn [map] in Hrun.
  exists out. split; [exact (replay_eq indent _ [] [] [] out Hrun)|].
  destruct (reread indent (map payload log) [] basic_reader.init None [] out
              Hvalid Hrun) as (r' & evs & pending' & Hrec & Hstep & Hevs).
  { repeat split. }
  destruct pending' as [[i d]|]; cbn [in_step] in Hstep.
  - destruct Hstep as (_ & _ & _ & top_w & rest & top_r & Hws & _). discriminate Hws.
  - destruct Hstep as (Hdef & _ & Hstk').
    destruct (Hrec 1 1 []) as (row' & col' & log' & Hread & Hlog).
    exists (basic_reader.set_position row' col' r'), log'.
    split; [exact Hread|]. split; [|split].
    + rewrite Hlog. cbn [map app pending_items] in *. rewrite app_nil_r in Hevs. exact Hevs.
    + exact Hstk'.
    + exact Hdef.
Qed.

(** C1.  Every document of the JSON grammar, fed to the reader one
    character at a time, is read without error, the reader delivers the
    items the document stands for, and every container is closed in the
    end.  A writer of any indent width accepts these items, in order, and
    is left with an empty stack; a fresh reader that reads what the writer
    wrote delivers the same items with the same payloads in the same order:
    only the white space can differ.  The second part says the same of any
    input whatever that the reader reads without error up to a point where
    every container is closed. *)
Theorem round_trip :
  (forall indent D items,
      document D items ->
      events_of (read_events D fresh) = items /\
      fst (read_events D fresh) = Return tt /\
      exists out,
        basic_writer.replay items (basic_writer.indent indent basic_writer.init, []) =
          (Return tt, (basic_writer.indent indent basic_writer.init, out)) /\
        fst (read_events out fresh) = Return tt /\
        events_of (read_events out fresh) = items /\
        basic_reader.m_token_state (fst (snd (read_events out fresh))) = []) /\
  (forall indent D r log,
      read_events D fresh = (Return tt, (r, log)) ->
      basic_reader.m_token_state r = [] ->
      exists out,
        basic_writer.replay (map payload log)
          (basic_writer.indent indent basic_writer.init, []) =
          (Return tt, (basic_writer.indent indent basic_writer.init, out)) /\
        exists r' log',
          read_events out fresh = (Return tt, (r', log')) /\
          map payload log' = map payload log /\
          basic_reader.m_token_state r' = [] /\
          basic_reader.m_char_state r' = basic_reader.default_state).
Proof.
  split; [|exact round_trip_of_read].
  intros indent D items HD.
  destruct (document_read D items HD) as (r & log & Hread & Hlog & Hstk & _).
  unfold events_of. rewrite Hread. cbn [fst snd].
  split; [exact Hlog|]. split; [reflexivity|].
  destruct (round_trip_of_read indent D r log Hread Hstk)
    as (out & Hreplay & r' & log' & Hread' & Hlog' & Hstk' & _).
  exists out. rewrite Hlog in Hreplay. split; [exact Hreplay|].
  rewrite Hread'. cbn [fst snd]. split; [reflexivity|].
  split; [rewrite Hlog'; exact Hlog | exact Hstk'].
Qed.

(** The sample is a document of the grammar. *)
Lemma sample_document :
  document sample
    [(object_begin, []); (key, text "x"); (integer_value, text "1");
     (key, text "y"); (array_begin, []); (true_value, []); (null_value, []);
     (array_end, []); (object_end, [])].
Proof.
  assert (Hx : string_body (text "x") (text "x"))
    by (apply body_char; [discriminate | discriminate | apply body_end]).
  assert (Hy : string_body (text "y") (text "y"))
    by (apply body_char; [discriminate | discriminate | apply body_end]).
  assert (H1 : derives value_nt (text "1") [(integer_value, text "1")]).
  { apply derives_integer. exists [], (text "1"). split; [reflexivity|].
    split; [left; reflexivity|]. right. exists "1"%char, [].
    repeat split; [discriminate | constructor]. }
  assert (Harr : derives value_nt (text "[true,null]")
                   [(array_begin, []); (true_value, []); (null_value, []); (array_end, [])]).
  { apply derives_container.
    apply (derives_array [] (text "true,null") [(true_value, []); (null_value, [])]);
      [constructor|].
    apply (derives_elements (text "true") [(true_value, [])] [] [] (text "null")
             [(null_value, [])]);
      [apply derives_true | constructor | constructor |].
    apply (derives_element (text "null") [(null_value, [])] []);
      [apply derives_null | constructor]. }
  apply (document_container [] sample _ []); [constructor | | constructor].
  apply (derives_object [] (quoted "x" ++ text ":1," ++ quoted "y" ++ text ":[true,null]")
           [(key, text "x"); (integer_value, text "1"); (key, text "y");
            (array_begin, []); (true_value, []); (null_value, []); (array_end, [])]);
    [constructor|].
  apply (derives_members (text "x") (text "x") [] [] (text "1")
           [(integer_value, text "1")] [] []
           (quoted "y" ++ text ":[true,null]")
           [(key, text "y"); (array_begin, []); (true_value, []); (null_value, []);
            (array_end, [])]);
    [exact Hx | constructor | constructor | exact H1 | constructor | constructor |].
  apply (derives_member (text "y") (text "y") [] [] (text "[true,null]")
           [(array_begin, []); (true_value, []); (null_value, []); (array_end, [])] []);
    [exact Hy | constructor | constructor | exact Harr | constructor].
Qed.

Lemma round_trip_witness :
  events_of (read_events sample fresh) =
    [(object_begin, []); (key, text "x"); (integer_value, text "1");
     (key, text "y"); (array_begin, []); (true_value, []); (null_value, []);
     (array_end, []); (object_end, [])] /\
  exists out,
    basic_writer.replay (events_of (read_events sample fresh))
      (basic_writer.indent 2 basic_writer.init, []) =
      (Return tt, (basic_writer.indent 2 basic_writer.init, out)) /\
    events_of (read_events out fresh) = events_of (read_events sample fresh).
Proof.
  destruct (proj1 round_trip 2 sample _ sample_document)
    as (Hitems & _ & out & Hreplay & _ & Hagain & _).
  split; [exact Hitems|].
  exists out. rewrite Hitems. split; [exact Hreplay | exact Hagain].
Defined.
(** ** The parser as a transition function *)

Lemma token_eq_step (Env : Type)
  (m_callback : item -> string_type -> Z -> Z -> M Env unit) t stk st data row col u env :
  basic_reader.token Env m_callback t (basic_reader.mk_reader stk st data row col u, env) =
    match token_step stk t with
    | raises mid what =>
        (Throw (json_exception what row col),
         (basic_reader.mk_reader mid st data row col u, env))
    | moves stk' => (Return tt, (basic_reader.mk_reader stk' st data row col u, env))
    | delivers i mid stk' =>
        match m_callback i data row col env with
        | (Return _, env') => (Return tt, (basic_reader.mk_reader stk' st [] row col u, env'))
        | (Throw e, env') => (Throw e, (basic_reader.mk_reader mid st data row col u, env'))
        | (OutOfFuel, env') => (OutOfFuel, (basic_reader.mk_reader mid st data row col u, env'))
        end
    end.
Proof.
  unfold basic_reader.token, basic_reader.value_token, basic_reader.call,
    basic_reader.raise, basic_reader.push, basic_reader.pop, basic_reader.jump,
    basic_reader.member, basic_reader.update, basic_reader.callback,
    bind, gets, modify, throw;
    cbn [fst snd basic_reader.m_token_state basic_reader.m_data basic_reader.m_row
         basic_reader.m_column].
  destruct stk as [|top stk]; [|destruct top]; destruct t; cbv zeta;
    cbn [token_step value_step fst snd basic_reader.m_token_state basic_reader.m_data
         basic_reader.m_row basic_reader.m_column];
    try reflexivity;
    unfold basic_reader.set_token_state, basic_reader.set_data;
    cbn [fst snd basic_reader.m_token_state basic_reader.m_data basic_reader.m_row
         basic_reader.m_column basic_reader.m_char_state basic_reader.m_unicode tl];
    destruct (m_callback _ data row col env) as [[[]|?|] ?]; reflexivity.
Qed.
(** ** The exceptions of the reader *)

Lemma throws_ret {St A : Type} (Q : exn -> St -> Prop) (a : A) : throws Q (ret a).
Proof. intros s e s' H; discriminate H. Qed.

Lemma throws_gets {St A : Type} (Q : exn -> St -> Prop) (f : St -> A) : throws Q (gets f).
Proof. intros s e s' H; discriminate H. Qed.

Lemma throws_modify {St : Type} (Q : exn -> St -> Prop) f : throws Q (modify f).
Proof. intros s e s' H; discriminate H. Qed.

Lemma throws_timeout {St A : Type} (Q : exn -> St -> Prop) : throws Q (@timeout St A).
Proof. intros s e s' H; discriminate H. Qed.

Lemma throws_bind {St A B : Type} (Q : exn -> St -> Prop) (m : M St A) (k : A -> M St B) :
  throws Q m -> (forall a, throws Q (k a)) -> throws Q (bind m k).
Proof.
  intros Hm Hk s e s' H. unfold bind in H.
  destruct (m s) as [[a|e0|] s1] eqn:E.
  - eapply Hk; eassumption.
  - inversion H; subst. eapply Hm; eassumption.
  - discriminate H.
Qed.

Ltac throws_with leaf :=
  repeat first
    [ leaf
    | apply throws_ret
    | apply throws_gets
    | apply throws_modify
    | apply throws_timeout
    | apply throws_bind; [ | intros ? ]
    | match goal with
      | |- throws _ (let _ := _ in _) => cbv zeta
      | |- throws _ (if ?b then _ else _) => destruct b eqn:?
      | |- throws _ (match ?x with _ => _ end) => destruct x
      end ].

Section ReaderExceptions.
Import basic_reader.
Variable Env : Type.
Variable m_callback : item -> string_type -> Z -> Z -> M Env unit.

Local Abbreviation own :=
  (fun (e : exn) (w : world Env) =>
     reader_error e (fst w) \/ callback_error m_callback e).

Lemma raise_throws {A : Type} what :
  In what reader_messages -> throws own (@raise Env A what).
Proof.
  intros Hin [r env] e w' H. inversion H; subst. left. exists what.
  split; [exact Hin | reflexivity].
Qed.

Lemma callback_throws i data row column :
  throws own (callback Env (m_callback i data row column)).
Proof.
  intros [r env] e w' H. unfold callback in H. cbn [snd fst] in H.
  destruct (m_callback i data row column env) as [res env'] eqn:E.
  inversion H; subst. right. exists i, data, row, column, env. rewrite E. reflexivity.
Qed.

Lemma unicode_throws (Q : exn -> world Env -> Prop) c :
  isxdigit c = true -> throws Q (unicode Env c).
Proof.
  intros Hx [r env] e w' H. rewrite (unicode_eq Env c r env Hx) in H. discriminate H.
Qed.

Ltac own_exceptions leaf :=
  unfold basic_reader.next, basic_reader.repeat, basic_reader.take,
    basic_reader.push, basic_reader.jump, basic_reader.pop,
    basic_reader.unexpected_character, basic_reader.member, basic_reader.update;
  throws_with
    ltac:(first [ leaf
                | apply callback_throws
                | apply raise_throws; unfold reader_messages;
                  repeat first [left; reflexivity | right] ]).

Lemma call_throws i : throws own (call Env m_callback i).
Proof. unfold basic_reader.call. own_exceptions fail. Qed.

Lemma value_token_throws t what :
  In what reader_messages -> throws own (value_token Env m_callback t what).
Proof.
  intros Hin. unfold value_token.
  own_exceptions ltac:(first [apply call_throws | apply raise_throws; exact Hin]).
Qed.

Lemma token_throws t : throws own (token Env m_callback t).
Proof.
  unfold basic_reader.token.
  own_exceptions
    ltac:(first [ apply call_throws
                | apply value_token_throws; unfold reader_messages;
                  repeat first [left; reflexivity | right] ]).
Qed.

Lemma scan_throws c : throws own (scan Env m_callback c).
Proof.
  unfold basic_reader.scan, basic_reader.take_unicode.
  own_exceptions
    ltac:(first [ apply token_throws
                | apply unicode_throws; assumption ]).
Qed.

Lemma scan_loop_throws fuel c : throws own (scan_loop Env m_callback fuel c).
Proof.
  induction fuel as [|fuel IH]; cbn [basic_reader.scan_loop].
  - apply throws_timeout.
  - apply throws_bind; [apply scan_throws|].
    intros []; [apply throws_ret|].
    apply throws_bind; [exact IH | intros n; apply throws_ret].
Qed.

Lemma feed_throws c : throws own (feed Env m_callback c).
Proof.
  unfold basic_reader.feed, basic_reader.operator_call.
  apply throws_bind; [apply scan_loop_throws|]. intros n.
  unfold move. own_exceptions fail.
Qed.

Lemma for_each_throws cs : throws own (for_each Env m_callback cs).
Proof.
  induction cs as [|c cs IH]; cbn [basic_reader.for_each].
  - apply throws_ret.
  - apply throws_bind; [apply feed_throws | intros _; exact IH].
Qed.

(** An exception comes out of the call of [operator()] for one character
    of the range, all the characters before having been read. *)
Lemma for_each_throw_split cs : forall w e w',
  for_each Env m_callback cs w = (Throw e, w') ->
  exists p c rest w1,
    cs = p ++ c :: rest /\
    for_each Env m_callback p w = (Return tt, w1) /\
    feed Env m_callback c w1 = (Throw e, w').
Proof.
  induction cs as [|c cs IH]; intros w e w' H; [discriminate H|].
  cbn [basic_reader.for_each] in H. unfold bind in H.
  destruct (feed Env m_callback c w) as [[[]|e0|] w1] eqn:E; [| |discriminate H].
  - destruct (IH _ _ _ H) as (p & c' & rest & w2 & -> & Hp & Hc).
    exists (c :: p), c', rest, w2. split; [reflexivity|]. split; [|exact Hc].
    cbn [basic_reader.for_each]. rewrite (bind_Return _ _ _ _ _ E). exact Hp.
  - inversion H; subst. exists [], c, cs, w. repeat split. exact E.
Qed.

(** [operator()] throws before it moves the cursor. *)
Lemma feed_throw_cursor c w e w' :
  feed Env m_callback c w = (Throw e, w') -> cursor (fst w') = cursor (fst w).
Proof.
  unfold basic_reader.feed, basic_reader.operator_call, bind.
  destruct (scan_loop Env m_callback 2 c w) as [[n|e0|] w1] eqn:E.
  - destruct w1 as [r1 env1]. rewrite move_eq. discriminate.
  - intros H; inversion H; subst. exact (scan_loop_keeps _ _ _ _ _ _ _ E).
  - discriminate.
Qed.
End ReaderExceptions.
(** Whatever the range and whatever state the reader is in, an exception
    that comes out of feeding the range is one that a call of the callback
    threw, or a [json::exception] of the reader with one of its eight
    messages and the cursor the reader has at that moment.  The reader
    throws no [std::bad_exception] of its own: the last branch of [unicode]
    is never reached, since [scan] calls [unicode] for hexadecimal digits
    only.  With the recording callback, which never throws, no
    [std::bad_exception] comes out at all. *)
Theorem reader_exceptions :
  (forall (Env : Type) (m_callback : item -> string_type -> Z -> Z -> M Env unit)
          cs w e w',
      basic_reader.for_each Env m_callback cs w = (Throw e, w') ->
      reader_error e (fst w') \/ callback_error m_callback e) /\
  (forall cs w e,
      fst (read_events cs w) = Throw e ->
      reader_error e (fst (snd (read_events cs w)))).
Proof.
  split.
  - intros Env cb cs w e w' H. exact (for_each_throws Env cb cs w e w' H).
  - intros cs w e H. unfold read_events in *.
    destruct (basic_reader.for_each _ basic_reader.record_event cs w) as [res w'] eqn:E.
    cbn [fst snd] in *. subst res.
    destruct (for_each_throws _ _ cs w e w' E) as [Hown | (i & d & row & col & env & Hcb)];
      [exact Hown | discriminate Hcb].
Qed.

Lemma reader_exceptions_witness :
  reader_error (json_exception basic_reader.value_expected 1 6)
    (fst (snd (read_events missing_value fresh))).
Proof.
  apply (proj2 reader_exceptions missing_value fresh). vm_compute. reflexivity.
Defined.

(** Where the cursor is when feeding a range to a fresh reader throws. *)
Lemma throw_cursor (Env : Type)
  (m_callback : item -> string_type -> Z -> Z -> M Env unit) cs env e w' :
  Z.of_nat (List.length cs) < size_modulus - 1 ->
  basic_reader.for_each Env m_callback cs (basic_reader.init, env) = (Throw e, w') ->
  exists p c rest w1,
    cs = p ++ c :: rest /\
    basic_reader.for_each Env m_callback p (basic_reader.init, env) = (Return tt, w1) /\
    basic_reader.feed Env m_callback c w1 = (Throw e, w') /\
    cursor (fst w') = cursor_after p.
Proof.
  intros Hlen H.
  destruct (for_each_throw_split Env m_callback cs _ _ _ H)
    as (p & c & rest & w1 & -> & Hp & Hc).
  exists p, c, rest, w1. split; [reflexivity|]. split; [exact Hp|]. split; [exact Hc|].
  rewrite (feed_throw_cursor Env m_callback c w1 e w' Hc).
  unfold cursor_after.
  change (1, 1) with (cursor (fst (basic_reader.init, env))).
  apply for_each_cursor with (m_callback := m_callback); try exact Hp;
    cbn [fst basic_reader.init basic_reader.m_row basic_reader.m_column];
    rewrite length_app in Hlen; cbn [List.length] in Hlen;
    unfold size_modulus in *; lia.
Qed.

(** The exception that comes out of feeding a range to a fresh reader is
    raised while one character [c] of the range is processed: the
    characters before it were read without error, those after it play no
    part, and the cursor of the reader, which a reader exception carries, is
    the position of [c]. *)
Theorem error_position :
  forall (Env : Type) (m_callback : item -> string_type -> Z -> Z -> M Env unit)
         cs env e w',
    Z.of_nat (List.length cs) < size_modulus - 1 ->
    basic_reader.for_each Env m_callback cs (basic_reader.init, env) = (Throw e, w') ->
    exists p c rest,
      cs = p ++ c :: rest /\
      fst (basic_reader.for_each Env m_callback p (basic_reader.init, env)) = Return tt /\
      basic_reader.for_each Env m_callback (p ++ [c]) (basic_reader.init, env) =
        (Throw e, w') /\
      cursor (fst w') = cursor_after p /\
      (callback_error m_callback e \/
       exists what,
         In what reader_messages /\
         e = json_exception what (fst (cursor_after p)) (snd (cursor_after p))).
Proof.
  intros Env cb cs env e w' Hlen H.
  destruct (throw_cursor Env cb cs env e w' Hlen H)
    as (p & c & rest & w1 & -> & Hp & Hc & Hcur).
  exists p, c, rest. split; [reflexivity|]. split; [rewrite Hp; reflexivity|].
  split; [|split; [exact Hcur|]].
  - rewrite for_each_app, (bind_Return _ _ _ _ _ Hp).
    cbn [basic_reader.for_each]. unfold bind. rewrite Hc. reflexivity.
  - destruct (feed_throws Env cb c w1 e w' Hc) as [(what & Hin & He) | Hcb];
      [right | left; exact Hcb].
    exists what. split; [exact Hin|]. rewrite <- Hcur. exact He.
Qed.

Lemma error_position_witness :
  exists p c rest,
    missing_value = p ++ c :: rest /\
    fst (read_events p fresh) = Return tt /\
    read_events (p ++ [c]) fresh = read_events missing_value fresh /\
    cursor (fst (snd (read_events missing_value fresh))) = cursor_after p /\
    (callback_error basic_reader.record_event
       (json_exception basic_reader.value_expected 1 6) \/
     exists what,
       In what reader_messages /\
       json_exception basic_reader.value_expected 1 6 =
         json_exception what (fst (cursor_after p)) (snd (cursor_after p))).
Proof.
  destruct (error_position _ basic_reader.record_event missing_value []
              (json_exception basic_reader.value_expected 1 6)
              (snd (read_events missing_value fresh)))
    as (p & c & rest & H1 & H2 & H3 & H4 & H5).
  - vm_compute. reflexivity.
  - vm_compute. reflexivity.
  - exists p, c, rest. split; [exact H1|]. split; [exact H2|].
    split; [|split; [exact H4 | exact H5]].
    unfold read_events, fresh. rewrite H3. vm_compute. reflexivity.
Defined.
(** ** What one character can deliver *)

(** A call of [token] delivers at most one item, the literal buffer with
    the cursor, and none when it throws. *)
Lemma token_outcome t r log res r' log' :
  basic_reader.token _ basic_reader.record_event t (r, log) = (res, (r', log')) ->
  cursor r' = cursor r /\
  (log' = log \/
   (res = Return tt /\
    exists i,
      log' = log ++ [(i, basic_reader.m_data r, basic_reader.m_row r,
                      basic_reader.m_column r)])).
Proof.
  destruct r as [stk st data row col u]. rewrite token_eq_step.
  destruct (token_step stk t) as [mid what|stk'|i mid stk'];
    cbn [basic_reader.record_event modify];
    intros H; inversion H; subst; split; try reflexivity;
    first [left; reflexivity | right; split; [reflexivity|]; exists i; reflexivity].
Qed.

(** So does a call of [scan]. *)
Lemma scan_outcome c r log res r' log' :
  basic_reader.scan _ basic_reader.record_event c (r, log) = (res, (r', log')) ->
  log' = log \/
  ((exists b, res = Return b) /\
   exists i,
     log' = log ++ [(i, basic_reader.m_data r, basic_reader.m_row r,
                     basic_reader.m_column r)]).
Proof.
  destruct r as [stk st data row col u].
  unfold basic_reader.scan. cbv zeta. unfold bind at 1.
  cbn [basic_reader.member gets fst basic_reader.m_char_state].
  destruct st; cbv beta iota;
    repeat match goal with
           | |- context [if ?b then _ else _] => destruct b eqn:?
           end;
    first
      [ (* a token, then [next] or [repeat] *)
        unfold bind;
        match goal with
        | |- context [basic_reader.token ?E ?cb ?t ?w] =>
            destruct (basic_reader.token E cb t w) as [[[]|e|] [r1 log1]] eqn:Ht;
            apply token_outcome in Ht; destruct Ht as [_ Ht]
        end;
        intros H; inversion H; subst;
        (destruct Ht as [-> | [Hres (i & ->)]];
         [ left; reflexivity
         | first [ discriminate Hres
                 | right; split; [eexists; reflexivity | exists i; reflexivity] ] ])
      | (* a hexadecimal digit *)
        match goal with
        | Hx : isxdigit c = true |- _ =>
            unfold bind at 1; rewrite (unicode_eq _ c _ _ Hx)
        end;
        unfold basic_reader.take_unicode; unfold_lexer;
        cbn [fst snd basic_reader.m_unicode basic_reader.set_unicode];
        if_cases; intros H; inversion H; left; reflexivity
      | (* nothing but the lexer state and the literal buffer *)
        unfold_lexer; cbn [fst snd]; intros H; inversion H; left; reflexivity ].
Qed.

(** A character delivers at most two items, all at the position of the
    character. *)
Lemma feed_outcome c r log res r' log' :
  basic_reader.feed _ basic_reader.record_event c (r, log) = (res, (r', log')) ->
  exists new,
    log' = log ++ new /\
    (List.length new <= 2)%nat /\
    Forall (fun e => position e = cursor r) new.
Proof.
  unfold basic_reader.feed, basic_reader.operator_call.
  cbn [basic_reader.scan_loop]. unfold bind at 1. unfold bind at 1.
  destruct (basic_reader.scan _ basic_reader.record_event c (r, log))
    as [[b1|e1|] [r1 log1]] eqn:E1.
  - pose proof (scan_keeps _ _ _ _ _ _ E1) as Hc1.
    unfold same_cursor in Hc1. cbn [fst] in Hc1.
    apply scan_outcome in E1.
    assert (H1 : exists new1, log1 = log ++ new1 /\ (List.length new1 <= 1)%nat /\
                              Forall (fun e => position e = cursor r) new1).
    { destruct E1 as [-> | [_ (i & ->)]].
      - exists []. rewrite app_nil_r. repeat split; [cbn; lia | constructor].
      - eexists. split; [reflexivity|]. split; [cbn; lia|].
        constructor; [reflexivity | constructor]. }
    destruct H1 as (new1 & -> & Hlen1 & Hpos1).
    destruct b1.
    + cbn [ret]. rewrite move_eq. intros H; inversion H; subst.
      exists new1. repeat split; [lia | exact Hpos1].
    + unfold bind at 1. unfold bind at 1.
      destruct (basic_reader.scan _ basic_reader.record_event c (r1, log ++ new1))
        as [[b2|e2|] [r2 log2]] eqn:E2.
      * apply scan_outcome in E2.
        assert (H2 : exists new2, log2 = (log ++ new1) ++ new2 /\
                                  (List.length new2 <= 1)%nat /\
                                  Forall (fun e => position e = cursor r) new2).
        { destruct E2 as [-> | [_ (i & ->)]].
          - exists []. rewrite app_nil_r. repeat split; [cbn; lia | constructor].
          - eexists. split; [reflexivity|]. split; [cbn; lia|].
            constructor; [|constructor]. cbn [position]. rewrite <- Hc1. reflexivity. }
        destruct H2 as (new2 & -> & Hlen2 & Hpos2).
        assert (Hlog : exists new,
                   (log ++ new1) ++ new2 = log ++ new /\ (List.length new <= 2)%nat /\
                   Forall (fun e => position e = cursor r) new).
        { exists (new1 ++ new2). rewrite app_assoc. split; [reflexivity|].
          rewrite length_app. split; [lia | apply Forall_app; split; assumption]. }
        destruct b2.
        -- unfold ret. rewrite move_eq.
           intros H; inversion H; subst. exact Hlog.
        -- unfold timeout.
           intros H; inversion H; subst. exact Hlog.
      * apply scan_outcome in E2. intros H; inversion H; subst.
        destruct E2 as [-> | [(b & Hb) _]]; [|discriminate Hb].
        exists new1. repeat split; [lia | exact Hpos1].
      * apply scan_outcome in E2. intros H; inversion H; subst.
        destruct E2 as [-> | [(b & Hb) _]]; [|discriminate Hb].
        exists new1. repeat split; [lia | exact Hpos1].
  - apply scan_outcome in E1. intros H; inversion H; subst.
    destruct E1 as [-> | [(b & Hb) _]]; [|discriminate Hb].
    exists []. rewrite app_nil_r. repeat split; [cbn; lia | constructor].
  - apply scan_outcome in E1. intros H; inversion H; subst.
    destruct E1 as [-> | [(b & Hb) _]]; [|discriminate Hb].
    exists []. rewrite app_nil_r. repeat split; [cbn; lia | constructor].
Qed.

(** Every item is delivered while one character of the range is processed,
    with the position of that character; one character delivers at most
    two items (a number and the bracket that ends it). *)
Theorem items_carry_position :
  (forall c r log res r' log',
      basic_reader.feed _ basic_reader.record_event c (r, log) = (res, (r', log')) ->
      exists new,
        log' = log ++ new /\
        (List.length new <= 2)%nat /\
        Forall (fun e => position e = cursor r) new) /\
  (forall cs res r log,
      Z.of_nat (List.length cs) < size_modulus - 1 ->
      read_events cs fresh = (res, (r, log)) ->
      Forall (fun e => exists p c rest, cs = p ++ c :: rest /\ position e = cursor_after p)
        log).
Proof.
  split; [exact feed_outcome|].
  induction cs as [|c cs IH] using rev_ind; intros res r log Hlen H.
  - inversion H; subst. constructor.
  - rewrite length_app in Hlen. cbn [List.length] in Hlen.
    unfold read_events in H. rewrite for_each_app in H. unfold bind in H.
    destruct (basic_reader.for_each _ basic_reader.record_event cs fresh)
      as [res1 [r1 log1]] eqn:E1.
    assert (Hold : Forall (fun e => exists p c0 rest,
                             cs ++ [c] = p ++ c0 :: rest /\ position e = cursor_after p)
                     log1).
    { assert (Hlen1 : Z.of_nat (List.length cs) < size_modulus - 1) by lia.
      specialize (IH res1 r1 log1 Hlen1 E1).
      eapply Forall_impl; [|exact IH].
      intros e (p & c0 & rest & -> & Hpos). exists p, c0, (rest ++ [c]).
      split; [|exact Hpos]. rewrite <- app_assoc. reflexivity. }
    destruct res1 as [[]|e1|]; [|inversion H; subst; exact Hold ..].
    cbn [basic_reader.for_each] in H. unfold bind in H.
    destruct (basic_reader.feed _ basic_reader.record_event c (r1, log1))
      as [res2 [r2 log2]] eqn:E2.
    assert (Hlog : log = log2).
    { destruct res2 as [[]|e2|]; inversion H; reflexivity. }
    subst log. apply feed_outcome in E2. destruct E2 as (new & -> & _ & Hnew).
    apply Forall_app. split; [exact Hold|].
    assert (Hcur : cursor r1 = cursor_after cs).
    { unfold cursor_after.
      change (1, 1) with (cursor (fst fresh)).
      change r1 with (fst (r1, log1)).
      apply for_each_cursor with (m_callback := basic_reader.record_event);
        try exact E1;
        cbn [fst fresh basic_reader.init basic_reader.m_row basic_reader.m_column];
        unfold size_modulus in *; lia. }
    eapply Forall_impl; [|exact Hnew].
    intros e Hpos. exists cs, c, []. split; [reflexivity|]. rewrite Hpos. exact Hcur.
Qed.

Lemma items_carry_position_witness :
  Forall (fun e => exists p c rest, sample = p ++ c :: rest /\ position e = cursor_after p)
    (snd (snd (read_events sample fresh))).
Proof.
  apply (proj2 items_carry_position sample (fst (read_events sample fresh))
           (fst (snd (read_events sample fresh)))).
  - vm_compute. reflexivity.
  - vm_compute. reflexivity.
Defined.
(** ** The payloads *)

Lemma digits_snoc ds c : digits ds -> isdigit c = true -> digits (ds ++ [c]).
Proof.
  intros Hds Hc. apply Forall_app. split; [exact Hds | constructor; [exact Hc | constructor]].
Qed.

Lemma number_start_prefix c st : number_start c = Some st -> number_prefix st [c].
Proof.
  unfold number_start.
  destruct (Ascii.eqb c "-") eqn:Em.
  - apply Ascii.eqb_eq in Em. subst c. intros H; inversion H; subst. reflexivity.
  - destruct (isdigit c) eqn:Ed; [|discriminate].
    destruct (Ascii.eqb c "0") eqn:Ez; intros H; inversion H; subst; cbn [number_prefix].
    + apply Ascii.eqb_eq in Ez. subst c. exists []. split; [left; reflexivity | reflexivity].
    + apply Ascii.eqb_neq in Ez. exists [], c, [].
      split; [left; reflexivity|]. repeat split; [exact Ed | exact Ez | constructor].
Qed.

Lemma exponent_letter c :
  Ascii.eqb c "e" || Ascii.eqb c "E" = true -> c = "e"%char \/ c = "E"%char.
Proof.
  intros H. apply orb_true_iff in H.
  destruct H as [H | H]; apply Ascii.eqb_eq in H; auto.
Qed.

Lemma number_step_prefix st c st' p :
  number_prefix st p -> number_step st c = Some st' -> number_prefix st' (p ++ [c]).
Proof.
  destruct st; cbn [number_prefix number_step]; try contradiction.
  - (* integer_1_state *)
    intros ->. destruct (isdigit c) eqn:Ed; [|discriminate].
    destruct (Ascii.eqb c "0") eqn:Ez; intros H; inversion H; subst; cbn [number_prefix].
    + apply Ascii.eqb_eq in Ez. subst c. exists ["-"%char].
      split; [right; reflexivity | reflexivity].
    + apply Ascii.eqb_neq in Ez. exists ["-"%char], c, [].
      split; [right; reflexivity|]. repeat split; [exact Ed | exact Ez | constructor].
  - (* integer_n_state *)
    intros (m & d & ds & Hm & -> & Hd & Hnz & Hds).
    assert (Hint : int_part (d :: ds)).
    { right. exists d, ds. repeat split; assumption. }
    destruct (isdigit c) eqn:Ed.
    + intros H; inversion H; subst; cbn [number_prefix].
      exists m, d, (ds ++ [c]). split; [exact Hm|].
      split; [rewrite <- app_assoc; reflexivity|].
      repeat split; [exact Hd | exact Hnz | apply digits_snoc; assumption].
    + destruct (Ascii.eqb c ".") eqn:Edot.
      * apply Ascii.eqb_eq in Edot. subst c.
        intros H; inversion H; subst; cbn [number_prefix].
        exists m, (d :: ds). split; [exact Hm|]. split; [exact Hint|].
        rewrite <- app_assoc. reflexivity.
      * destruct (Ascii.eqb c "e" || Ascii.eqb c "E") eqn:Ee; [|discriminate].
        apply exponent_letter in Ee.
        intros H; inversion H; subst; cbn [number_prefix].
        exists m, (d :: ds), [], c. split; [exact Hm|]. split; [exact Hint|].
        split; [left; reflexivity|]. split; [exact Ee|].
        rewrite <- app_assoc. reflexivity.
  - (* integer_z_state *)
    intros (m & Hm & ->).
    assert (Hint : int_part ["0"%char]) by (left; reflexivity).
    destruct (Ascii.eqb c ".") eqn:Edot.
    + apply Ascii.eqb_eq in Edot. subst c.
      intros H; inversion H; subst; cbn [number_prefix].
      exists m, ["0"%char]. split; [exact Hm|]. split; [exact Hint|].
      rewrite <- app_assoc. reflexivity.
    + destruct (Ascii.eqb c "e" || Ascii.eqb c "E") eqn:Ee; [|discriminate].
      apply exponent_letter in Ee.
      intros H; inversion H; subst; cbn [number_prefix].
      exists m, ["0"%char], [], c. split; [exact Hm|]. split; [exact Hint|].
      split; [left; reflexivity|]. split; [exact Ee|].
      rewrite <- app_assoc. reflexivity.
  - (* fractional_1_state *)
    intros (m & i & Hm & Hi & ->).
    destruct (isdigit c) eqn:Ed; [|discriminate].
    intros H; inversion H; subst; cbn [number_prefix].
    exists m, i, ["."%char; c]. split; [exact Hm|]. split; [exact Hi|]. split.
    + exists c, []. split; [reflexivity|]. constructor; [exact Ed | constructor].
    + rewrite <- !app_assoc. reflexivity.
  - (* fractional_n_state *)
    intros (m & i & f & Hm & Hi & Hf & ->).
    destruct (isdigit c) eqn:Ed.
    + intros H; inversion H; subst; cbn [number_prefix].
      exists m, i, (f ++ [c]). split; [exact Hm|]. split; [exact Hi|]. split.
      * destruct Hf as (d & ds & -> & Hds). exists d, (ds ++ [c]).
        split; [reflexivity|].
        change (d :: ds ++ [c]) with ((d :: ds) ++ [c]). apply digits_snoc; assumption.
      * rewrite <- !app_assoc. reflexivity.
    + destruct (Ascii.eqb c "e" || Ascii.eqb c "E") eqn:Ee; [|discriminate].
      apply exponent_letter in Ee.
      intros H; inversion H; subst; cbn [number_prefix].
      exists m, i, f, c. split; [exact Hm|]. split; [exact Hi|].
      split; [right; exact Hf|]. split; [exact Ee|].
      rewrite <- !app_assoc. reflexivity.
  - (* exponent_state *)
    intros (m & i & f & e & Hm & Hi & Hf & He & ->).
    destruct (isdigit c) eqn:Ed.
    + intros H; inversion H; subst; cbn [number_prefix].
      exists m, i, f, [e; c]. split; [exact Hm|]. split; [exact Hi|].
      split; [exact Hf|]. split.
      * exists e, [], c, []. split; [reflexivity|]. split; [exact He|].
        split; [left; reflexivity|]. constructor; [exact Ed | constructor].
      * rewrite <- !app_assoc. reflexivity.
    + destruct (Ascii.eqb c "-" || Ascii.eqb c "+") eqn:Es; [|discriminate].
      apply orb_true_iff in Es.
      assert (Hs : c = "-"%char \/ c = "+"%char)
        by (destruct Es as [Es | Es]; apply Ascii.eqb_eq in Es; auto).
      intros H; inversion H; subst; cbn [number_prefix].
      exists m, i, f, e, c. split; [exact Hm|]. split; [exact Hi|].
      split; [exact Hf|]. split; [exact He|]. split; [exact Hs|].
      rewrite <- !app_assoc. reflexivity.
  - (* exponent_1_state *)
    intros (m & i & f & e & sign & Hm & Hi & Hf & He & Hs & ->).
    destruct (isdigit c) eqn:Ed; [|discriminate].
    intros H; inversion H; subst; cbn [number_prefix].
    exists m, i, f, [e; sign; c]. split; [exact Hm|]. split; [exact Hi|].
    split; [exact Hf|]. split.
    + exists e, [sign], c, []. split; [reflexivity|]. split; [exact He|].
      split; [destruct Hs as [-> | ->]; auto|]. constructor; [exact Ed | constructor].
    + rewrite <- !app_assoc. reflexivity.
  - (* exponent_n_state *)
    intros (m & i & f & x & Hm & Hi & Hf & Hx & ->).
    destruct (isdigit c) eqn:Ed; [|discriminate].
    intros H; inversion H; subst; cbn [number_prefix].
    exists m, i, f, (x ++ [c]). split; [exact Hm|]. split; [exact Hi|].
    split; [exact Hf|]. split.
    + destruct Hx as (e & sign & d & ds & -> & He & Hs & Hds).
      exists e, sign, d, (ds ++ [c]). split.
      * cbn [app]. rewrite <- app_assoc. reflexivity.
      * split; [exact He|]. split; [exact Hs|].
        change (d :: ds ++ [c]) with ((d :: ds) ++ [c]). apply digits_snoc; assumption.
    + rewrite <- !app_assoc. reflexivity.
Qed.

Lemma number_run_prefix p' : forall st st' p,
  number_prefix st p -> number_run st p' = Some st' -> number_prefix st' (p ++ p').
Proof.
  induction p' as [|c p' IH]; intros st st' p Hp H.
  - inversion H; subst. rewrite app_nil_r. exact Hp.
  - cbn [number_run] in H.
    destruct (number_step st c) as [st1|] eqn:E; [|discriminate H].
    replace (p ++ c :: p') with ((p ++ [c]) ++ p') by (rewrite <- app_assoc; reflexivity).
    apply (IH st1); [|exact H]. exact (number_step_prefix _ _ _ _ Hp E).
Qed.

Lemma lexes_prefix p st : lexes p = Some st -> number_prefix st p.
Proof.
  destruct p as [|c p]; [discriminate|]. cbn [lexes].
  destruct (number_start c) as [s0|] eqn:E; [|discriminate]. intros H.
  change (c :: p) with ([c] ++ p).
  apply (number_run_prefix p s0); [|exact H]. apply number_start_prefix. exact E.
Qed.

(** The texts that [scan] hands over as integers and as reals are the
    numbers of the grammar, without and with a fraction or an exponent. *)
Lemma integer_text_syntax p : integer_text p <-> integer_syntax p.
Proof.
  split; [|apply integer_syntax_text].
  intros [H | H]; apply lexes_prefix in H; cbn [number_prefix] in H.
  - destruct H as (m & d & ds & Hm & -> & Hd & Hnz & Hds).
    exists m, (d :: ds). split; [reflexivity|]. split; [exact Hm|].
    right. exists d, ds. repeat split; assumption.
  - destruct H as (m & Hm & ->). exists m, ["0"%char].
    split; [reflexivity|]. split; [exact Hm | left; reflexivity].
Qed.

Lemma real_text_syntax p : real_text p <-> real_syntax p.
Proof.
  split; [|apply real_syntax_text].
  intros [H | H]; apply lexes_prefix in H; cbn [number_prefix] in H.
  - destruct H as (m & i & f & Hm & Hi & Hf & ->).
    exists m, i, f, []. rewrite app_nil_r. split; [reflexivity|].
    split; [exact Hm|]. split; [exact Hi|]. split; [right; exact Hf|].
    split; [left; reflexivity|]. left.
    destruct Hf as (d & ds & -> & _). discriminate.
  - destruct H as (m & i & f & x & Hm & Hi & Hf & Hx & ->).
    exists m, i, f, x. split; [reflexivity|].
    split; [exact Hm|]. split; [exact Hi|]. split; [exact Hf|].
    split; [right; exact Hx|]. right.
    destruct Hx as (e & sign & d & ds & -> & _). discriminate.
Qed.

Lemma valid_event_syntax e : valid_event e <-> payload_syntax e.
Proof.
  destruct e as [i d]. unfold valid_event, payload_syntax. cbn [fst snd].
  destruct i; try reflexivity; [apply integer_text_syntax | apply real_text_syntax].
Qed.

Lemma token_step_valid stk t i mid stk' d :
  token_step stk t = delivers i mid stk' -> token_data_ok t d -> valid_event (i, d).
Proof.
  destruct stk as [|[] rest]; destruct t; cbn [token_step value_step];
    intros H; inversion H; subst; intros Hd; exact Hd.
Qed.

Lemma token_valid t r log r' log' :
  Forall valid_event (map payload log) ->
  token_data_ok t (basic_reader.m_data r) ->
  basic_reader.token _ basic_reader.record_event t (r, log) = (Return tt, (r', log')) ->
  Forall valid_event (map payload log').
Proof.
  destruct r as [stk st data row col u]. cbn [basic_reader.m_data].
  intros Hlog Hd. rewrite token_eq_step.
  destruct (token_step stk t) as [mid what|stk'|i mid stk'] eqn:E;
    cbn [basic_reader.record_event modify]; intros H; inversion H; subst;
    [exact Hlog|].
  rewrite map_app. apply Forall_app. split; [exact Hlog|].
  constructor; [|constructor]. exact (token_step_valid _ _ _ _ _ _ E Hd).
Qed.

(** When [operator()] throws, too, what it has delivered before is valid. *)
Lemma feed_valid c r log res r' log' :
  buffer_ok r ->
  Forall valid_event (map payload log) ->
  basic_reader.feed _ basic_reader.record_event c (r, log) = (res, (r', log')) ->
  Forall valid_event (map payload log').
Proof.
  intros Hb Hlog.
  assert (Hinv : lexer_inv (fun _ l => Forall valid_event (map payload l)) (r, log))
    by (split; assumption).
  assert (Hscan : forall w b w',
             lexer_inv (fun _ l => Forall valid_event (map payload l)) w ->
             basic_reader.scan _ basic_reader.record_event c w = (Return b, w') ->
             lexer_inv (fun _ l => Forall valid_event (map payload l)) w').
  { intros w b w'. apply scan_inv.
    intros t r0 env r0' env' HG Hd Ht. exact (token_valid _ _ _ _ _ HG Hd Ht). }
  unfold basic_reader.feed, basic_reader.operator_call.
  cbn [basic_reader.scan_loop]. unfold bind at 1. unfold bind at 1.
  destruct (basic_reader.scan _ basic_reader.record_event c (r, log))
    as [[b1|e1|] [r1 log1]] eqn:E1.
  - pose proof (Hscan _ _ _ Hinv E1) as Hinv1. destruct b1.
    + unfold ret. rewrite move_eq. intros H; inversion H; subst. exact (proj2 Hinv1).
    + unfold bind at 1. unfold bind at 1.
      destruct (basic_reader.scan _ basic_reader.record_event c (r1, log1))
        as [[b2|e2|] [r2 log2]] eqn:E2.
      * pose proof (Hscan _ _ _ Hinv1 E2) as Hinv2. destruct b2.
        -- unfold ret. rewrite move_eq. intros H; inversion H; subst. exact (proj2 Hinv2).
        -- unfold timeout. intros H; inversion H; subst. exact (proj2 Hinv2).
      * apply scan_outcome in E2. intros H; inversion H; subst.
        destruct E2 as [-> | [(b & Hb') _]]; [exact (proj2 Hinv1) | discriminate Hb'].
      * apply scan_outcome in E2. intros H; inversion H; subst.
        destruct E2 as [-> | [(b & Hb') _]]; [exact (proj2 Hinv1) | discriminate Hb'].
  - apply scan_outcome in E1. intros H; inversion H; subst.
    destruct E1 as [-> | [(b & Hb') _]]; [exact Hlog | discriminate Hb'].
  - apply scan_outcome in E1. intros H; inversion H; subst.
    destruct E1 as [-> | [(b & Hb') _]]; [exact Hlog | discriminate Hb'].
Qed.

Lemma read_events_valid cs :
  Forall valid_event (events_of (read_events cs fresh)).
Proof.
  unfold events_of.
  destruct (read_events cs fresh) as [res [r log]] eqn:E. cbn [snd].
  assert (Hret : forall p r1 log1,
             read_events p fresh = (Return tt, (r1, log1)) ->
             lexer_inv (fun _ l => Forall valid_event (map payload l)) (r1, log1)).
  { intros p r1 log1 Hp.
    apply (for_each_inv _ basic_reader.record_event
             (fun _ l => Forall valid_event (map payload l))) with (cs := p) (w := fresh).
    - intros t r0 env r0' env' HG Hd Ht. exact (token_valid _ _ _ _ _ HG Hd Ht).
    - split; [reflexivity | constructor].
    - exact Hp. }
  destruct res as [[]|e|].
  - exact (proj2 (Hret _ _ _ E)).
  - destruct (for_each_throw_split _ _ cs _ _ _ E) as (p & c & rest & [r1 log1] & _ & Hp & Hc).
    destruct (Hret _ _ _ Hp) as [Hb Hlog].
    exact (feed_valid _ _ _ _ _ _ Hb Hlog Hc).
  - exfalso. apply (read_events_total cs fresh). rewrite E. reflexivity.
Qed.

(** Whatever the input and however reading it ends, every item that
    a fresh reader delivers has a payload of its kind: a number of the JSON
    grammar without fraction and exponent for an IntegerValue, one with a
    fraction or an exponent for a RealValue, and the empty string for the
    brackets and for null, true and false. *)
Theorem payloads_follow_grammar :
  forall cs, Forall payload_syntax (events_of (read_events cs fresh)).
Proof.
  intros cs. eapply Forall_impl; [|exact (read_events_valid cs)].
  intros e. apply valid_event_syntax.
Qed.
(** ** Two callbacks side by side *)

Section SimulationFacts.
Import basic_reader.
Variables Env1 Env2 : Type.
Variable cb1 : item -> string_type -> Z -> Z -> M Env1 unit.
Variable cb2 : item -> string_type -> Z -> Z -> M Env2 unit.
Variable E : Env1 -> Env2 -> Prop.
Variable S : list token_state -> Env1 -> Env2 -> Prop.

Local Abbreviation sim := (simulates Env1 Env2 E S).

Lemma sim_ret {A : Type} (a : A) : sim (ret a) (ret a).
Proof.
  intros w1 w2 (Hr & HE & HS). cbn. repeat split; try assumption. intros _ _. exact HS.
Qed.

Lemma sim_throw {A : Type} e : sim (@throw _ A e) (@throw _ A e).
Proof.
  intros w1 w2 (Hr & HE & HS). cbn. repeat split; try assumption. intros a H. discriminate H.
Qed.

Lemma sim_timeout {A : Type} : sim (@timeout _ A) (@timeout _ A).
Proof.
  intros w1 w2 (Hr & HE & HS). cbn. repeat split; try assumption. intros a H. discriminate H.
Qed.

Lemma sim_member {A : Type} (f : reader -> A) : sim (member Env1 f) (member Env2 f).
Proof.
  intros w1 w2 (Hr & HE & HS). cbn. rewrite Hr. repeat split; try assumption.
  intros _ _. rewrite <- Hr. exact HS.
Qed.

Lemma sim_update f :
  (forall r, m_token_state (f r) = m_token_state r) ->
  sim (update Env1 f) (update Env2 f).
Proof.
  intros Hf w1 w2 (Hr & HE & HS). cbn. rewrite Hr. repeat split; try assumption.
  intros _ _. rewrite Hf, <- Hr. exact HS.
Qed.

Lemma sim_bind {A B : Type} m1 m2 (k1 : A -> M (world Env1) B) (k2 : A -> M (world Env2) B) :
  sim m1 m2 -> (forall a, sim (k1 a) (k2 a)) -> sim (bind m1 k1) (bind m2 k2).
Proof.
  intros Hm Hk w1 w2 Hrel. specialize (Hm w1 w2 Hrel). unfold bind.
  destruct (m1 w1) as [res1 [r1 e1]]. destruct (m2 w2) as [res2 [r2 e2]].
  cbn [fst snd] in Hm. destruct Hm as (Hres & Hr & HE & HS). subst res2 r2.
  destruct res1 as [a|e|].
  - apply Hk. split; [reflexivity|]. split; [exact HE|]. exact (HS a eq_refl).
  - cbn. repeat split; try assumption. intros a H. discriminate H.
  - cbn. repeat split; try assumption. intros a H. discriminate H.
Qed.

Ltac sim_with leaf :=
  unfold basic_reader.next, basic_reader.repeat,
    basic_reader.unexpected_character, basic_reader.raise,
    basic_reader.take_unicode, basic_reader.unicode, basic_reader.take;
  repeat match goal with
         | |- simulates _ _ _ _ (bind _ _) (bind _ _) => apply sim_bind; [ | intros ? ]
         | |- simulates _ _ _ _ (ret _) (ret _) => apply sim_ret
         | |- simulates _ _ _ _ (throw _) (throw _) => apply sim_throw
         | |- simulates _ _ _ _ (member _ _) (member _ _) => apply sim_member
         | |- simulates _ _ _ _ (update _ _) (update _ _) =>
             apply sim_update; intros []; reflexivity
         | |- simulates _ _ _ _ (if ?b then _ else _) _ => destruct b
         | |- simulates _ _ _ _ (match ?x with default_state => _ | _ => _ end) _ =>
             destruct x
         | _ => leaf
         end.

(** What the two callbacks are to do alike: whenever [token] calls them,
    and whenever [token] changes the stack without calling them. *)
Hypothesis callback_sim : forall stk t i mid stk' data row col e1 e2,
  token_step stk t = delivers i mid stk' ->
  E e1 e2 -> S stk e1 e2 ->
  fst (cb1 i data row col e1) = fst (cb2 i data row col e2) /\
  E (snd (cb1 i data row col e1)) (snd (cb2 i data row col e2)) /\
  (forall a, fst (cb1 i data row col e1) = Return a ->
             S stk' (snd (cb1 i data row col e1)) (snd (cb2 i data row col e2))).
Hypothesis moves_sim : forall stk t stk' e1 e2,
  token_step stk t = moves stk' -> E e1 e2 -> S stk e1 e2 -> S stk' e1 e2.

Lemma token_sim t : sim (token Env1 cb1 t) (token Env2 cb2 t).
Proof.
  intros [[stk st data row col u] e1] [r2 e2] (Hr & HE & HS).
  cbn [fst snd m_token_state] in Hr, HE, HS. subst r2.
  rewrite !token_eq_step.
  destruct (token_step stk t) as [mid what|stk'|i mid stk'] eqn:Et.
  - cbn. repeat split; try assumption. intros a H. discriminate H.
  - cbn. repeat split; try assumption. intros _ _. exact (moves_sim _ _ _ _ _ Et HE HS).
  - destruct (callback_sim _ _ _ _ _ data row col e1 e2 Et HE HS) as (Hres & HE' & HS').
    destruct (cb1 i data row col e1) as [res1 e1']. destruct (cb2 i data row col e2) as [res2 e2'].
    cbn [fst snd] in Hres, HE', HS'. subst res2.
    destruct res1 as [a|e|]; cbn; repeat split; try assumption;
      first [ intros _ _; exact (HS' a eq_refl) | intros b H; discriminate H ].
Qed.

Lemma scan_sim c : sim (scan Env1 cb1 c) (scan Env2 cb2 c).
Proof.
  unfold basic_reader.scan. cbv zeta.
  sim_with ltac:(apply token_sim).
Qed.

Lemma scan_loop_sim fuel c : sim (scan_loop Env1 cb1 fuel c) (scan_loop Env2 cb2 fuel c).
Proof.
  induction fuel as [|fuel IH]; cbn [basic_reader.scan_loop].
  - apply sim_timeout.
  - apply sim_bind; [apply scan_sim|]. intros []; [apply sim_ret|].
    apply sim_bind; [exact IH | intros n; apply sim_ret].
Qed.

Lemma feed_sim c : sim (feed Env1 cb1 c) (feed Env2 cb2 c).
Proof.
  unfold basic_reader.feed, basic_reader.operator_call.
  apply sim_bind; [apply scan_loop_sim|]. intros n.
  unfold move. destruct (Ascii.eqb c newline); apply sim_update; intros []; reflexivity.
Qed.

Lemma for_each_sim cs : sim (for_each Env1 cb1 cs) (for_each Env2 cb2 cs).
Proof.
  induction cs as [|c cs IH]; cbn [basic_reader.for_each].
  - apply sim_ret.
  - apply sim_bind; [apply feed_sim | intros _; exact IH].
Qed.
End SimulationFacts.
(** ** The reader driving a writer *)

Lemma token_step_writer indent stk t i mid stk' d :
  token_step stk t = delivers i mid stk' ->
  exists text,
    writer_next indent (map writer_context stk) i d = Some (map writer_context stk', text).
Proof.
  destruct stk as [|[] rest]; destruct t; cbn [token_step value_step];
    intros H; inversion H; subst;
    cbn [map writer_context writer_next value_text opened option_map app];
    eexists; reflexivity.
Qed.

Lemma token_step_moves_writer stk t stk' :
  token_step stk t = moves stk' -> map writer_context stk' = map writer_context stk.
Proof.
  destruct stk as [|[] rest]; destruct t; cbn [token_step value_step];
    intros H; inversion H; subst; reflexivity.
Qed.

Lemma read_write_simulates indent cs :
  simulates (list basic_reader.event) basic_writer.world
    (fun log wo =>
       exists st out,
         writer_run indent [] (map payload log) = Some (st, out) /\
         wo = (basic_writer.mk_writer indent st, out))
    (fun stk log wo => basic_writer.m_state (fst wo) = map writer_context stk)
    (read_events cs) (read_write cs).
Proof.
  apply for_each_sim.
  - intros stk t i mid stk' data row col log wo Et (st & out & Hrun & ->) HS.
    cbn [fst basic_writer.m_state] in HS. subst st.
    destruct (token_step_writer indent _ _ _ _ _ data Et) as (text & Hnext).
    unfold forward. rewrite write_eq, Hnext.
    cbn [basic_reader.record_event modify fst snd basic_writer.m_state].
    split; [reflexivity|]. split; [|intros _ _; reflexivity].
    exists (map writer_context stk'), (out ++ text). split; [|reflexivity].
    unfold basic_reader.event in *. rewrite map_app, writer_run_app, Hrun. cbn [map payload writer_run].
    rewrite Hnext, app_nil_r. reflexivity.
  - intros stk t stk' log wo Et _ HS. rewrite HS.
    symmetry. exact (token_step_moves_writer _ _ _ Et).
Qed.

(** The result of the forwarding reader, and what its writer has written. *)
Lemma read_write_replay indent cs :
  fst (read_write cs (basic_reader.init, (basic_writer.indent indent basic_writer.init, []))) =
    fst (read_events cs fresh) /\
  exists st out,
    writer_run indent [] (events_of (read_events cs fresh)) = Some (st, out) /\
    snd (snd (read_write cs
                (basic_reader.init, (basic_writer.indent indent basic_writer.init, [])))) =
      (basic_writer.mk_writer indent st, out).
Proof.
  destruct (read_write_simulates indent cs fresh
              (basic_reader.init, (basic_writer.indent indent basic_writer.init, [])))
    as (Hres & _ & (st & out & Hrun & Hwo) & _).
  { split; [reflexivity|]. split; [|reflexivity].
    exists [], []. split; reflexivity. }
  split; [symmetry; exact Hres|]. exists st, out. split; [exact Hrun | exact Hwo].
Qed.

(** The callback of main.cpp forwards every item to a writer at once.  A
    reader with this callback ends as the reader alone ends, with the same
    exception if with one, and in the same state: the writer never rejects
    an item that the reader delivers.  What the writer has written by then
    is what it writes when the items are replayed to it afterwards. *)
Theorem forwarding_is_replaying :
  forall indent cs,
    fst (read_write cs (basic_reader.init, (basic_writer.indent indent basic_writer.init, []))) =
      fst (read_events cs fresh) /\
    fst (snd (read_write cs
                (basic_reader.init, (basic_writer.indent indent basic_writer.init, [])))) =
      fst (snd (read_events cs fresh)) /\
    basic_writer.replay (events_of (read_events cs fresh))
      (basic_writer.indent indent basic_writer.init, []) =
      (Return tt,
       snd (snd (read_write cs
                   (basic_reader.init, (basic_writer.indent indent basic_writer.init, []))))).
Proof.
  intros indent cs.
  destruct (read_write_simulates indent cs fresh
              (basic_reader.init, (basic_writer.indent indent basic_writer.init, [])))
    as (Hres & Hr & (st & out & Hrun & Hwo) & _).
  { split; [reflexivity|]. split; [|reflexivity].
    exists [], []. split; reflexivity. }
  split; [symmetry; exact Hres|]. split; [symmetry; exact Hr|].
  rewrite Hwo. unfold events_of.
  exact (replay_eq indent _ [] [] st out Hrun).
Qed.
(** ** The writer *)

Lemma replay_inv indent items : forall st out w' out',
  basic_writer.replay items (basic_writer.mk_writer indent st, out) =
    (Return tt, (w', out')) ->
  exists st' text,
    writer_run indent st items = Some (st', text) /\
    w' = basic_writer.mk_writer indent st' /\ out' = out ++ text.
Proof.
  induction items as [|[i d] items IH]; intros st out w' out' H.
  - inversion H; subst. exists st, []. rewrite app_nil_r. repeat split.
  - cbn [basic_writer.replay] in H. apply bind_Return_inv in H.
    destruct H as ([] & [w1 out1] & H1 & H2).
    rewrite write_eq in H1.
    destruct (writer_next indent st i d) as [[st1 text1]|] eqn:E1; [|discriminate H1].
    inversion H1; subst. apply IH in H2. destruct H2 as (st2 & text2 & Hrun & -> & ->).
    exists st2, (text1 ++ text2). cbn [writer_run]. rewrite E1, Hrun.
    rewrite app_assoc. repeat split.
Qed.

Lemma writer_next_matching indent st i d st' text :
  writer_next indent st i d = Some (st', text) ->
  matching (map writer_kind st) [i] = Some (map writer_kind st').
Proof.
  destruct st as [|[] rest]; destruct i;
    cbn [writer_next value_text opened option_map app];
    intros H; inversion H; subst; reflexivity.
Qed.

Lemma writer_run_matching indent items : forall st st' text,
  writer_run indent st items = Some (st', text) ->
  matching (map writer_kind st) (map fst items) = Some (map writer_kind st').
Proof.
  induction items as [|[i d] items IH]; intros st st' text H.
  - inversion H; subst. reflexivity.
  - cbn [writer_run] in H.
    destruct (writer_next indent st i d) as [[st1 text1]|] eqn:E1; [|discriminate H].
    destruct (writer_run indent st1 items) as [[st2 text2]|] eqn:E2; [|discriminate H].
    inversion H; subst. cbn [map fst].
    change (i :: map fst items) with ([i] ++ map fst items).
    rewrite matching_app, (writer_next_matching _ _ _ _ _ _ E1). exact (IH _ _ _ E2).
Qed.

(** A writer that has accepted a stream of items holds on its stack the
    containers that the stream has opened and not closed, each of the kind
    it was opened with: an end that does not close the innermost container
    is never accepted.  The height of the stack is the number of begins
    minus the number of ends, the indent width is unchanged, and the output
    has only been appended to. *)
Theorem writer_stack_balance :
  forall items w out w' out',
    basic_writer.replay items (w, out) = (Return tt, (w', out')) ->
    matching (map writer_kind (basic_writer.m_state w)) (map fst items) =
      Some (map writer_kind (basic_writer.m_state w')) /\
    Z.of_nat (List.length (basic_writer.m_state w')) =
      Z.of_nat (List.length (basic_writer.m_state w)) + depth (map fst items) /\
    basic_writer.m_indent w' = basic_writer.m_indent w /\
    exists text, out' = out ++ text.
Proof.
  intros items [indent st] out w' out' H.
  apply replay_inv in H. destruct H as (st' & text & Hrun & -> & ->).
  apply writer_run_matching in Hrun. cbn [basic_writer.m_state basic_writer.m_indent].
  split; [exact Hrun|]. split; [|split; [reflexivity | exists text; reflexivity]].
  apply matching_depth in Hrun. rewrite !length_map in Hrun. exact Hrun.
Qed.

Lemma writer_stack_balance_witness :
  matching [] (map fst (events_of (read_events sample fresh))) = Some [].
Proof.
  exact (proj1 (writer_stack_balance (events_of (read_events sample fresh))
                  basic_writer.init []
                  (fst (snd (basic_writer.replay (events_of (read_events sample fresh))
                               (basic_writer.init, []))))
                  (snd (snd (basic_writer.replay (events_of (read_events sample fresh))
                               (basic_writer.init, []))))
                  eq_refl)).
Defined.




(** *** The compact form *)

Lemma number_step_char st c st' : number_step st c = Some st' -> number_char c = true.
Proof.
  unfold number_step, number_char.
  destruct st; try discriminate;
    destruct (isdigit c); try reflexivity;
    destruct (Ascii.eqb c "-"); try reflexivity;
    destruct (Ascii.eqb c "+"); try reflexivity;
    destruct (Ascii.eqb c "."); try reflexivity;
    destruct (Ascii.eqb c "e"); try reflexivity;
    destruct (Ascii.eqb c "E"); try reflexivity; discriminate.
Qed.

Lemma number_start_char c st : number_start c = Some st -> number_char c = true.
Proof.
  unfold number_start, number_char.
  destruct (Ascii.eqb c "-"); [intros _; destruct (isdigit c); reflexivity|].
  destruct (isdigit c); [reflexivity | discriminate].
Qed.

Lemma number_run_chars p : forall st st',
  number_run st p = Some st' -> Forall (fun c => number_char c = true) p.
Proof.
  induction p as [|c p IH]; intros st st' H; [constructor|].
  cbn [number_run] in H. destruct (number_step st c) as [st1|] eqn:E; [|discriminate H].
  constructor; [exact (number_step_char _ _ _ E) | exact (IH _ _ H)].
Qed.

Lemma lexes_chars p st : lexes p = Some st -> Forall (fun c => number_char c = true) p.
Proof.
  destruct p as [|c p]; [discriminate|]. cbn [lexes].
  destruct (number_start c) as [s0|] eqn:E; [|discriminate]. intros H.
  constructor; [exact (number_start_char _ _ E) | exact (number_run_chars _ _ _ H)].
Qed.

Lemma number_no_newline p st : lexes p = Some st -> ~ In newline p.
Proof.
  intros H Hin. apply lexes_chars in H. rewrite Forall_forall in H.
  specialize (H _ Hin). discriminate H.
Qed.

Lemma escape_chars_no_newline c : ~ In newline (escape_chars c).
Proof.
  unfold escape_chars, basic_writer.encode.
  repeat match goal with
         | |- context [if Ascii.eqb c ?x then _ else _] =>
             destruct (Ascii.eqb_spec c x) as [->|?]
         end;
    cbn; intros H;
    repeat match goal with
           | H : _ \/ _ |- _ => destruct H as [H|H]
           end;
    first [contradiction | discriminate H | congruence].
Qed.

Lemma escaped_no_newline d : ~ In newline (escaped d).
Proof.
  induction d as [|c d IH]; [intros []|].
  cbn [escaped flat_map]. intros H. apply in_app_or in H.
  destruct H as [H|H]; [exact (escape_chars_no_newline c H) | exact (IH H)].
Qed.

Lemma quote_no_newline d : ~ In newline (quote d).
Proof.
  unfold quote. intros [H|H]; [discriminate H|].
  apply in_app_or in H. destruct H as [H|[H|[]]];
    [exact (escaped_no_newline d H) | discriminate H].
Qed.

Lemma value_text_no_newline i d vt :
  value_text i d = Some vt -> valid_event (i, d) -> ~ In newline vt.
Proof.
  destruct i; cbn [value_text]; intros H; inversion H; subst;
    unfold valid_event; cbn [fst snd]; intros Hv;
    try (cbn; intros Hin;
         repeat match goal with
                | H : _ \/ _ |- _ => destruct H as [H|H]
                end; first [contradiction | discriminate]).
  - apply quote_no_newline.
  - destruct Hv as [Hv|Hv]; exact (number_no_newline _ _ Hv).
  - destruct Hv as [Hv|Hv]; exact (number_no_newline _ _ Hv).
Qed.

Lemma writer_next_no_newline st i d st' text :
  writer_next 0 st i d = Some (st', text) -> valid_event (i, d) -> ~ In newline text.
Proof.
  intros H Hv Hin.
  assert (Hvt : forall vt, value_text i d = Some vt -> ~ In newline vt)
    by (intros vt E; exact (value_text_no_newline _ _ _ E Hv)).
  destruct st as [|[] rest]; cbn [writer_next] in H;
    try (destruct (value_text i d) as [vt|] eqn:E; cbn [option_map] in H);
    destruct i; try discriminate H; inversion H; subst; clear H;
    change (endl_chars 0 _) with (@nil ascii) in Hin;
    unfold basic_writer.object_end_data, basic_writer.array_end_data,
      basic_writer.comma_data, basic_writer.colon_data in Hin;
    cbn [app] in Hin;
    repeat match goal with
           | H : In _ (_ ++ _) |- _ => apply in_app_or in H
           | H : In _ (_ :: _) |- _ => destruct H as [H|H]
           | H : _ \/ _ |- _ => destruct H as [H|H]
           | H : In _ [] |- _ => destruct H
           | H : In newline (quote _) |- _ => exact (quote_no_newline _ H)
           | H : In newline (escaped _) |- _ => exact (escaped_no_newline _ H)
           | H : In newline ?vt |- _ => exact (Hvt _ eq_refl H)
           | H : _ = newline |- _ => discriminate H
           end.
Qed.

Lemma writer_run_no_newline items : forall st st' text,
  writer_run 0 st items = Some (st', text) -> Forall valid_event items -> ~ In newline text.
Proof.
  induction items as [|[i d] items IH]; intros st st' text H Hv.
  - inversion H; subst. intros [].
  - cbn [writer_run] in H.
    destruct (writer_next 0 st i d) as [[st1 text1]|] eqn:E1; [|discriminate H].
    destruct (writer_run 0 st1 items) as [[st2 text2]|] eqn:E2; [|discriminate H].
    inversion H; subst. inversion Hv; subst. intros Hin. apply in_app_or in Hin.
    destruct Hin as [Hin|Hin];
      [exact (writer_next_no_newline _ _ _ _ _ E1 H2 Hin) | exact (IH _ _ _ E2 H3 Hin)].
Qed.

(** A reader that forwards its items to a writer of indent width 0 never
    makes it write a newline, whatever the input and however reading it
    ends: [endl] writes nothing, [string] escapes the newlines of a payload,
    and the payloads of the numbers that the reader delivers contain none. *)
Theorem compact_output_is_one_line :
  forall cs,
    ~ In newline (snd (snd (snd (read_write cs (basic_reader.init, (compact, [])))))).
Proof.
  intros cs. destruct (read_write_replay 0 cs) as (_ & st & out & Hrun & Hout).
  change (basic_writer.indent 0 basic_writer.init) with compact in Hout.
  rewrite Hout. cbn [snd].
  exact (writer_run_no_newline _ _ _ _ Hrun (read_events_valid cs)).
Qed.
(** ** [read] *)

Lemma read_events_prefix pre cs r log :
  read_events cs (r, pre ++ log) =
    (fst (read_events cs (r, log)),
     (fst (snd (read_events cs (r, log))), pre ++ snd (snd (read_events cs (r, log))))).
Proof.
  destruct (for_each_sim _ _ basic_reader.record_event basic_reader.record_event
              (fun l1 l2 => l1 = pre ++ l2) (fun _ _ _ => True)) with
    (cs := cs) (w1 := (r, pre ++ log)) (w2 := (r, log)) as (Hres & Hr & HE & _).
  - intros stk t i mid stk' data row col e1 e2 _ -> _.
    cbn [basic_reader.record_event modify fst snd].
    split; [reflexivity|]. split; [symmetry; apply app_assoc | intros _ _; exact I].
  - intros; exact I.
  - repeat split.
  - unfold read_events.
    destruct (basic_reader.for_each _ basic_reader.record_event cs (r, pre ++ log))
      as [res1 [r1 l1]].
    cbn [fst snd] in *. subst. reflexivity.
Qed.

(** [read] hands a copy of the reader to [std::for_each]: the reader
    itself is left as it was.  Two calls in a row each start from the state
    the reader had before the first, the cursor included; what the first
    call was in the middle of is forgotten. *)
Theorem read_starts_over :
  forall a b r log,
    fst (read_events a (r, [])) = Return tt ->
    bind (basic_reader.read _ basic_reader.record_event a)
      (fun _ => basic_reader.read _ basic_reader.record_event b) (r, log) =
      (fst (read_events b (r, [])),
       (r, log ++ snd (snd (read_events a (r, []))) ++ snd (snd (read_events b (r, []))))).
Proof.
  intros a b r log Ha.
  assert (Hread : forall cs l,
             basic_reader.read _ basic_reader.record_event cs (r, l) =
               (fst (read_events cs (r, [])), (r, l ++ snd (snd (read_events cs (r, [])))))).
  { intros cs l. unfold basic_reader.read.
    change (basic_reader.for_each _ basic_reader.record_event cs (r, l))
      with (read_events cs (r, l)).
    rewrite <- (app_nil_r l) at 1. rewrite read_events_prefix. reflexivity. }
  unfold bind. rewrite Hread, Ha, Hread, app_assoc. reflexivity.
Qed.

Lemma read_starts_over_witness :
  bind (basic_reader.read _ basic_reader.record_event (text "{"))
    (fun _ => basic_reader.read _ basic_reader.record_event (text "}")) fresh =
    (Throw (json_exception basic_reader.begin_expected 1 1),
     (basic_reader.init, [(object_begin, [], 1, 1)])).
Proof.
  exact (read_starts_over (text "{") (text "}") basic_reader.init [] eq_refl).
Defined.

(** ** The loop of [operator()] *)

(** The loop of [operator()] ends after at most two calls of [scan],
    whatever the callback: iterations beyond the second are never used.
    With a callback that always returns or throws, so does feeding any
    range. *)
Theorem operator_call_terminates :
  forall (Env : Type) (m_callback : item -> string_type -> Z -> Z -> M Env unit),
    (forall n c w,
        basic_reader.operator_call Env m_callback (S (S n)) c w =
          basic_reader.feed Env m_callback c w) /\
    ((forall i data row column env, fst (m_callback i data row column env) <> OutOfFuel) ->
     forall cs w, fst (basic_reader.for_each Env m_callback cs w) <> OutOfFuel).
Proof.
  intros Env cb. split.
  - intros n c w. apply operator_call_fuel.
  - intros Hcb cs w. apply for_each_total. exact Hcb.
Qed.

Lemma operator_call_terminates_witness :
  fst (read_events sample fresh) <> OutOfFuel.
Proof.
  apply (proj2 (operator_call_terminates _ basic_reader.record_event)).
  intros i data row column env. discriminate.
Defined.
(** ** main.cpp *)

Lemma istream_range_no_space file :
  Forall (fun c => isspace c = false) (istream_range file).
Proof.
  destruct file as [contents|]; [|constructor]. cbn [istream_range].
  apply Forall_forall. intros c Hin. apply filter_In in Hin.
  destruct Hin as [_ Hc]. destruct (isspace c); [discriminate Hc | reflexivity].
Qed.

Lemma cursor_on_one_line p : forall row col,
  Forall (fun c => isspace c = false) p ->
  fold_left advance p (row, col) = (row, col + Z.of_nat (List.length p)).
Proof.
  induction p as [|c p IH]; intros row col Hp.
  - cbn. f_equal. lia.
  - inversion Hp as [|? ? Hc Hp']; subst. cbn [fold_left List.length].
    assert (Hnl : Ascii.eqb c newline = false).
    { destruct (Ascii.eqb_spec c newline) as [->|]; [discriminate Hc | reflexivity]. }
    unfold advance at 2. rewrite Hnl. cbn [fst snd]. rewrite IH by exact Hp'.
    f_equal. lia.
Qed.

(** [main] in terms of the reader alone. *)
Lemma main_eq file :
  main file =
    match fst (read_events (istream_range file) fresh) with
    | Return _ =>
        returned 0 (snd (snd (snd (read_write (istream_range file)
                                     (basic_reader.init, (basic_writer.init, [])))))) []
    | Throw (json_exception what row column) =>
        returned 0 (snd (snd (snd (read_write (istream_range file)
                                     (basic_reader.init, (basic_writer.init, []))))))
          (report what row column)
    | Throw bad_exception =>
        terminated (snd (snd (snd (read_write (istream_range file)
                                     (basic_reader.init, (basic_writer.init, []))))))
    | OutOfFuel => unfinished
    end.
Proof.
  unfold main. cbv zeta.
  destruct (read_leaves_reader _ forward (istream_range file)
              (basic_reader.init, (basic_writer.init, []))) as (Hres & _ & Henv).
  rewrite Hres, Henv.
  change (basic_reader.for_each _ forward (istream_range file))
    with (read_write (istream_range file)).
  pose proof (proj1 (read_write_replay 2 (istream_range file))) as H.
  change (basic_writer.indent 2 basic_writer.init) with basic_writer.init in H.
  rewrite H. reflexivity.
Qed.

(** [main] always returns 0: no exception leaves it.  [std::cout] gets
    what the writer, at its default indent width of 2, writes for the items
    that the reader delivers.  [std::cerr] gets nothing, or one line with
    one of the messages of the reader, never one of the writer; since the
    white space of the file does not reach the reader, the row in it is
    always 1 and the column is one more than the number of characters other
    than white space that were read before the error. *)
Theorem main_reports_reader_errors :
  forall file,
    exists w' cout cerr,
      basic_writer.replay (events_of (read_events (istream_range file) fresh))
        (basic_writer.init, []) = (Return tt, (w', cout)) /\
      main file = returned 0 cout cerr /\
      ((fst (read_events (istream_range file) fresh) = Return tt /\ cerr = []) \/
       (exists what row column,
           In what reader_messages /\
           cerr = report what row column /\
           (Z.of_nat (List.length (istream_range file)) < size_modulus - 1 ->
            exists p c rest,
              istream_range file = p ++ c :: rest /\
              fst (read_events p fresh) = Return tt /\
              row = 1 /\ column = Z.of_nat (List.length p) + 1))).
Proof.
  intros file. rewrite main_eq.
  destruct (read_write_replay 2 (istream_range file)) as (_ & st & cout & Hrun & Hout).
  change (basic_writer.indent 2 basic_writer.init) with basic_writer.init in Hout.
  rewrite Hout. cbn [snd].
  pose proof (replay_eq 2 _ [] [] st cout Hrun) as Hreplay.
  change (basic_writer.mk_writer 2 []) with basic_writer.init in Hreplay.
  cbn [app] in Hreplay.
  exists (basic_writer.mk_writer 2 st), cout.
  destruct (read_events (istream_range file) fresh) as [res [r log]] eqn:E. cbn [fst].
  destruct res as [[]|e|].
  - exists []. split; [exact Hreplay|]. split; [reflexivity|]. left. split; reflexivity.
  - unfold read_events in E.
    destruct (for_each_throws _ _ _ _ _ _ E)
      as [(what & Hin & ->) | (i & d & row & col & env & Hcb)]; [|discriminate Hcb].
    eexists. split; [exact Hreplay|]. split; [reflexivity|]. right.
    exists what, (basic_reader.m_row r), (basic_reader.m_column r).
    split; [exact Hin|]. split; [reflexivity|]. intros Hlen.
    destruct (throw_cursor _ _ _ _ _ _ Hlen E)
      as (p & c & rest & w1 & Hsplit & Hp & _ & Hcur).
    exists p, c, rest. split; [exact Hsplit|].
    split; [unfold read_events, fresh; rewrite Hp; reflexivity|].
    assert (Hnospace : Forall (fun c => isspace c = false) p).
    { pose proof (istream_range_no_space file) as Hall. rewrite Hsplit in Hall.
      apply Forall_app in Hall. exact (proj1 Hall). }
    unfold cursor_after in Hcur. rewrite (cursor_on_one_line _ _ _ Hnospace) in Hcur.
    cbn [fst] in Hcur. unfold cursor in Hcur.
    pose proof (f_equal fst Hcur) as Hrow. pose proof (f_equal snd Hcur) as Hcol.
    cbn [fst snd] in Hrow, Hcol. split; [exact Hrow | lia].
  - exfalso. apply (read_events_total (istream_range file) fresh). rewrite E. reflexivity.
Qed.

Lemma main_reports_reader_errors_witness :
  main (Some (text "{ " ++ quoted "a" ++ text " : }")) =
    returned 0 (text "{" ++ [newline] ++ text "  " ++ quoted "a" ++ text ": ")
      (text "value expected at 1:6" ++ [newline]).
Proof.
  destruct (main_reports_reader_errors (Some (text "{ " ++ quoted "a" ++ text " : }")))
    as (w' & cout & cerr & Hreplay & Hmain & _).
  rewrite Hmain.
  assert (Hcout : cout = text "{" ++ [newline] ++ text "  " ++ quoted "a" ++ text ": ").
  { vm_compute in Hreplay. inversion Hreplay. reflexivity. }
  assert (Hcerr : cerr = text "value expected at 1:6" ++ [newline]).
  { vm_compute in Hmain. inversion Hmain. reflexivity. }
  rewrite Hcout, Hcerr. reflexivity.
Defined.

(** When the characters of the file other than white space form a
    document of the grammar, [main] writes nothing to [std::cerr], and to
    [std::cout] what the writer writes for the items of that document at
    indent width 2: a text that a fresh reader reads as the same items. *)
Theorem main_rewrites_documents :
  forall file items,
    document (istream_range file) items ->
    exists cout,
      main file = returned 0 cout [] /\
      basic_writer.replay items (basic_writer.init, []) =
        (Return tt, (basic_writer.init, cout)) /\
      fst (read_events cout fresh) = Return tt /\
      events_of (read_events cout fresh) = items.
Proof.
  intros file items Hdoc. rewrite main_eq.
  destruct (document_read _ _ Hdoc) as (r & log & Hread & Hitems & Hstk & _).
  destruct (round_trip_of_read 2 _ _ _ Hread Hstk)
    as (out & Hreplay & r' & log' & Hread' & Hlog' & _).
  change (basic_writer.indent 2 basic_writer.init) with basic_writer.init in Hreplay.
  destruct (read_write_replay 2 (istream_range file)) as (_ & st & cout & Hrun & Hout).
  change (basic_writer.indent 2 basic_writer.init) with basic_writer.init in Hout.
  pose proof (replay_eq 2 _ [] [] st cout Hrun) as Hreplay'.
  change (basic_writer.mk_writer 2 []) with basic_writer.init in Hreplay'.
  cbn [app] in Hreplay'.
  unfold events_of in *. rewrite Hread in *. cbn [fst snd] in *.
  rewrite Hreplay in Hreplay'. injection Hreplay' as Hst Hcout.
  rewrite Hout, <- Hcout. cbn [snd].
  exists out. split; [reflexivity|]. rewrite <- Hitems. split; [exact Hreplay|].
  rewrite Hread'. cbn [fst snd]. split; [reflexivity | exact Hlog'].
Qed.

Lemma main_rewrites_documents_witness :
  exists cout,
    main (Some sample) = returned 0 cout [] /\
    events_of (read_events cout fresh) = events_of (read_events sample fresh).
Proof.
  destruct (main_rewrites_documents (Some sample) _ sample_document)
    as (cout & Hmain & _ & _ & Hitems).
  exists cout. split; [exact Hmain|]. rewrite Hitems. vm_compute. reflexivity.
Defined.
(** ** The lexer as a transition function *)

Lemma shifted_range u h : 0 <= shifted u h < 65536.
Proof. unfold shifted, uint16. change (2 ^ 16) with 65536. apply Z.mod_pos_bound. lia. Qed.

Lemma scan_eq_step (Env : Type)
  (m_callback : item -> string_type -> Z -> Z -> M Env unit) c stk st data row col u env :
  basic_reader.scan Env m_callback c (basic_reader.mk_reader stk st data row col u, env) =
    match scan_step st data u c with
    | goes st' data' u' =>
        (Return true, (basic_reader.mk_reader stk st' data' row col u', env))
    | emits t consumed =>
        bind (basic_reader.token Env m_callback t)
          (fun _ => if consumed then basic_reader.next Env basic_reader.default_state
                    else basic_reader.repeat Env basic_reader.default_state)
          (basic_reader.mk_reader stk st data row col u, env)
    | fails =>
        (Throw (json_exception "unexpected character" row col),
         (basic_reader.mk_reader stk st data row col u, env))
    end.
Proof.
  unfold basic_reader.scan, scan_step. cbv zeta. unfold bind at 1.
  cbn [basic_reader.member gets fst basic_reader.m_char_state].
  destruct st; cbv beta iota;
    repeat match goal with
           | |- context [if ?b then _ else _] => destruct b eqn:?
           end;
    try reflexivity;
    match goal with
    | Hx : isxdigit c = true |- _ =>
        unfold bind at 1; rewrite (unicode_eq _ c _ _ Hx)
    end;
    cbv beta iota; unfold basic_reader.set_unicode;
    cbn [basic_reader.m_token_state basic_reader.m_char_state
         basic_reader.m_data basic_reader.m_row basic_reader.m_column
         basic_reader.m_unicode];
    fold (shifted u c); try reflexivity.
  unfold bind at 1. rewrite (take_unicode_eq _ _ _ _ _ _ _ _ (shifted_range u c)).
  reflexivity.
Qed.
(** ** What the reader accepts is in the grammar *)

Ltac list_eq :=
  repeat (rewrite <- ?app_assoc; cbn [app]); rewrite ?app_nil_r; reflexivity.

Lemma string_body_app s1 d1 s2 d2 :
  string_body s1 d1 -> string_body s2 d2 -> string_body (s1 ++ s2) (d1 ++ d2).
Proof.
  intros H1 H2. induction H1 as [|c s d Hq Hb _ IH|c e s d Hin _ IH|h1 h2 h3 h4 s d X1 X2 X3 X4 _ IH].
  - exact H2.
  - cbn [app]. apply body_char; assumption.
  - cbn [app]. apply body_escape; assumption.
  - rewrite <- !app_assoc. apply body_unicode; assumption.
Qed.

Lemma string_body_char s d c :
  string_body s d -> Ascii.eqb c dquote = false -> Ascii.eqb c backslash = false ->
  string_body (s ++ [c]) (d ++ [c]).
Proof.
  intros H Hq Hb. apply string_body_app; [exact H|].
  apply body_char; [| |apply body_end].
  - intros ->. discriminate Hq.
  - intros ->. discriminate Hb.
Qed.

Lemma string_body_escape s d c e :
  string_body s d -> In (c, e) escapes -> string_body (s ++ [backslash; e]) (d ++ [c]).
Proof.
  intros H Hin. apply string_body_app; [exact H|].
  apply body_escape; [exact Hin | apply body_end].
Qed.

Lemma string_body_unicode s d h1 h2 h3 h4 :
  string_body s d ->
  isxdigit h1 = true -> isxdigit h2 = true -> isxdigit h3 = true -> isxdigit h4 = true ->
  string_body (s ++ [backslash; "u"%char; h1; h2; h3; h4])
    (d ++ utf8 (code_point h1 h2 h3 h4)).
Proof.
  intros H X1 X2 X3 X4. apply string_body_app; [exact H|].
  pose proof (body_unicode h1 h2 h3 h4 [] [] X1 X2 X3 X4 body_end) as Hu.
  rewrite !app_nil_r in Hu. exact Hu.
Qed.

Lemma spaces_snoc ws c : spaces ws -> isspace c = true -> spaces (ws ++ [c]).
Proof.
  intros Hws Hc. apply Forall_app. split; [exact Hws | constructor; [exact Hc | constructor]].
Qed.

Lemma spaces_nil : spaces [].
Proof. constructor. Qed.

(** The members before the last one, and the last one. *)
Lemma members_before_derives pre pit :
  members_before pre pit ->
  forall m mit, derives members_nt m mit -> derives members_nt (pre ++ m) (pit ++ mit).
Proof.
  induction 1 as [|pre pit s d ws1 ws2 v vit ws3 ws4 _ IH Hs H1 H2 Hv H3 H4];
    intros m mit Hm; [exact Hm|].
  replace ((pre ++ string_text s ++ ws1 ++ ":"%char :: ws2 ++ v ++ ws3 ++ ","%char :: ws4) ++ m)
    with (pre ++ (string_text s ++ ws1 ++ ":"%char :: ws2 ++ v ++ ws3 ++ ","%char :: ws4 ++ m))
    by list_eq.
  replace ((pit ++ (key, d) :: vit) ++ mit) with (pit ++ ((key, d) :: vit ++ mit))
    by list_eq.
  apply IH.
  exact (derives_members s d ws1 ws2 v vit ws3 ws4 m mit Hs H1 H2 Hv H3 H4 Hm).
Qed.

Lemma elements_before_derives pre pit :
  elements_before pre pit ->
  forall e eit, derives elements_nt e eit -> derives elements_nt (pre ++ e) (pit ++ eit).
Proof.
  induction 1 as [|pre pit v vit ws1 ws2 _ IH Hv H1 H2]; intros e eit He; [exact He|].
  replace ((pre ++ v ++ ws1 ++ ","%char :: ws2) ++ e)
    with (pre ++ (v ++ ws1 ++ ","%char :: ws2 ++ e)) by list_eq.
  replace ((pit ++ vit) ++ eit) with (pit ++ (vit ++ eit)) by list_eq.
  apply IH.
  exact (derives_elements v vit ws1 ws2 e eit Hv H1 H2 He).
Qed.

(** *** White space between tokens *)

Lemma key_position_space t it c :
  key_position t it -> isspace c = true -> key_position (t ++ [c]) it.
Proof.
  intros (ws & pre & pit & Hws & Hpre & -> & ->) Hc.
  destruct Hpre as [|pre pit s d ws1 ws2 v vit ws3 ws4 Hpre Hs H1 H2 Hv H3 H4].
  - exists (ws ++ [c]), [], []. split; [apply spaces_snoc; assumption|].
    split; [constructor|]. rewrite !app_nil_r. split; reflexivity.
  - exists ws, (pre ++ string_text s ++ ws1 ++ ":"%char :: ws2 ++ v ++ ws3 ++
                ","%char :: (ws4 ++ [c])), (pit ++ (key, d) :: vit).
    split; [exact Hws|]. split.
    + apply members_before_snoc; try assumption. apply spaces_snoc; assumption.
    + split; [|reflexivity]. cbn [app]. f_equal.
      repeat (rewrite <- ?app_assoc; cbn [app]). reflexivity.
Qed.

Lemma element_position_space t it c :
  element_position t it -> isspace c = true -> element_position (t ++ [c]) it.
Proof.
  intros (ws & pre & pit & Hws & Hpre & -> & ->) Hc.
  destruct Hpre as [|pre pit v vit ws1 ws2 Hpre Hv H1 H2].
  - exists (ws ++ [c]), [], []. split; [apply spaces_snoc; assumption|].
    split; [constructor|]. rewrite !app_nil_r. split; reflexivity.
  - exists ws, (pre ++ v ++ ws1 ++ ","%char :: (ws2 ++ [c])), (pit ++ vit).
    split; [exact Hws|]. split.
    + apply elements_before_snoc; try assumption. apply spaces_snoc; assumption.
    + split; [|reflexivity]. cbn [app]. f_equal.
      repeat (rewrite <- ?app_assoc; cbn [app]). reflexivity.
Qed.

Lemma open_text_space top t it c :
  open_text top t it -> isspace c = true -> open_text top (t ++ [c]) it.
Proof.
  intros H Hc. destruct top; cbn [open_text] in *.
  - destruct H as (ws & Hws & -> & ->). exists (ws ++ [c]).
    split; [apply spaces_snoc; assumption|]. split; reflexivity.
  - apply key_position_space; assumption.
  - destruct H as (t0 & it0 & s & d & ws1 & Hk & Hs & H1 & -> & ->).
    exists t0, it0, s, d, (ws1 ++ [c]). split; [exact Hk|]. split; [exact Hs|].
    split; [apply spaces_snoc; assumption|]. split; [list_eq | reflexivity].
  - destruct H as (t0 & it0 & s & d & ws1 & ws2 & Hk & Hs & H1 & H2 & -> & ->).
    exists t0, it0, s, d, ws1, (ws2 ++ [c]). split; [exact Hk|]. split; [exact Hs|].
    split; [exact H1|]. split; [apply spaces_snoc; assumption|].
    split; [list_eq | reflexivity].
  - destruct H as (t0 & it0 & s & d & ws1 & ws2 & v & vit & ws3 &
                   Hk & Hs & H1 & H2 & Hv & H3 & -> & ->).
    exists t0, it0, s, d, ws1, ws2, v, vit, (ws3 ++ [c]).
    split; [exact Hk|]. split; [exact Hs|]. split; [exact H1|]. split; [exact H2|].
    split; [exact Hv|]. split; [apply spaces_snoc; assumption|].
    split; [list_eq | reflexivity].
  - destruct H as (ws & Hws & -> & ->). exists (ws ++ [c]).
    split; [apply spaces_snoc; assumption|]. split; reflexivity.
  - apply element_position_space; assumption.
  - destruct H as (t0 & it0 & v & vit & ws1 & He & Hv & H1 & -> & ->).
    exists t0, it0, v, vit, (ws1 ++ [c]). split; [exact He|]. split; [exact Hv|].
    split; [apply spaces_snoc; assumption|]. split; [list_eq | reflexivity].
Qed.

Lemma between_space stk T items c :
  between stk T items -> isspace c = true -> between stk (T ++ [c]) items.
Proof.
  intros H Hc. destruct stk as [|top rest]; cbn [between] in *.
  - apply documents_space; assumption.
  - destruct H as (T0 & it0 & t & it & Hctx & Hopen & -> & ->).
    exists T0, it0, (t ++ [c]), it. split; [exact Hctx|].
    split; [apply open_text_space; assumption|]. split; [list_eq | reflexivity].
Qed.

(** *** A value that is complete *)

Lemma object_1_key_position t it :
  open_text basic_reader.object_1_state t it -> key_position t it.
Proof.
  intros (ws & Hws & -> & ->). exists ws, [], [].
  split; [exact Hws|]. split; [constructor|]. rewrite app_nil_r. split; reflexivity.
Qed.

Lemma array_1_element_position t it :
  open_text basic_reader.array_1_state t it -> element_position t it.
Proof.
  intros (ws & Hws & -> & ->). exists ws, [], [].
  split; [exact Hws|]. split; [constructor|]. rewrite app_nil_r. split; reflexivity.
Qed.

Lemma value_done top rest T items v vit :
  context (top :: rest) T items -> derives value_nt v vit ->
  between (top :: rest) (T ++ v) (items ++ vit).
Proof.
  intros Hctx Hv. inversion Hctx as [|top' vtop rest' T0 it0 t it Hrest Hslot Hopen]; subst.
  cbn [between]. exists T0, it0, (t ++ v), (it ++ vit).
  split; [exact Hrest|]. split; [|split; [list_eq | list_eq]].
  destruct Hslot as [[-> ->] | [-> [-> | ->]]]; cbn [open_text] in *.
  - destruct Hopen as (t0 & it0' & s & d & ws1 & ws2 & Hk & Hs & H1 & H2 & -> & ->).
    exists t0, it0', s, d, ws1, ws2, v, vit, []. split; [exact Hk|]. split; [exact Hs|].
    split; [exact H1|]. split; [exact H2|]. split; [exact Hv|]. split; [apply spaces_nil|].
    split; list_eq.
  - apply array_1_element_position in Hopen.
    exists t, it, v, vit, []. split; [exact Hopen|]. split; [exact Hv|].
    split; [apply spaces_nil|]. split; list_eq.
  - exists t, it, v, vit, []. split; [exact Hopen|]. split; [exact Hv|].
    split; [apply spaces_nil|]. split; list_eq.
Qed.

Lemma container_done rest T items body bit :
  context rest T items -> derives container_nt body bit ->
  between rest (T ++ body) (items ++ bit).
Proof.
  intros Hctx Hbody. destruct rest as [|top rest].
  - inversion Hctx; subst. cbn [between]. apply documents_container; assumption.
  - apply value_done; [exact Hctx | apply derives_container; exact Hbody].
Qed.
(** *** One token *)

Ltac reshape T' I' :=
  match goal with
  | |- between _ ?T ?I => replace T with T' by list_eq; replace I with I' by list_eq
  end.

Lemma into_value top vtop rest T items :
  between (vtop :: rest) T items -> value_slot top vtop -> context (top :: rest) T items.
Proof.
  intros (T0 & it0 & t & it & Hctx & Hopen & -> & ->) Hslot.
  exact (context_value top vtop rest T0 it0 t it Hctx Hslot Hopen).
Qed.

Lemma open_object stk T items :
  context stk T items ->
  between (basic_reader.object_1_state :: stk) (T ++ ["{"%char])
    (items ++ [(object_begin, [])]).
Proof.
  intros H. exists T, items, ["{"%char], [(object_begin, [])].
  split; [exact H|]. split; [|split; reflexivity].
  exists []. split; [apply spaces_nil | split; reflexivity].
Qed.

Lemma open_array stk T items :
  context stk T items ->
  between (basic_reader.array_1_state :: stk) (T ++ ["["%char])
    (items ++ [(array_begin, [])]).
Proof.
  intros H. exists T, items, ["["%char], [(array_begin, [])].
  split; [exact H|]. split; [|split; reflexivity].
  exists []. split; [apply spaces_nil | split; reflexivity].
Qed.

Lemma close_object_1 rest T items :
  between (basic_reader.object_1_state :: rest) T items ->
  between rest (T ++ ["}"%char]) (items ++ [(object_end, [])]).
Proof.
  intros (T0 & it0 & t & it & Hctx & (ws & Hws & -> & ->) & -> & ->).
  reshape (T0 ++ "{"%char :: ws ++ ["}"%char])
    (it0 ++ [(object_begin, @nil ascii); (object_end, [])]).
  apply container_done; [exact Hctx | apply derives_empty_object; exact Hws].
Qed.

Lemma close_array_1 rest T items :
  between (basic_reader.array_1_state :: rest) T items ->
  between rest (T ++ ["]"%char]) (items ++ [(array_end, [])]).
Proof.
  intros (T0 & it0 & t & it & Hctx & (ws & Hws & -> & ->) & -> & ->).
  reshape (T0 ++ "["%char :: ws ++ ["]"%char])
    (it0 ++ [(array_begin, @nil ascii); (array_end, [])]).
  apply container_done; [exact Hctx | apply derives_empty_array; exact Hws].
Qed.

Lemma close_object_n rest T items :
  between (basic_reader.object_n_state :: rest) T items ->
  between rest (T ++ ["}"%char]) (items ++ [(object_end, [])]).
Proof.
  intros (T0 & it0 & t & it & Hctx & Hopen & -> & ->). cbn [open_text] in Hopen.
  destruct Hopen as (t0 & it1 & s & d & ws1 & ws2 & v & vit & ws3 &
                     (ws & pre & pit & Hws & Hpre & -> & ->) &
                     Hs & H1 & H2 & Hv & H3 & -> & ->).
  reshape (T0 ++ "{"%char :: ws ++
          (pre ++ string_text s ++ ws1 ++ ":"%char :: ws2 ++ v ++ ws3) ++ ["}"%char])
    (it0 ++ (object_begin, []) :: (pit ++ (key, d) :: vit) ++ [(object_end, [])]).
  apply container_done; [exact Hctx|].
  apply derives_object; [exact Hws|].
  apply (members_before_derives _ _ Hpre).
  apply derives_member; assumption.
Qed.

Lemma close_array_n rest T items :
  between (basic_reader.array_n_state :: rest) T items ->
  between rest (T ++ ["]"%char]) (items ++ [(array_end, [])]).
Proof.
  intros (T0 & it0 & t & it & Hctx & Hopen & -> & ->). cbn [open_text] in Hopen.
  destruct Hopen as (t0 & it1 & v & vit & ws1 &
                     (ws & pre & pit & Hws & Hpre & -> & ->) & Hv & H1 & -> & ->).
  reshape (T0 ++ "["%char :: ws ++ (pre ++ v ++ ws1) ++ ["]"%char])
    (it0 ++ (array_begin, []) :: (pit ++ vit) ++ [(array_end, [])]).
  apply container_done; [exact Hctx|].
  apply derives_array; [exact Hws|].
  apply (elements_before_derives _ _ Hpre).
  apply derives_element; assumption.
Qed.

Lemma key_read top rest T items s d :
  top = basic_reader.object_1_state \/ top = basic_reader.object_2_state ->
  between (top :: rest) T items -> string_body s d ->
  between (basic_reader.object_3_state :: rest) (T ++ string_text s) (items ++ [(key, d)]).
Proof.
  intros Htop (T0 & it0 & t & it & Hctx & Hopen & -> & ->) Hs.
  assert (Hk : key_position t it).
  { destruct Htop as [-> | ->]; [apply object_1_key_position|]; exact Hopen. }
  exists T0, it0, (t ++ string_text s), (it ++ [(key, d)]).
  split; [exact Hctx|]. split; [|split; list_eq].
  exists t, it, s, d, []. split; [exact Hk|]. split; [exact Hs|].
  split; [apply spaces_nil|]. split; list_eq.
Qed.

Lemma colon_read rest T items :
  between (basic_reader.object_3_state :: rest) T items ->
  between (basic_reader.object_v_state :: rest) (T ++ [":"%char]) items.
Proof.
  intros (T0 & it0 & t & it & Hctx & Hopen & -> & ->). cbn [open_text] in Hopen.
  destruct Hopen as (t0 & it1 & s & d & ws1 & Hk & Hs & H1 & -> & ->).
  exists T0, it0, (t0 ++ string_text s ++ ws1 ++ [":"%char]), (it1 ++ [(key, d)]).
  split; [exact Hctx|]. split; [|split; list_eq].
  exists t0, it1, s, d, ws1, []. split; [exact Hk|]. split; [exact Hs|].
  split; [exact H1|]. split; [apply spaces_nil|]. split; reflexivity.
Qed.

Lemma comma_object rest T items :
  between (basic_reader.object_n_state :: rest) T items ->
  between (basic_reader.object_2_state :: rest) (T ++ [","%char]) items.
Proof.
  intros (T0 & it0 & t & it & Hctx & Hopen & -> & ->). cbn [open_text] in Hopen.
  destruct Hopen as (t0 & it1 & s & d & ws1 & ws2 & v & vit & ws3 &
                     (ws & pre & pit & Hws & Hpre & -> & ->) &
                     Hs & H1 & H2 & Hv & H3 & -> & ->).
  exists T0, it0,
    ("{"%char :: ws ++
     (pre ++ string_text s ++ ws1 ++ ":"%char :: ws2 ++ v ++ ws3 ++ [","%char])),
    ((object_begin, []) :: (pit ++ (key, d) :: vit)).
  split; [exact Hctx|]. split; [|split; list_eq].
  exists ws, (pre ++ string_text s ++ ws1 ++ ":"%char :: ws2 ++ v ++ ws3 ++ [","%char]),
    (pit ++ (key, d) :: vit).
  split; [exact Hws|]. split; [|split; reflexivity].
  apply members_before_snoc; try assumption. apply spaces_nil.
Qed.

Lemma comma_array rest T items :
  between (basic_reader.array_n_state :: rest) T items ->
  between (basic_reader.array_v_state :: rest) (T ++ [","%char]) items.
Proof.
  intros (T0 & it0 & t & it & Hctx & Hopen & -> & ->). cbn [open_text] in Hopen.
  destruct Hopen as (t0 & it1 & v & vit & ws1 &
                     (ws & pre & pit & Hws & Hpre & -> & ->) & Hv & H1 & -> & ->).
  exists T0, it0, ("["%char :: ws ++ (pre ++ v ++ ws1 ++ [","%char])),
    ((array_begin, []) :: (pit ++ vit)).
  split; [exact Hctx|]. split; [|split; list_eq].
  exists ws, (pre ++ v ++ ws1 ++ [","%char]), (pit ++ vit).
  split; [exact Hws|]. split; [|split; reflexivity].
  apply elements_before_snoc; try assumption. apply spaces_nil.
Qed.
(** A value token in a context where a value can come. *)
Lemma value_sound t top vtop rest what T items lex d :
  value_slot top vtop ->
  between (vtop :: rest) T items ->
  lexeme t lex d ->
  match value_step t (top :: rest) what with
  | raises _ _ => True
  | moves _ => False
  | delivers i _ stk' => between stk' (T ++ lex) (items ++ [(i, d)])
  end.
Proof.
  intros Hslot Hb Hlex.
  pose proof (into_value top vtop rest T items Hb Hslot) as Hctx.
  destruct t; cbn [value_step]; try exact I; cbn [lexeme] in Hlex.
  - destruct Hlex as [-> ->]. apply open_object. exact Hctx.
  - destruct Hlex as [-> ->]. apply open_array. exact Hctx.
  - destruct Hlex as (s & -> & Hs). apply value_done; [exact Hctx|].
    apply derives_string. exact Hs.
  - destruct Hlex as [-> Hd]. apply value_done; [exact Hctx|].
    apply derives_integer. exact Hd.
  - destruct Hlex as [-> Hd]. apply value_done; [exact Hctx|].
    apply derives_real. exact Hd.
  - destruct Hlex as [-> ->]. apply value_done; [exact Hctx | apply derives_null].
  - destruct Hlex as [-> ->]. apply value_done; [exact Hctx | apply derives_true].
  - destruct Hlex as [-> ->]. apply value_done; [exact Hctx | apply derives_false].
Qed.

(** Whatever [token] accepts continues what has been read according to
    the grammar. *)
Lemma token_sound stk t T items lex d :
  between stk T items ->
  lexeme t lex d ->
  match token_step stk t with
  | raises _ _ => True
  | moves stk' => between stk' (T ++ lex) items /\ d = []
  | delivers i _ stk' => between stk' (T ++ lex) (items ++ [(i, d)])
  end.
Proof.
  intros Hb Hlex.
  destruct stk as [|top rest].
  - cbn [between] in Hb.
    destruct t; cbn [token_step]; try exact I; cbn [lexeme] in Hlex;
      destruct Hlex as [-> ->];
      [apply open_object | apply open_array]; apply context_top; exact Hb.
  - destruct top; cbn [token_step]; cbv zeta.
    + (* object_1_state *)
      destruct t; try exact I; cbn [lexeme] in Hlex.
      * destruct Hlex as [-> ->]. apply close_object_1. exact Hb.
      * destruct Hlex as (s & -> & Hs).
        exact (key_read _ _ _ _ _ _ (or_introl eq_refl) Hb Hs).
    + (* object_2_state *)
      destruct t; try exact I; cbn [lexeme] in Hlex.
      destruct Hlex as (s & -> & Hs).
      exact (key_read _ _ _ _ _ _ (or_intror eq_refl) Hb Hs).
    + (* object_3_state *)
      destruct t; try exact I; cbn [lexeme] in Hlex.
      destruct Hlex as [-> ->]. split; [apply colon_read; exact Hb | reflexivity].
    + (* object_v_state *)
      pose proof (value_sound t basic_reader.object_n_state basic_reader.object_v_state
                    rest basic_reader.value_expected T items lex d
                    (or_introl (conj eq_refl eq_refl)) Hb Hlex) as H.
      destruct (value_step t (basic_reader.object_n_state :: rest)
                  basic_reader.value_expected); [exact I | contradiction | exact H].
    + (* object_n_state *)
      destruct t; try exact I; cbn [lexeme] in Hlex.
      * destruct Hlex as [-> ->]. apply close_object_n. exact Hb.
      * destruct Hlex as [-> ->]. split; [apply comma_object; exact Hb | reflexivity].
    + (* array_1_state *)
      destruct t;
        try (pose proof (value_sound _ basic_reader.array_n_state basic_reader.array_1_state
                           rest basic_reader.value_or_array_end_expected T items lex d
                           (or_intror (conj eq_refl (or_introl eq_refl))) Hb Hlex) as H;
             exact H).
      cbn [lexeme] in Hlex. destruct Hlex as [-> ->]. apply close_array_1. exact Hb.
    + (* array_v_state *)
      pose proof (value_sound t basic_reader.array_n_state basic_reader.array_v_state
                    rest basic_reader.value_or_array_end_expected T items lex d
                    (or_intror (conj eq_refl (or_intror eq_refl))) Hb Hlex) as H.
      destruct (value_step t (basic_reader.array_n_state :: rest)
                  basic_reader.value_or_array_end_expected);
        [exact I | contradiction | exact H].
    + (* array_n_state *)
      destruct t; try exact I; cbn [lexeme] in Hlex.
      * destruct Hlex as [-> ->]. apply close_array_n. exact Hb.
      * destruct Hlex as [-> ->]. split; [apply comma_array; exact Hb | reflexivity].
Qed.
(** *** One character *)

Ltac split_ifs H :=
  repeat match type of H with
         | (if Ascii.eqb ?c ?x then _ else _) = _ =>
             destruct (Ascii.eqb_spec c x) as [->|?]
         | (if ?b then _ else _) = _ => destruct b eqn:?
         end.

Lemma first_digit_lexes c :
  isdigit c = true ->
  lexes [c] = Some (if Ascii.eqb c "0" then basic_reader.integer_z_state
                    else basic_reader.integer_n_state).
Proof.
  intros Hd. cbn [lexes]. unfold number_start.
  rewrite (digit_not_minus c Hd), Hd. reflexivity.
Qed.

Lemma number_goes st data u c st' data' u' :
  in_number st = true ->
  scan_step st data u c = goes st' data' u' ->
  number_step st c = Some st' /\ data' = data ++ [c].
Proof.
  intros Hst H. unfold scan_step in H; cbv zeta in H. unfold number_step.
  destruct st; try discriminate Hst; cbv beta iota in H |- *;
    repeat match type of H with
           | (if ?b then _ else _) = _ => destruct b eqn:?
           end;
    try discriminate H; inversion H; subst; split; reflexivity.
Qed.

Lemma literal_goes st' (x : ascii) pre u c st1 data1 u1 lex :
  (if Ascii.eqb c x then goes st' [] u else fails) = goes st1 data1 u1 ->
  lex = pre ->
  pending st' [] u (pre ++ [x]) ->
  pending st1 data1 u1 (lex ++ [c]).
Proof.
  destruct (Ascii.eqb_spec c x) as [->|]; [|discriminate].
  intros H ->. inversion H; subst. exact (fun P => P).
Qed.

Lemma pending_goes st data u c st' data' u' lex :
  scan_step st data u c = goes st' data' u' ->
  pending st data u lex ->
  (st = basic_reader.default_state /\ isspace c = true /\
   st' = basic_reader.default_state /\ data' = data /\ lex = []) \/
  pending st' data' u' (lex ++ [c]).
Proof.
  intros H Hp.
  assert (Hnum : in_number st = true -> pending st' data' u' (lex ++ [c])).
  { intros Hst. destruct (number_goes _ _ _ _ _ _ _ Hst H) as [Hstep ->].
    assert (Hlex : lex = data /\ lexes data = Some st)
      by (destruct st; try discriminate Hst; exact Hp).
    destruct Hlex as [-> Hlex].
    pose proof (lexes_snoc _ _ _ _ Hlex Hstep) as Hsnoc.
    apply number_step_in_number in Hstep. destruct Hstep as [_ Hst'].
    destruct st'; try discriminate Hst'; (split; [reflexivity | exact Hsnoc]). }
  destruct st; cbn [pending] in Hp; try (right; apply Hnum; reflexivity); clear Hnum;
    unfold scan_step in H; cbv zeta in H; cbv beta iota in H.
  - (* default_state *)
    destruct Hp as [-> ->].
    split_ifs H; try discriminate H; inversion H; subst; clear H;
      try (right; cbn [pending app]; split; reflexivity).
    + left. repeat split; reflexivity.
    + right. exists []. split; [reflexivity | apply body_end].
    + right. pose proof (first_digit_lexes c ltac:(assumption)) as Hl.
      destruct (Ascii.eqb c "0"); cbn [pending app]; split; first [reflexivity | exact Hl].
  - (* string_state *)
    destruct Hp as (s & -> & Hs).
    destruct (Ascii.eqb c dquote) eqn:Eq; [discriminate H|].
    destruct (Ascii.eqb c backslash) eqn:Eb; inversion H; subst; clear H; right.
    + apply Ascii.eqb_eq in Eb. subst c. exists s. split; [reflexivity | exact Hs].
    + exists (s ++ [c]). split; [reflexivity|]. apply string_body_char; assumption.
  - (* escape_state *)
    destruct Hp as (s & -> & Hs).
    split_ifs H; try discriminate H; inversion H; subst; clear H; right;
      try (eexists; split;
           [ | apply string_body_escape; [exact Hs | cbn; tauto] ];
           list_eq).
    exists s. split; [list_eq | exact Hs].
  - (* unicode_1_state *)
    destruct Hp as (s & -> & Hs).
    destruct (isxdigit c) eqn:Ex; [|discriminate H]. inversion H; subst; clear H. right.
    exists s, c, u. split; [list_eq|]. repeat split; assumption.
  - (* unicode_2_state *)
    destruct Hp as (s & h1 & u0 & -> & Hs & X1 & ->).
    destruct (isxdigit c) eqn:Ex; [|discriminate H]. inversion H; subst; clear H. right.
    exists s, h1, c, u0. split; [list_eq|]. repeat split; assumption.
  - (* unicode_3_state *)
    destruct Hp as (s & h1 & h2 & u0 & -> & Hs & X1 & X2 & ->).
    destruct (isxdigit c) eqn:Ex; [|discriminate H]. inversion H; subst; clear H. right.
    exists s, h1, h2, c, u0. split; [list_eq|]. repeat split; assumption.
  - (* unicode_4_state *)
    destruct Hp as (s & h1 & h2 & h3 & u0 & -> & Hs & X1 & X2 & X3 & ->).
    destruct (isxdigit c) eqn:Ex; [|discriminate H]. inversion H; subst; clear H. right.
    exists (s ++ [backslash; "u"%char; h1; h2; h3; c]). split; [list_eq|].
    unfold shifted. rewrite accumulate by (apply hex_value_range; assumption).
    fold (code_point h1 h2 h3 c). apply string_body_unicode; assumption.
  - right. destruct Hp as [Hl ->].
    exact (literal_goes _ _ (text "n") _ _ _ _ _ _ H Hl (conj eq_refl eq_refl)).
  - right. destruct Hp as [Hl ->].
    exact (literal_goes _ _ (text "nu") _ _ _ _ _ _ H Hl (conj eq_refl eq_refl)).
  - right. destruct Hp as [Hl ->].
    destruct (Ascii.eqb c "l"); discriminate H.
  - right. destruct Hp as [Hl ->].
    exact (literal_goes _ _ (text "t") _ _ _ _ _ _ H Hl (conj eq_refl eq_refl)).
  - right. destruct Hp as [Hl ->].
    exact (literal_goes _ _ (text "tr") _ _ _ _ _ _ H Hl (conj eq_refl eq_refl)).
  - right. destruct Hp as [Hl ->].
    destruct (Ascii.eqb c "e"); discriminate H.
  - right. destruct Hp as [Hl ->].
    exact (literal_goes _ _ (text "f") _ _ _ _ _ _ H Hl (conj eq_refl eq_refl)).
  - right. destruct Hp as [Hl ->].
    exact (literal_goes _ _ (text "fa") _ _ _ _ _ _ H Hl (conj eq_refl eq_refl)).
  - right. destruct Hp as [Hl ->].
    exact (literal_goes _ _ (text "fal") _ _ _ _ _ _ H Hl (conj eq_refl eq_refl)).
  - right. destruct Hp as [Hl ->].
    destruct (Ascii.eqb c "e"); discriminate H.
Qed.

(** The token that [scan] hands over, with its text. *)
Lemma pending_emits st data u c t consumed lex :
  scan_step st data u c = emits t consumed ->
  pending st data u lex ->
  lexeme t (if consumed then lex ++ [c] else lex) data.
Proof.
  intros H Hp.
  assert (Hnum : in_number st = true ->
                 lexeme t (if consumed then lex ++ [c] else lex) data).
  { intros Hst.
    assert (Hlex : lex = data /\ lexes data = Some st)
      by (destruct st; try discriminate Hst; exact Hp).
    destruct Hlex as [-> Hlex].
    unfold scan_step in H; cbv zeta in H.
    destruct st; try discriminate Hst; cbv beta iota in H;
      repeat match type of H with
             | (if ?b then _ else _) = _ => destruct b eqn:?
             end;
      try discriminate H; inversion H; subst; cbn [lexeme];
      (split; [reflexivity|]);
      first [ apply integer_text_syntax; first [left; exact Hlex | right; exact Hlex]
            | apply real_text_syntax; first [left; exact Hlex | right; exact Hlex] ]. }
  destruct st; cbn [pending] in Hp; try (apply Hnum; reflexivity); clear Hnum;
    unfold scan_step in H; cbv zeta in H; cbv beta iota in H.
  - (* default_state *)
    destruct Hp as [-> ->].
    split_ifs H; try discriminate H; inversion H; subst; clear H;
      cbn [lexeme app]; split; reflexivity.
  - (* string_state *)
    destruct Hp as (s & -> & Hs).
    destruct (Ascii.eqb_spec c dquote) as [->|]; [|split_ifs H; discriminate H].
    inversion H; subst. exists s. split; [reflexivity | exact Hs].
  - split_ifs H; discriminate H.
  - split_ifs H; discriminate H.
  - split_ifs H; discriminate H.
  - split_ifs H; discriminate H.
  - split_ifs H; discriminate H.
  - split_ifs H; discriminate H.
  - split_ifs H; discriminate H.
  - destruct Hp as [-> ->]. split_ifs H; try discriminate H. inversion H; subst.
    split; reflexivity.
  - split_ifs H; discriminate H.
  - split_ifs H; discriminate H.
  - destruct Hp as [-> ->]. split_ifs H; try discriminate H. inversion H; subst.
    split; reflexivity.
  - split_ifs H; discriminate H.
  - split_ifs H; discriminate H.
  - split_ifs H; discriminate H.
  - destruct Hp as [-> ->]. split_ifs H; try discriminate H. inversion H; subst.
    split; reflexivity.
Qed.
(** *** The whole input *)

Lemma reading_moved c T items r : reading T items r -> reading T items (moved c r).
Proof.
  unfold moved. destruct r as [stk st data row col u].
  destruct (Ascii.eqb c newline); exact (fun H => H).
Qed.

Lemma scan_sound c T items r log b r' log' :
  reading T items r ->
  basic_reader.scan _ basic_reader.record_event c (r, log) = (Return b, (r', log')) ->
  exists new,
    map payload log' = map payload log ++ new /\
    reading (if b then T ++ [c] else T) (items ++ new) r'.
Proof.
  destruct r as [stk st data row col u].
  intros (T0 & lex & -> & Hb & Hp).
  cbn [basic_reader.m_token_state basic_reader.m_char_state basic_reader.m_data
       basic_reader.m_unicode] in Hb, Hp.
  rewrite scan_eq_step.
  destruct (scan_step st data u c) as [st' data' u'|t consumed|] eqn:Es.
  - intros H; inversion H; subst. exists []. rewrite !app_nil_r. split; [reflexivity|].
    destruct (pending_goes _ _ _ _ _ _ _ _ Es Hp) as [(-> & Hc & -> & -> & ->) | Hp'].
    + exists (T0 ++ [c]), []. split; [list_eq|].
      split; [apply between_space; assumption | exact Hp].
    + exists T0, (lex ++ [c]). split; [list_eq|]. split; [exact Hb | exact Hp'].
  - pose proof (pending_emits _ _ _ _ _ _ _ Es Hp) as Hlex.
    pose proof (token_sound _ _ _ _ _ _ Hb Hlex) as Htok.
    unfold bind. rewrite token_eq_step.
    destruct (token_step stk t) as [mid what|stk'|i mid stk'].
    + discriminate.
    + destruct Htok as [Hb' ->].
      assert (Hr : reading (if consumed then (T0 ++ lex) ++ [c] else T0 ++ lex) items
                     (basic_reader.mk_reader stk' basic_reader.default_state [] row col u)).
      { exists (T0 ++ if consumed then lex ++ [c] else lex), [].
        split; [destruct consumed; list_eq|]. split; [exact Hb' | split; reflexivity]. }
      destruct consumed; intros H; inversion H; subst;
        exists []; rewrite !app_nil_r; (split; [reflexivity | exact Hr]).
    + cbn [basic_reader.record_event modify].
      assert (Hr : reading (if consumed then (T0 ++ lex) ++ [c] else T0 ++ lex)
                     (items ++ [(i, data)])
                     (basic_reader.mk_reader stk' basic_reader.default_state [] row col u)).
      { exists (T0 ++ if consumed then lex ++ [c] else lex), [].
        split; [destruct consumed; list_eq|]. split; [exact Htok | split; reflexivity]. }
      destruct consumed; intros H; inversion H; subst;
        exists [(i, data)]; (split; [rewrite map_app; reflexivity | exact Hr]).
  - discriminate.
Qed.

Lemma feed_sound c T items r log r' log' :
  reading T items r ->
  basic_reader.feed _ basic_reader.record_event c (r, log) = (Return tt, (r', log')) ->
  exists new,
    map payload log' = map payload log ++ new /\
    reading (T ++ [c]) (items ++ new) r'.
Proof.
  intros Hr H. unfold basic_reader.feed, basic_reader.operator_call in H.
  apply bind_Return_inv in H. destruct H as (n & [r1 log1] & Hloop & Hmove).
  rewrite move_eq in Hmove. inversion Hmove; subst r' log1. clear Hmove.
  cbn [basic_reader.scan_loop] in Hloop.
  apply bind_Return_inv in Hloop. destruct Hloop as (b1 & [ra loga] & Hscan1 & Hrest).
  destruct (scan_sound _ _ _ _ _ _ _ _ Hr Hscan1) as (new1 & Hlog1 & Hr1).
  destruct b1.
  - inversion Hrest; subst. exists new1. split; [exact Hlog1|].
    apply reading_moved. exact Hr1.
  - apply bind_Return_inv in Hrest. destruct Hrest as (m & [rb logb] & Hloop2 & Hret).
    inversion Hret; subst rb logb. clear Hret.
    apply bind_Return_inv in Hloop2. destruct Hloop2 as (b2 & [rc logc] & Hscan2 & Hrest2).
    destruct (scan_sound _ _ _ _ _ _ _ _ Hr1 Hscan2) as (new2 & Hlog2 & Hr2).
    destruct b2; [|discriminate Hrest2].
    inversion Hrest2; subst. exists (new1 ++ new2).
    split; [rewrite Hlog2, Hlog1, app_assoc; reflexivity|].
    apply reading_moved. rewrite app_assoc. exact Hr2.
Qed.

Lemma for_each_sound cs : forall T items r log r' log',
  reading T items r ->
  read_events cs (r, log) = (Return tt, (r', log')) ->
  exists new,
    map payload log' = map payload log ++ new /\
    reading (T ++ cs) (items ++ new) r'.
Proof.
  induction cs as [|c cs IH]; intros T items r log r' log' Hr H.
  - inversion H; subst. exists []. rewrite !app_nil_r. split; [reflexivity | exact Hr].
  - unfold read_events in H. cbn [basic_reader.for_each] in H.
    apply bind_Return_inv in H. destruct H as ([] & [r1 log1] & Hfeed & Hrest).
    destruct (feed_sound _ _ _ _ _ _ _ Hr Hfeed) as (new1 & Hlog1 & Hr1).
    destruct (IH _ _ _ _ _ _ Hr1 Hrest) as (new2 & Hlog2 & Hr2).
    exists (new1 ++ new2). split; [rewrite Hlog2, Hlog1, app_assoc; reflexivity|].
    replace (T ++ c :: cs) with ((T ++ [c]) ++ cs) by list_eq.
    rewrite app_assoc. exact Hr2.
Qed.

Lemma read_events_sound D r log :
  read_events D fresh = (Return tt, (r, log)) -> reading D (map payload log) r.
Proof.
  intros H.
  destruct (for_each_sound D [] [] basic_reader.init [] r log) as (new & Hlog & Hr).
  - exists [], []. split; [reflexivity|]. split; [apply documents_nil | split; reflexivity].
  - exact H.
  - cbn [map app] in Hlog, Hr. rewrite Hlog. exact Hr.
Qed.

(** The other direction: a sequence of documents is read without error. *)
Lemma documents_parses D items : documents D items -> parses D [] items [].
Proof.
  induction 1 as [|T items c _ IH Hc|T items body items' _ IH Hbody].
  - apply parses_spaces. constructor.
  - rewrite <- (app_nil_r items).
    eapply parses_app; [exact IH|]. apply parses_spaces.
    constructor; [exact Hc | constructor].
  - eapply parses_app; [exact IH|].
    apply derives_reads_as in Hbody. cbn [reads_as] in Hbody.
    apply Hbody. left. split; reflexivity.
Qed.

(** The reader accepts exactly the grammar: a fresh reader reads an input
    without error, delivers [items] and ends between two tokens with every
    container closed if and only if the input is a sequence of objects and
    arrays of the JSON grammar, with white space around them, that stands
    for [items]. *)
Theorem reader_accepts_the_grammar :
  forall D items,
    documents D items <->
    exists r log,
      read_events D fresh = (Return tt, (r, log)) /\
      map payload log = items /\
      basic_reader.m_token_state r = [] /\
      basic_reader.m_char_state r = basic_reader.default_state.
Proof.
  intros D items. split.
  - intros HD. apply documents_parses in HD.
    destruct (HD 1 1 0) as (r' & R & Hstk & Hst & _).
    destruct (R 1 1 []) as (row' & col' & log' & E & P).
    exists (basic_reader.set_position row' col' r'), log'.
    split; [exact E|]. split; [exact P|]. split; assumption.
  - intros (r & log & Hread & <- & Hstk & Hst).
    apply read_events_sound in Hread.
    destruct Hread as (T0 & lex & -> & Hb & Hp).
    rewrite Hstk in Hb. rewrite Hst in Hp. cbn [between pending] in Hb, Hp.
    destruct Hp as [-> _]. rewrite app_nil_r. exact Hb.
Qed.

Lemma reader_accepts_the_grammar_witness :
  documents sample (events_of (read_events sample fresh)).
Proof.
  apply (proj2 (reader_accepts_the_grammar sample (events_of (read_events sample fresh)))).
  exists (fst (snd (read_events sample fresh))), (snd (snd (read_events sample fresh))).
  split; [vm_compute; reflexivity|].
  split; [unfold events_of; reflexivity|].
  split; vm_compute; reflexivity.
Defined.
(** ** What the writer writes is in the grammar *)



(** ** Writing again what was read *)

(** Reading what a writer of indent width [n] wrote for the items of an
    accepted input and writing the items again at indent width [m] gives
    what a writer of width [m] writes for the items in the first place:
    the text that the writer makes of an input is a normal form, which
    reading and writing again at the same width leaves as it is. *)
Theorem rewriting_is_idempotent :
  forall n m D r log w1 out1,
    read_events D fresh = (Return tt, (r, log)) ->
    basic_reader.m_token_state r = [] ->
    basic_writer.replay (map payload log) (basic_writer.indent n basic_writer.init, []) =
      (Return tt, (w1, out1)) ->
    fst (read_events out1 fresh) = Return tt /\
    basic_writer.replay (events_of (read_events out1 fresh))
      (basic_writer.indent m basic_writer.init, []) =
      basic_writer.replay (map payload log) (basic_writer.indent m basic_writer.init, []).
Proof.
  intros n m D r log w1 out1 Hread Hstk Hreplay.
  destruct (round_trip_of_read n D r log Hread Hstk)
    as (out & Hreplay' & r' & log' & Hread' & Hlog' & _).
  rewrite Hreplay in Hreplay'. injection Hreplay' as _ Hout. subst out.
  unfold events_of. rewrite Hread'. cbn [fst snd]. split; [reflexivity|].
  rewrite Hlog'. reflexivity.
Qed.

Lemma rewriting_is_idempotent_witness :
  basic_writer.replay
    (events_of
       (read_events
          (snd (snd (basic_writer.replay (map payload (snd (snd (read_events sample fresh))))
                       (basic_writer.indent 2 basic_writer.init, []))))
          fresh))
    (basic_writer.indent 0 basic_writer.init, []) =
  basic_writer.replay (map payload (snd (snd (read_events sample fresh))))
    (basic_writer.indent 0 basic_writer.init, []).
Proof.
  refine (proj2 (rewriting_is_idempotent 2 0 sample
                   (fst (snd (read_events sample fresh)))
                   (snd (snd (read_events sample fresh)))
                   (fst (snd (basic_writer.replay
                                (map payload (snd (snd (read_events sample fresh))))
                                (basic_writer.indent 2 basic_writer.init, []))))
                   (snd (snd (basic_writer.replay
                                (map payload (snd (snd (read_events sample fresh))))
                                (basic_writer.indent 2 basic_writer.init, []))))
                   _ _ _)).
  - vm_compute. reflexivity.
  - vm_compute. reflexivity.
  - vm_compute. reflexivity.
Defined.
